(** * The Petri-net translator of the planner: safe operators, complement
      atoms, the Hickmott mapping and the finite-domain encoding.

    Sources embedded here:
    - [src/translate/petri_translate.py]: [powerset], [not_negated_effect],
      [preconditions_atoms], [join_add_del_effects], [get_safe_operators],
      [remove_negative_preconditions], [petri_mapping], [pddl2petri];
    - [src/translate/petri/petri.py]: [PetriPlace], [PetriTransition],
      [PetriNet], [PetriNet.sas_translate].

    Python sets are finite sets ([gset]); their iteration order is not
    fixed by the language, so every statement about a value that went
    through a set is a statement about membership.  Python dicts that are
    iterated ([additional_literals]) are insertion-ordered association
    lists; dicts that are only looked up ([places], [place2var]) are finite
    maps.  A raised exception is [None]. *)

From stdpp Require Import base strings pretty countable option sorting list sets gmap.

Open Scope string_scope.
Open Scope list_scope.
Open Scope nat_scope.

(** ** The literal model ([pddl.conditions], [pddl.actions]) *)

(** Modelled from the spec: the classes [Atom] and [NegatedAtom] of
    [pddl.conditions] are not under src/.  Section 3: an atom is a predicate
    name, a parameter list and a polarity flag; two atoms are equal iff all
    three agree.  [negated = false] is the class [Atom], [negated = true] the
    class [NegatedAtom]. *)
Record Literal := mkLit {
  predicate : string;
  args : list string;
  negated : bool
}.

#[global] Instance Literal_eq_dec : EqDecision Literal.
Proof. solve_decision. Defined.

#[global] Instance Literal_countable : Countable Literal.
Proof.
  refine (inj_countable' (λ l, (predicate l, args l, negated l))
                         (λ t, mkLit t.1.1 t.1.2 t.2) _).
  by intros [].
Defined.

(** Modelled from the spec: [negate] flips the polarity, [positive] strips
    the negation. *)
Definition negate (l : Literal) : Literal :=
  mkLit (predicate l) (args l) (negb (negated l)).

Definition positive (l : Literal) : Literal :=
  mkLit (predicate l) (args l) false.

(** Modelled from the spec: the string form of a literal, the class name
    followed by the predicate and the comma-separated arguments.  The test
    file fixes the shape: the place of atom [a] is named ["Atom a()"]. *)
Definition str (l : Literal) : string :=
  (if negated l then "NegatedAtom " else "Atom ")
    +:+ predicate l +:+ "(" +:+ String.concat ", " (args l) +:+ ")".

(** An entry of a precondition list: a bare literal ([parts] is empty), or a
    condition that carries its literals in [parts]. *)
Inductive Condition :=
  | CLit (l : Literal)
  | CConj (parts : list Literal).

#[global] Instance Condition_eq_dec : EqDecision Condition.
Proof. solve_decision. Defined.

#[global] Instance Condition_countable : Countable Condition.
Proof.
  refine (inj_countable'
            (λ c, match c with CLit l => inl l | CConj ps => inr ps end)
            (λ s, match s with inl l => CLit l | inr ps => CConj ps end) _).
  by intros [].
Defined.

#[global] Instance CLit_inj : Inj (=) (=) CLit.
Proof. by intros ?? [=]. Qed.

(** [cond.parts if cond.parts else [cond]]: an empty [parts] is falsy, so a
    bare literal and a condition without parts both stand for themselves. *)
Definition parts_of (cond : Condition) : list Condition :=
  match cond with
  | CConj (p :: ps) => CLit <$> (p :: ps)
  | _ => [cond]
  end.

(** An effect as the actions store it: a pair of an effect condition and a
    literal.  The translator never looks at the condition. *)
Definition CondEffect : Type := list Literal * Literal.

Record PropositionalAction := mkAction {
  name : string;
  precondition : list Condition;
  add_effects : list CondEffect;
  del_effects : list CondEffect;
  cost : Z
}.

(** Modelled from the spec: the constructor of [pddl.actions.PropositionalAction]
    is not under src/.  Section 3: an effect is tagged as an add-effect (the atom
    becomes true) or a del-effect (the atom becomes false).  The positive
    effects are the add-effects; a negative effect is stored as a del-effect
    on its atom, unless the same atom is added under the same condition. *)
Definition PropositionalAction_init (nm : string) (pre : list Condition)
    (effects : list CondEffect) (c : Z) : PropositionalAction :=
  let adds := filter (λ ce : CondEffect, negated ce.2 = false) effects in
  let dels :=
    (λ ce : CondEffect, (ce.1, negate ce.2)) <$>
      filter (λ ce : CondEffect,
                negated ce.2 = true ∧ (ce.1, negate ce.2) ∉ adds) effects in
  mkAction nm pre adds dels c.

(** ** Safe-operator expansion *)

(** [itertools.combinations(s, r)]: the [r]-element subsequences of [s], in
    lexicographic order of their positions. *)
Fixpoint combinations {A} (s : list A) (r : nat) : list (list A) :=
  match r, s with
  | 0, _ => [[]]
  | S _, [] => []
  | S r', x :: s' => (cons x <$> combinations s' r') ++ combinations s' r
  end.

(** [chain.from_iterable(combinations(s, r) for r in range(len(s) + 1))] *)
Definition powerset {A} (s : list A) : list (list A) :=
  seq 0 (length s + 1) ≫= combinations s.

Definition not_negated_effect (eff : Literal) (preconditions : list Condition)
    : bool :=
  forallb (λ cond,
     forallb (λ part,
        negb (bool_decide (part = CLit (negate eff))
              || bool_decide (part = CLit eff)))
       (parts_of cond))
    preconditions.

Definition preconditions_atoms (preconditions : list Condition)
    : list Condition :=
  preconditions ≫= parts_of.

Definition join_add_del_effects (adds dels : list CondEffect) : list Literal :=
  (snd <$> adds) ++ ((λ dele : CondEffect, negate dele.2) <$> dels).

(** The effect literals of an operator, [join_add_del_effects(op.add_effects,
    op.del_effects)]. *)
Definition effects_of (op : PropositionalAction) : list Literal :=
  join_add_del_effects (add_effects op) (del_effects op).

(** [not_negated_effects]: the effects that pass [not_negated_effect], in
    the order of [effects]. *)
Definition not_negated_effects (op : PropositionalAction) : list Literal :=
  filter (λ eff, not_negated_effect eff (precondition op)) (effects_of op).

(** [negated_effects = set(effects).difference(set(not_negated_effects))] *)
Definition negated_effects (op : PropositionalAction) : gset Literal :=
  list_to_set (effects_of op) ∖ list_to_set (not_negated_effects op).

(** The inner loop over [not_negated_effects] that completes the
    precondition [p] of one generated operator. *)
Definition safe_precondition (orig_pre : gset Condition) (e : gset Literal)
    (nne : list Literal) : gset Condition :=
  foldl (λ p not_negated,
           if decide (not_negated ∈ e)
           then p ∪ {[ CLit (negate not_negated) ]}
           else p ∪ {[ CLit not_negated ]})
        orig_pre nne.

(** The operator generated for the [i]-th element [eprime] of the power set
    ([i] counts from 1, as [enumerate(..., 1)] does). *)
Definition safe_operator (op : PropositionalAction) (i : nat)
    (eprime : list Literal) : PropositionalAction :=
  let e := negated_effects op ∪ list_to_set eprime in
  let p := safe_precondition
             (list_to_set (preconditions_atoms (precondition op))) e
             (not_negated_effects op) in
  PropositionalAction_init (name op +:+ "_" +:+ pretty i) (elements p)
    ((λ eff, ([], eff)) <$> elements e) (cost op).

(** The body of the loop of [get_safe_operators] for one operator. *)
Definition safe_operators_of (op : PropositionalAction)
    : list PropositionalAction :=
  match not_negated_effects op with
  | [] => [op]
  | _ => imap (λ i eprime, safe_operator op (S i) eprime)
              (powerset (not_negated_effects op))
  end.

Definition get_safe_operators (operators : list PropositionalAction)
    : list PropositionalAction :=
  operators ≫= safe_operators_of.

(** ** Polarity elimination *)

(** An insertion-ordered Python dict.  [d[k] = v] replaces the value of an
    existing key in place and appends a new key at the end. *)
Fixpoint dict_set {K V} `{EqDecision K} (k : K) (v : V) (d : list (K * V))
    : list (K * V) :=
  match d with
  | [] => [(k, v)]
  | (k', v') :: d' =>
      if decide (k' = k) then (k', v) :: d' else (k', v') :: dict_set k v d'
  end.

(** [d[k]]; a missing key raises [KeyError]. *)
Fixpoint dict_get {K V} `{EqDecision K} (d : list (K * V)) (k : K)
    : option V :=
  match d with
  | [] => None
  | (k', v') :: d' => if decide (k' = k) then Some v' else dict_get d' k
  end.

(** [x = deepcopy(l.negate()); x.predicate = f'not_{l.predicate}']: the
    literal of the opposite class with the prefixed predicate and the same
    arguments.  In the program the copy also keeps the hash that the literal
    it was copied from cached when it was built ([pddl.conditions.Literal],
    which is not under src/, compares the cached hashes first), so there it
    is not [==] to a literal that was built under the prefixed name; here
    the two are equal.  The statements that rest on such a comparison carry
    a hypothesis under which the program and these definitions agree. *)
Definition not_literal (l : Literal) : Literal :=
  mkLit ("not_" +:+ predicate l) (args l) (negb (negated l)).

(** [precond.negated] exists on literals only; on any other condition the
    attribute access raises. *)
Definition literal_of (c : Condition) : option Literal :=
  match c with
  | CLit l => Some l
  | CConj _ => None
  end.

(** The two loops that record a complement for every negated entry of a
    list of literals (the preconditions, then the effects). *)
Definition record_negated (additional_literals : list (Literal * Literal))
    (ls : list Literal) : list (Literal * Literal) :=
  foldl (λ al l, if negated l then dict_set l (not_literal l) al else al)
        additional_literals ls.

(** The body of the loop of [remove_negative_preconditions] for one
    operator: the rewritten operator and the updated mapping. *)
Definition remove_negative_op (additional_literals : list (Literal * Literal))
    (op : PropositionalAction)
    : option (PropositionalAction * list (Literal * Literal)) :=
  preconds ← mapM literal_of (precondition op);
  let al1 := record_negated additional_literals preconds in
  preconds' ← mapM (λ precond,
                      if negated precond then dict_get al1 precond
                      else Some precond) preconds;
  let effects := effects_of op in
  let new_effects := not_literal <$> effects in
  let al2 := record_negated al1 effects in
  Some (PropositionalAction_init (name op) (CLit <$> preconds')
          ((λ eff, ([], eff)) <$> (effects ++ new_effects)) (cost op),
        al2).

(** The loop over the operators, threading the mapping. *)
Fixpoint remove_negative_loop (additional_literals : list (Literal * Literal))
    (safe_operators : list PropositionalAction)
    : option (list PropositionalAction * list (Literal * Literal)) :=
  match safe_operators with
  | [] => Some ([], additional_literals)
  | op :: rest =>
      '(op', al) ← remove_negative_op additional_literals op;
      '(rest', al') ← remove_negative_loop al rest;
      Some (op' :: rest', al')
  end.

(** [remove_negative_preconditions]: the function rewrites the list it is
    given and returns the mapping; here it returns both. *)
Definition remove_negative_preconditions
    (safe_operators : list PropositionalAction)
    : option (list PropositionalAction * list (Literal * Literal)) :=
  remove_negative_loop [] safe_operators.

(** The loop of [equivalent_atom] over [additional_literals.items()]; the
    lookup [additional_literals[key]] is in the whole mapping. *)
Fixpoint equivalent_atom_loop
    (additional_literals items : list (Literal * Literal)) (atom : Literal)
    : option Literal :=
  match items with
  | [] => None
  | (key, value) :: rest =>
      if decide (negate key = atom) then dict_get additional_literals key
      else if decide (value = atom) then Some (negate key)
      else equivalent_atom_loop additional_literals rest atom
  end.

(** [equivalent_atom]: the complement of an original atom, or the original
    atom of a complement; [None] is the [None] that the function returns
    when no entry mentions the atom. *)
Definition equivalent_atom (atom : Literal)
    (additional_literals : list (Literal * Literal)) : option Literal :=
  equivalent_atom_loop additional_literals additional_literals atom.

(** ** The net ([petri/petri.py]) *)

Record PetriPlace := mkPlace {
  place_name : string;
  tokens : nat
}.

#[global] Instance PetriPlace_eq_dec : EqDecision PetriPlace.
Proof. solve_decision. Defined.

(** [PetriPlace(name)] starts with no token. *)
Definition PetriPlace_init (nm : string) : PetriPlace := mkPlace nm 0.

Definition add_tokens (place : PetriPlace) (n_tokens : nat) : PetriPlace :=
  mkPlace (place_name place) (tokens place + n_tokens).

Definition add_token (place : PetriPlace) : PetriPlace := add_tokens place 1.

Record PetriTransition := mkTransition {
  transition_name : string;
  origins : list PetriPlace;
  destinations : list PetriPlace;
  transition_cost : Z
}.

Record PetriNet := mkNet {
  places : list PetriPlace;
  transitions : list PetriTransition
}.

(** [PetriPlace.__hash__] and [PetriPlace.__eq__] go by the name and the
    tokens, so a Python set of places is a set of these records. *)
#[global] Instance PetriPlace_countable : Countable PetriPlace.
Proof.
  apply (inj_countable' (λ place, (place_name place, tokens place))
                        (λ nt, mkPlace nt.1 nt.2)).
  by intros [].
Defined.

(** [set(a).symmetric_difference(set(b))] *)
Definition symmetric_difference `{Countable A} (a b : list A) : gset A :=
  (list_to_set a ∖ list_to_set b) ∪ (list_to_set b ∖ list_to_set a).

(** [PetriTransition.__eq__] *)
Definition PetriTransition_eq (self other : PetriTransition) : bool :=
  bool_decide (size (symmetric_difference (origins self) (origins other)) = 0)
  && bool_decide (size (symmetric_difference (destinations self)
                          (destinations other)) = 0)
  && bool_decide (transition_cost self = transition_cost other).

(** ** Net construction *)

(** Modelled from the spec: the entries of [task.init] are built by the
    parser, which is not under src/.  An entry is an atom or something else
    (a numeric assignment); [isinstance(ini, Atom)] holds of the literals of
    class [Atom] only. *)
Inductive InitEntry :=
  | InitLit (l : Literal)
  | InitAssign (fluent : string) (value : Z).

Definition is_Atom_instance (ini : InitEntry) : option Literal :=
  match ini with
  | InitLit l => if negated l then None else Some l
  | InitAssign _ _ => None
  end.

(** The first loop of [petri_mapping]: [clean_init]. *)
Definition clean_init (init : list InitEntry) : gset Literal :=
  list_to_set (omap is_Atom_instance init).

(** The place of an original atom. *)
Definition atom_place (ci : gset Literal) (atom : Literal) : PetriPlace :=
  if decide (atom ∈ ci) then add_token (PetriPlace_init (str atom))
  else PetriPlace_init (str atom).

(** The place of a complement atom. *)
Definition added_place (ci : gset Literal) (oa : Literal * Literal)
    : PetriPlace :=
  if decide (positive oa.1 ∉ ci) then add_token (PetriPlace_init (str oa.2))
  else PetriPlace_init (str oa.2).

(** The list [petri.places] after the two place loops. *)
Definition mapping_places (ci : gset Literal) (atoms : list Literal)
    (additional_literals : list (Literal * Literal)) : list PetriPlace :=
  (atom_place ci <$> atoms) ++ (added_place ci <$> additional_literals).

(** The dict [places] after the two place loops; a later assignment to an
    equal key replaces the earlier one. *)
Definition mapping_dict (ci : gset Literal) (atoms : list Literal)
    (additional_literals : list (Literal * Literal))
    : gmap Literal PetriPlace :=
  foldl (λ d oa, <[ oa.2 := added_place ci oa ]> d)
    (foldl (λ d atom, <[ atom := atom_place ci atom ]> d) ∅ atoms)
    additional_literals.

(** The loop that adds the preconditions which are neither produced nor
    deleted; [str_dests] is recomputed at every step. *)
Definition preserve (dests : list Literal) (del_strs : list string)
    (preconds : list Literal) : list Literal :=
  foldl (λ destinations precond,
           if decide ((str precond ∉ str <$> destinations)
                      ∧ (str precond ∉ del_strs))
           then destinations ++ [precond] else destinations)
        dests preconds.

(** The literals behind the destinations of the transition of an operator
    whose preconditions are the literals [preconds]. *)
Definition destination_literals (op : PropositionalAction)
    (preconds : list Literal) : list Literal :=
  preserve (snd <$> add_effects op)
           ((λ dele : CondEffect, str dele.2) <$> del_effects op) preconds.

(** The body of the operator loop of [petri_mapping].  Only literals are
    keys of [places], so a precondition that is not a literal ends in the
    [KeyError] of [places[orig]]; nothing observable happens before it. *)
Definition mapping_transition (pl : gmap Literal PetriPlace)
    (op : PropositionalAction) : option PetriTransition :=
  preconds ← mapM literal_of (precondition op);
  origs ← mapM (λ orig, pl !! orig) preconds;
  dests ← mapM (λ dest, pl !! dest) (destination_literals op preconds);
  Some (mkTransition (name op) origs dests (cost op)).

Definition petri_mapping (atoms : list Literal)
    (additional_literals : list (Literal * Literal))
    (safe_operators : list PropositionalAction) (init : list InitEntry)
    : option PetriNet :=
  let ci := clean_init init in
  trans ← mapM (mapping_transition (mapping_dict ci atoms additional_literals))
               safe_operators;
  Some (mkNet (mapping_places ci atoms additional_literals) trans).

(** [pddl2petri] after grounding: [instantiate.explore] is not under src/, its
    results [atoms] and [actions] and the task's [init] are the arguments. *)
Definition pddl2petri (atoms : list Literal)
    (actions : list PropositionalAction) (init : list InitEntry)
    : option PetriNet :=
  match remove_negative_preconditions (get_safe_operators actions) with
  | Some (safe_operators, additional_literals) =>
      petri_mapping atoms additional_literals safe_operators init
  | None => None
  end.

(** ** The finite-domain encoding ([PetriNet.sas_translate]) *)

(** One entry of an operator's pre/post list: the variable, the value
    before, the value after, and the effect condition. *)
Definition PrePost : Type := nat * nat * nat * list (nat * nat).

(** Modelled from the spec: the classes of [sas_tasks] are not under src/.
    Section 3: an operator is a prevail list, a list of (variable, pre-value,
    post-value, condition) tuples and a cost; the task holds the variable
    ranges, axiom layers and value names, the mutexes, the initial values,
    the goal pairs, the operators, the axioms and the metric flag. *)
Record SASOperator := mkSASOperator {
  sas_name : string;
  prevail : list (nat * nat);
  pre_post : list PrePost;
  sas_cost : Z
}.

Record SASTask := mkSASTask {
  ranges : list nat;
  axiom_layers : list Z;
  value_names : list (list string);
  mutexes : list (list (nat * nat));
  init_values : list nat;
  goal_pairs : list (nat * nat);
  operators : list SASOperator;
  axioms : list unit;
  metric : bool
}.

(** [goal.parts if goal.parts else [goal]].  A goal without parts that is
    not a literal stands for itself; its string form is the default one of
    an object and names no place, so it contributes no literal. *)
Definition pddl_goals (goal : Condition) : list Literal :=
  match goal with
  | CLit l => [l]
  | CConj ps => ps
  end.

(** [place2var] after the loop over the places: a later place of the same
    name replaces the index of an earlier one. *)
Definition place2var_of (ps : list PetriPlace) : gmap string nat :=
  foldl (λ d ip, <[ place_name ip.2 := ip.1 ]> d) ∅ (imap pair ps).

(** The goal pairs appended while the place at index [var] is visited. *)
Definition place_goals (goals : list Literal) (var : nat) (place : PetriPlace)
    : list (nat * nat) :=
  goals ≫= λ goal,
    (if decide (str goal = place_name place) then [(var, 1)] else [])
    ++ (if decide (str (negate goal) = place_name place) then [(var, 0)]
        else []).

Definition has_name (nm : string) (ps : list PetriPlace) : bool :=
  existsb (λ pl, bool_decide (place_name pl = nm)) ps.

(** The loop over [tran.origins]. *)
Fixpoint origins_loop (place2var : gmap string nat) (dests : list PetriPlace)
    (origs : list PetriPlace) (pp : list PrePost) (entered_vars : gset nat)
    : option (list PrePost * gset nat) :=
  match origs with
  | [] => Some (pp, entered_vars)
  | orig :: rest =>
      var ← place2var !! place_name orig;
      let post_val := if has_name (place_name orig) dests then 1 else 0 in
      origins_loop place2var dests rest (pp ++ [(var, 1, post_val, [])])
                   (entered_vars ∪ {[ var ]})
  end.

(** The loop over [tran.destinations]. *)
Fixpoint destinations_loop (place2var : gmap string nat)
    (origs : list PetriPlace) (entered_vars : gset nat)
    (dests : list PetriPlace) (pp : list PrePost) : option (list PrePost) :=
  match dests with
  | [] => Some pp
  | dest :: rest =>
      var ← place2var !! place_name dest;
      if decide (var ∉ entered_vars) then
        let pre_val := if has_name (place_name dest) origs then 1 else 0 in
        destinations_loop place2var origs entered_vars rest
                          (pp ++ [(var, pre_val, 1, [])])
      else destinations_loop place2var origs entered_vars rest pp
  end.

(** The body of the loop over the transitions. *)
Definition sas_operator (place2var : gmap string nat) (tran : PetriTransition)
    : option SASOperator :=
  '(pp, entered_vars) ←
     origins_loop place2var (destinations tran) (origins tran) [] ∅;
  pp' ← destinations_loop place2var (origins tran) entered_vars
          (destinations tran) pp;
  Some (mkSASOperator ("(" +:+ transition_name tran +:+ ")") [] pp'
          (transition_cost tran)).

(** [sas_translate] up to the hand-over to the serializer: the task that is
    passed to [output]. *)
Definition sas_translate (net : PetriNet) (goal : Condition) : option SASTask :=
  let ps := places net in
  let place2var := place2var_of ps in
  ops ← mapM (sas_operator place2var) (transitions net);
  Some (mkSASTask
          ((λ _, 2) <$> ps)
          ((λ _, (-1)%Z) <$> ps)
          ((λ place, [place_name place +:+ "(false)";
                      place_name place +:+ "(true)"]) <$> ps)
          []
          ((λ place, if decide (0 < tokens place) then 1 else 0) <$> ps)
          (concat (imap (place_goals (pddl_goals goal)) ps))
          ops
          []
          true).

(** ** The token game *)

(** Modelled from the spec: the repository has no function that fires a
    transition.  Glossary: a marking is the current token assignment over
    all places, a transition is a state-change rule consuming and producing
    tokens.  Places are identified by name, as [sas_translate] does; an
    origin consumes one token per occurrence and a destination produces one
    per occurrence. *)
Definition Marking : Type := string → nat.

Definition initial_marking (net : PetriNet) : Marking :=
  λ nm, default 0
          (foldl (λ d place, <[ place_name place := tokens place ]> d)
                 (∅ : gmap string nat) (places net) !! nm).

Definition count_name (nm : string) (ps : list PetriPlace) : nat :=
  length (filter (λ place, place_name place = nm) ps).

Definition enabled (tran : PetriTransition) (m : Marking) : bool :=
  forallb (λ orig,
             bool_decide (count_name (place_name orig) (origins tran)
                          ≤ m (place_name orig)))
          (origins tran).

Definition fire (tran : PetriTransition) (m : Marking) : Marking :=
  λ nm, m nm - count_name nm (origins tran)
        + count_name nm (destinations tran).

Definition holds_token (m : Marking) (nm : string) : bool :=
  bool_decide (0 < m nm).

(** Exactly one of the two names holds a token. *)
Definition exactly_one (m : Marking) (n1 n2 : string) : bool :=
  xorb (holds_token m n1) (holds_token m n2).

(** ** The example of the test file *)

Definition atom (p : string) : Literal := mkLit p [] false.

(** Action [x = ({a, not b}, {not a, d})] as [test_hickmott_example]
    builds it. *)
Definition hickmott_x : PropositionalAction :=
  PropositionalAction_init "x"
    [CConj [atom "a"]; CConj [negate (atom "b")]]
    [([], negate (atom "a")); ([], atom "d")] 0.

Definition hickmott_atoms : list Literal := [atom "a"; atom "b"; atom "d"].

Definition hickmott_init : list InitEntry := [InitLit (atom "a")].

(** An operator whose effect [a] is also its precondition, next to an
    ambiguous effect [d]. *)
Definition verbatim_op : PropositionalAction :=
  PropositionalAction_init "v" [CLit (atom "a")]
    [([], atom "a"); ([], atom "d")] 0.

(** An action in the form of the test file whose only effect is settled by
    its precondition. *)
Definition wrapped_settled_op : PropositionalAction :=
  PropositionalAction_init "y" [CConj [atom "a"]]
    [([], negate (atom "a"))] 0.

(** The initial state of the example with a numeric assignment added. *)
Definition hickmott_init_cost : list InitEntry :=
  InitAssign "total-cost" 0 :: hickmott_init.

(** The net of the example, written out as [pddl2petri] returns it. *)
Definition hickmott_net : PetriNet :=
  let a := mkPlace "Atom a()" 1 in
  let b := mkPlace "Atom b()" 0 in
  let d := mkPlace "Atom d()" 0 in
  let not_b := mkPlace "Atom not_b()" 1 in
  let not_a := mkPlace "Atom not_a()" 0 in
  let not_d := mkPlace "Atom not_d()" 1 in
  mkNet [a; b; d; not_b; not_a; not_d]
        [mkTransition "x_1" [a; not_b; d] [not_a; not_b; d] 0;
         mkTransition "x_2" [a; not_b; not_d] [d; not_a; not_b] 0].

(** A net without places and without transitions. *)
Definition empty_net : PetriNet := mkNet [] [].

(** Two atoms of which one is named like the complement of the other, an
    action that adds [b] while it requires both, and an action that requires
    [not_b] to be false. *)
Definition clash_atoms : list Literal := [atom "b"; atom "not_b"].

Definition clash_actions : list PropositionalAction :=
  [PropositionalAction_init "x" [CLit (atom "b"); CLit (atom "not_b")]
     [([], atom "b")] 0;
   PropositionalAction_init "y" [CLit (negate (atom "not_b"))] [] 0].

Definition clash_init : list InitEntry :=
  [InitLit (atom "b"); InitLit (atom "not_b")].

(** ** Vocabulary of the statements *)

(** No literal is an effect together with its negation. *)
Definition consistent (effects : list Literal) : Prop :=
  Forall (λ x, negate x ∉ effects) effects.

(** Every entry of the mapping sends a negated literal to its complement. *)
Definition complement_dict (al : list (Literal * Literal)) : Prop :=
  ∀ k v, (k, v) ∈ al → negated k = true ∧ v = not_literal k.

(** The operator that one step returns for an operator whose preconditions
    are the literals [preconds]. *)
Definition rewritten (op : PropositionalAction) (preconds : list Literal)
    : PropositionalAction :=
  PropositionalAction_init (name op)
    (CLit <$> ((λ precond, if negated precond then not_literal precond
                           else precond) <$> preconds))
    ((λ eff, ([], eff)) <$> (effects_of op ++ (not_literal <$> effects_of op)))
    (cost op).

(** The entry that the origin loop appends for [orig]. *)
Definition origin_entry (dests : list PetriPlace) (orig : PetriPlace)
    (var : nat) : PrePost :=
  (var, 1, if has_name (place_name orig) dests then 1 else 0, []).

(** The entries that the destination loop appends. *)
Definition destination_entries (origs : list PetriPlace)
    (entered : gset nat) (dests : list PetriPlace) (vars : list nat)
    : list PrePost :=
  zip dests vars ≫= λ dv,
    if decide (dv.2 ∉ entered)
    then [(dv.2, if has_name (place_name dv.1) origs then 1 else 0, 1, [])]
    else [].

(** The complement atom of an atom: the positive literal of the prefixed
    predicate, as [remove_negative_preconditions] names it. *)
Definition complement_atom (a : Literal) : Literal :=
  mkLit ("not_" +:+ predicate a) (args a) false.

(** A precondition part that is a literal over one of the atoms. *)
Definition literal_over (atoms : list Literal) (c : Condition) : Prop :=
  match c with
  | CLit l => positive l ∈ atoms
  | CConj _ => False
  end.

#[global] Instance literal_over_dec atoms c : Decision (literal_over atoms c).
Proof. destruct c; simpl; apply _. Defined.

(** Every literal of the operator is over one of the atoms. *)
Definition grounded_over (atoms : list Literal) (op : PropositionalAction)
    : Prop :=
  Forall (literal_over atoms) (preconditions_atoms (precondition op))
  ∧ Forall (λ l, positive l ∈ atoms) (effects_of op).

#[global] Instance grounded_over_dec atoms op : Decision (grounded_over atoms op).
Proof. unfold grounded_over. apply _. Defined.

(** An effect that directly negates a part of the precondition. *)
Definition settled_against (op : PropositionalAction) (x : Literal) : Prop :=
  x ∈ effects_of op ∧ CLit (negate x) ∈ preconditions_atoms (precondition op).

(** An effect that is, with the same polarity, a part of the precondition. *)
Definition verbatim (op : PropositionalAction) (x : Literal) : Prop :=
  x ∈ effects_of op ∧ CLit x ∈ preconditions_atoms (precondition op).

(** No negative effect comes with the negative effect on the atom that the
    rewriting names after it: [not p] and [not not_p] are not both effects. *)
Definition complement_free (effects : list Literal) : Prop :=
  Forall (λ x, negated x = true → negate (not_literal x) ∉ effects) effects.

#[global] Instance complement_free_dec effects : Decision (complement_free effects).
Proof. unfold complement_free. apply _. Defined.

(** The facts about one safe operator that the argument uses: its
    preconditions are the literals [preconds], all its literals are over
    the atoms, its effects are consistent, and every effect or its negation
    is required. *)
Definition safe_over (atoms : list Literal) (op : PropositionalAction)
    (preconds : list Literal) : Prop :=
  precondition op = CLit <$> preconds
  ∧ (∀ l, l ∈ preconds → positive l ∈ atoms)
  ∧ (∀ x, x ∈ effects_of op → positive x ∈ atoms)
  ∧ consistent (effects_of op)
  ∧ (∀ x, x ∈ effects_of op → x ∈ preconds ∨ negate x ∈ preconds).

(** * Properties *)

(** ** The power set *)

Section powerset.
Context {A : Type}.
Implicit Types (s : list A) (r : nat).

Lemma combinations_length_elem s r l :
  l ∈ combinations s r → length l = r.
Proof.
  revert r l. induction s as [|x s IH]; intros [|r] l; simpl.
  - by intros ->%list_elem_of_singleton.
  - by intros ?%elem_of_nil.
  - by intros ->%list_elem_of_singleton.
  - rewrite elem_of_app, list_elem_of_fmap.
    intros [(l' & -> & Hl')|Hl]; simpl; eauto.
Qed.

Lemma combinations_sublist s r l :
  l ∈ combinations s r ↔ l `sublist_of` s ∧ length l = r.
Proof.
  revert r l. induction s as [|x s IH]; intros r l.
  - destruct r; simpl.
    + rewrite list_elem_of_singleton. split.
      * by intros ->.
      * by intros [->%sublist_nil_r _].
    + rewrite elem_of_nil. split; [done|].
      by intros [->%sublist_nil_r ?].
  - destruct r; simpl.
    + rewrite list_elem_of_singleton. split.
      * intros ->. split; [apply sublist_nil_l|done].
      * by intros [_ ->%nil_length_inv].
    + rewrite elem_of_app, list_elem_of_fmap. split.
      * intros [(l' & -> & [Hs Hl]%IH)|[Hs Hl]%IH]; simpl.
        -- split; [by apply sublist_skip|by f_equal].
        -- split; [by apply sublist_cons|done].
      * intros [Hs Hl]. apply sublist_cons_r in Hs as [Hs|(l' & -> & Hs)].
        -- right. by apply IH.
        -- left. exists l'. split; [done|]. apply IH. simpl in Hl.
           split; [done|lia].
Qed.

Lemma elem_of_powerset s l : l ∈ powerset s ↔ l `sublist_of` s.
Proof.
  unfold powerset. rewrite list_elem_of_bind. split.
  - by intros (r & [? _]%combinations_sublist & _).
  - intros Hs. exists (length l). split; [by apply combinations_sublist|].
    apply elem_of_seq. apply sublist_length in Hs. lia.
Qed.

Lemma combinations_0 s : combinations s 0 = [[]].
Proof. by destruct s. Qed.

Lemma combinations_nil_seq k n :
  length (seq (S k) n ≫= combinations (@nil A)) = 0.
Proof.
  revert k. induction n as [|n IH]; intros k; [done|].
  cbn [seq]. rewrite bind_cons, length_app, IH. done.
Qed.

Lemma combinations_cons_seq x s k n :
  length (seq (S k) n ≫= combinations (x :: s))
  = length (seq k n ≫= combinations s)
    + length (seq (S k) n ≫= combinations s).
Proof.
  revert k. induction n as [|n IH]; intros k; [done|].
  cbn [seq]. rewrite !bind_cons, !length_app, IH.
  cbn [combinations]. rewrite length_app, length_fmap. lia.
Qed.

(** The number of subsequences of every length up to [m], for [m] at
    least the length of the list. *)
Lemma combinations_upto_length s m :
  length s ≤ m →
  length (seq 0 (S m) ≫= combinations s) = 2 ^ length s.
Proof.
  assert (∀ (t : list A) n,
            length (seq 0 (S n) ≫= combinations t)
            = 1 + length (seq 1 n ≫= combinations t)) as Hhead.
  { intros t n. change (seq 0 (S n)) with (0 :: seq 1 n).
    by rewrite bind_cons, length_app, combinations_0. }
  revert m. induction s as [|x s IH]; intros m Hm.
  - by rewrite Hhead, combinations_nil_seq.
  - simpl in Hm. destruct m as [|m]; [lia|].
    pose proof (IH m ltac:(lia)) as H1.
    pose proof (IH (S m) ltac:(lia)) as H2.
    rewrite Hhead in H2. rewrite Hhead, combinations_cons_seq, H1.
    cbn [length]. rewrite Nat.pow_succ_r'. lia.
Qed.

Lemma powerset_length s : length (powerset s) = 2 ^ length s.
Proof.
  unfold powerset. rewrite Nat.add_1_r. by apply combinations_upto_length.
Qed.
Lemma combinations_NoDup s r : NoDup s → NoDup (combinations s r).
Proof.
  intros Hs. revert r. induction Hs as [|x s Hx Hs IH]; intros [|r]; simpl.
  - apply NoDup_singleton.
  - constructor.
  - apply NoDup_singleton.
  - apply NoDup_app. split_and!.
    + apply NoDup_fmap_2; [|done]. by intros ?? [=].
    + intros l (l' & -> & _)%list_elem_of_fmap [Hsub _]%combinations_sublist.
      apply Hx. apply (sublist_subseteq _ _ Hsub). by left.
    + done.
Qed.

Lemma powerset_NoDup s : NoDup s → NoDup (powerset s).
Proof.
  intros Hs. unfold powerset. apply NoDup_bind.
  - intros r1 r2 l _ _ H1%combinations_length_elem
           H2%combinations_length_elem. congruence.
  - intros r _. by apply combinations_NoDup.
  - apply NoDup_seq.
Qed.

(** Two subsequences of a duplicate-free list with the same elements are
    the same list. *)
Lemma sublist_same_elements s l1 l2 :
  NoDup s → l1 `sublist_of` s → l2 `sublist_of` s →
  (∀ x, x ∈ l1 ↔ x ∈ l2) → l1 = l2.
Proof.
  intros Hs. revert l1 l2.
  induction Hs as [|x s Hx Hs IH]; intros l1 l2 H1 H2 Heq.
  - apply sublist_nil_r in H1, H2. by subst.
  - apply sublist_cons_r in H1 as [H1|(l1' & -> & H1)];
      apply sublist_cons_r in H2 as [H2|(l2' & -> & H2)].
    + by apply IH.
    + exfalso. apply Hx. apply (sublist_subseteq _ _ H1).
      apply Heq. by left.
    + exfalso. apply Hx. apply (sublist_subseteq _ _ H2).
      apply Heq. by left.
    + f_equal. apply IH; [done..|]. intros y.
      specialize (Heq y). rewrite !elem_of_cons in Heq.
      split; intros Hy.
      * destruct Heq as [[->|?] _]; [by right| |done].
        exfalso. apply Hx. by apply (sublist_subseteq _ _ H1).
      * destruct Heq as [_ [->|?]]; [by right| |done].
        exfalso. apply Hx. by apply (sublist_subseteq _ _ H2).
Qed.
End powerset.

(** ** Safe-operator expansion *)

Lemma negate_involutive l : negate (negate l) = l.
Proof. destruct l as [p a n]. unfold negate. simpl. by rewrite negb_involutive. Qed.

(** An effect passes [not_negated_effect] iff neither it nor its negation
    is one of the precondition's parts. *)
Lemma not_negated_effect_true eff pre :
  not_negated_effect eff pre = true
  ↔ (CLit eff ∉ preconditions_atoms pre)
    ∧ (CLit (negate eff) ∉ preconditions_atoms pre).
Proof.
  unfold not_negated_effect, preconditions_atoms.
  rewrite forallb_forall. setoid_rewrite forallb_forall.
  setoid_rewrite negb_true_iff. setoid_rewrite orb_false_iff.
  setoid_rewrite bool_decide_eq_false. setoid_rewrite <-list_elem_of_In.
  setoid_rewrite list_elem_of_bind. split.
  - intros H. split; intros (cond & Hpart & Hcond);
      destruct (H cond Hcond _ Hpart); done.
  - intros [H1 H2] cond Hcond part Hpart. split; intros ->.
    + apply H2. eauto.
    + apply H1. eauto.
Qed.

Lemma elem_of_not_negated_effects op x :
  x ∈ not_negated_effects op
  ↔ x ∈ effects_of op
    ∧ (CLit x ∉ preconditions_atoms (precondition op))
    ∧ (CLit (negate x) ∉ preconditions_atoms (precondition op)).
Proof.
  unfold not_negated_effects. rewrite list_elem_of_filter.
  rewrite Is_true_true, not_negated_effect_true. tauto.
Qed.

Lemma elem_of_negated_effects op x :
  x ∈ negated_effects op
  ↔ x ∈ effects_of op
    ∧ (CLit x ∈ preconditions_atoms (precondition op)
       ∨ CLit (negate x) ∈ preconditions_atoms (precondition op)).
Proof.
  unfold negated_effects.
  rewrite elem_of_difference, !elem_of_list_to_set, elem_of_not_negated_effects.
  split.
  - intros [He Hn]. split; [done|].
    destruct (decide (CLit x ∈ preconditions_atoms (precondition op)));
      [by left|].
    destruct (decide (CLit (negate x) ∈ preconditions_atoms (precondition op)));
      [by right|].
    destruct Hn. done.
  - intros [He Hor]. split; [done|]. intros (_ & H1 & H2). tauto.
Qed.

Lemma elem_of_safe_precondition orig_pre e nne c :
  c ∈ safe_precondition orig_pre e nne
  ↔ c ∈ orig_pre
    ∨ ∃ x, x ∈ nne
           ∧ ((x ∈ e ∧ c = CLit (negate x)) ∨ ((x ∉ e) ∧ c = CLit x)).
Proof.
  unfold safe_precondition. revert orig_pre.
  induction nne as [|y nne IH]; intros orig_pre; simpl.
  - split; [by left|]. intros [?|(x & []%elem_of_nil & _)]. done.
  - rewrite IH. setoid_rewrite elem_of_cons.
    destruct (decide (y ∈ e)) as [Hy|Hy];
      rewrite elem_of_union, elem_of_singleton; split.
    + intros [[?| ->]|(x & ? & ?)]; [by left| |right; exists x; auto].
      right. exists y. auto.
    + intros [?|(x & [ ->|?] & Hx)]; [by left; left| |right; by exists x].
      destruct Hx as [[_ ->]|[? _]]; [left; by right|done].
    + intros [[?| ->]|(x & ? & ?)]; [by left| |right; exists x; auto].
      right. exists y. auto.
    + intros [?|(x & [ ->|?] & Hx)]; [by left; left| |right; by exists x].
      destruct Hx as [[? _]|[_ ->]]; [done|left; by right].
Qed.

(** The effect literals of an operator built by the constructor. *)
Lemma elem_of_effects_of_init nm pre effects c x :
  x ∈ effects_of (PropositionalAction_init nm pre effects c)
  ↔ ∃ cnd, (cnd, x) ∈ effects
           ∧ (negated x = true → (cnd, negate x) ∉ effects).
Proof.
  unfold effects_of, join_add_del_effects, PropositionalAction_init. simpl.
  rewrite elem_of_app, !list_elem_of_fmap. split.
  - intros [([cnd y] & -> & [Hy Hin]%list_elem_of_filter)
           |([cnd y] & -> & ([cnd' z] & [= -> ->]
                             & [[Hz Hnotin] Hin]%list_elem_of_filter)
                               %list_elem_of_fmap)]; simpl in *.
    + exists cnd. split; [done|]. congruence.
    + rewrite negate_involutive. exists cnd'. split; [done|].
      intros _ Hin'. apply Hnotin. apply list_elem_of_filter. simpl.
      by rewrite Hz.
  - intros (cnd & Hin & Hneg). destruct (negated x) eqn:Hx.
    + right. exists (cnd, negate x). simpl. rewrite negate_involutive.
      split; [done|]. apply list_elem_of_fmap. exists (cnd, x). split; [done|].
      apply list_elem_of_filter. simpl. split; [|done]. split; [done|].
      intros [_ ?]%list_elem_of_filter. by apply Hneg.
    + left. exists (cnd, x). split; [done|]. by apply list_elem_of_filter.
Qed.

Lemma consistent_spec effects :
  consistent effects ↔ ∀ x, x ∈ effects → negate x ∉ effects.
Proof. apply Forall_forall. Qed.

Lemma effects_of_init_consistent nm pre effects c :
  (∀ ce, ce ∈ effects → ce.1 = []) →
  consistent (effects_of (PropositionalAction_init nm pre effects c)).
Proof.
  intros Hnil. apply consistent_spec.
  intros x (c1 & H1 & N1)%elem_of_effects_of_init
         (c2 & H2 & N2)%elem_of_effects_of_init.
  pose proof (Hnil _ H1) as E1. pose proof (Hnil _ H2) as E2.
  simpl in *. subst. rewrite negate_involutive in N2.
  destruct (negated x); [by apply N1|by apply N2].
Qed.

Lemma elem_of_effects_of_init_nil nm pre (e : list Literal) c x :
  x ∈ effects_of (PropositionalAction_init nm pre ((λ eff, ([], eff)) <$> e) c)
  ↔ x ∈ e ∧ (negated x = true → negate x ∉ e).
Proof.
  rewrite elem_of_effects_of_init. setoid_rewrite list_elem_of_fmap. split.
  - intros (cnd & (y & [= -> ->] & Hy) & Hneg). split; [done|].
    intros Hx Hin. apply Hneg; [done|]. by exists (negate y).
  - intros [Hx Hneg]. exists []. split; [by exists x|].
    intros Hn (y & [= <-] & Hy). by apply Hneg.
Qed.

Lemma get_safe_operators_app l1 l2 :
  get_safe_operators (l1 ++ l2) = get_safe_operators l1 ++ get_safe_operators l2.
Proof. apply bind_app. Qed.

Lemma get_safe_operators_cons op l :
  get_safe_operators (op :: l) = safe_operators_of op ++ get_safe_operators l.
Proof. apply bind_cons. Qed.

(** The output for a list is the concatenation of the outputs for its
    operators, in order. *)
Lemma get_safe_operators_middle before op after :
  get_safe_operators (before ++ op :: after)
  = get_safe_operators before ++ safe_operators_of op
    ++ get_safe_operators after.
Proof. by rewrite get_safe_operators_app, get_safe_operators_cons. Qed.

Lemma safe_operators_of_expand op :
  not_negated_effects op ≠ [] →
  safe_operators_of op
  = imap (λ i eprime, safe_operator op (S i) eprime)
         (powerset (not_negated_effects op)).
Proof. unfold safe_operators_of. by destruct (not_negated_effects op). Qed.

Lemma safe_operators_of_lookup op i o :
  not_negated_effects op ≠ [] →
  safe_operators_of op !! i = Some o
  ↔ ∃ eprime, powerset (not_negated_effects op) !! i = Some eprime
              ∧ o = safe_operator op (S i) eprime.
Proof.
  intros Hne. rewrite safe_operators_of_expand by done.
  rewrite list_lookup_imap.
  destruct (powerset _ !! i) as [subset|]; simpl; split.
  - intros [= <-]. by exists subset.
  - by intros (eprime & [= <-] & ->).
  - done.
  - by intros (eprime & [=] & _).
Qed.

(** The effect set of a generated operator, for consistent effects. *)
Lemma effects_of_safe_operator op i eprime x :
  consistent (effects_of op) →
  eprime ⊆ not_negated_effects op →
  x ∈ effects_of (safe_operator op i eprime)
  ↔ x ∈ negated_effects op ∨ x ∈ eprime.
Proof.
  intros Hcons Hsub. unfold safe_operator.
  pose proof (proj1 (consistent_spec _) Hcons) as Hcons'.
  rewrite elem_of_effects_of_init_nil.
  rewrite !elem_of_elements, !elem_of_union, !elem_of_list_to_set.
  assert (∀ y, y ∈ negated_effects op ∨ y ∈ eprime → y ∈ effects_of op) as Hin.
  { intros y [[? _]%elem_of_negated_effects|Hy]; [done|].
    by apply Hsub, elem_of_not_negated_effects in Hy as [? _]. }
  split; [tauto|]. intros Hx. split; [done|]. intros _ Hn.
  by apply (Hcons' x); apply Hin.
Qed.

(** The precondition of a generated operator. *)
Lemma precondition_safe_operator op i eprime c :
  eprime ⊆ not_negated_effects op →
  c ∈ precondition (safe_operator op i eprime)
  ↔ c ∈ preconditions_atoms (precondition op)
    ∨ ∃ x, x ∈ not_negated_effects op
           ∧ ((x ∈ eprime ∧ c = CLit (negate x))
              ∨ ((x ∉ eprime) ∧ c = CLit x)).
Proof.
  intros Hsub. unfold safe_operator. simpl.
  rewrite elem_of_elements, elem_of_safe_precondition, elem_of_list_to_set.
  apply or_iff_compat_l. apply exist_proper. intros x.
  rewrite elem_of_union, elem_of_list_to_set, elem_of_negated_effects,
    elem_of_not_negated_effects.
  tauto.
Qed.

(** The numbered names of the operators generated for one operator are
    pairwise different. *)
Lemma safe_operator_name_inj op i j e1 e2 :
  name (safe_operator op i e1) = name (safe_operator op j e2) → i = j.
Proof.
  unfold safe_operator. simpl. intros H.
  by apply (inj (String.app (name op))), (inj (String.app "_")),
    (inj pretty) in H.
Qed.

(** The effects that are not ambiguous are those that negate a part of the
    precondition and those that are a part of it. *)
Lemma elem_of_negated_effects_split op x :
  x ∈ negated_effects op ↔ settled_against op x ∨ verbatim op x.
Proof.
  rewrite elem_of_negated_effects. unfold settled_against, verbatim. tauto.
Qed.

(** C1 as worded does not hold: the effect [a] of [verbatim_op] is also its
    precondition, so it negates no part of the precondition and is not
    ambiguous; the operator generated for the empty subset has it as an
    effect all the same. *)
Lemma C1_settled_effects_counterexample :
  ¬ ∀ op i o,
      consistent (effects_of op) →
      1 ≤ length (not_negated_effects op) →
      get_safe_operators [op] !! i = Some o →
      ∃ subset,
        subset ⊆ not_negated_effects op
        ∧ ∀ x, x ∈ effects_of o ↔ settled_against op x ∨ x ∈ subset.
Proof.
  intros H.
  destruct (H verbatim_op 0 (safe_operator verbatim_op 1 []))
    as (subset & Hsub & Heff).
  - compute_done.
  - vm_compute. lia.
  - by vm_compute.
  - assert (CLit (negate (atom "a"))
            ∉ preconditions_atoms (precondition verbatim_op)) as Hpre
      by compute_done.
    assert (atom "a" ∉ not_negated_effects verbatim_op) as Hamb
      by compute_done.
    destruct (proj1 (Heff (atom "a"))) as [[_ Hs]|Hin]; [compute_done|done|].
    by apply Hamb, Hsub.
Qed.

(** C1, amended.  An operator with [k >= 1] ambiguous effects (the entries
    of [not_negated_effects]: effects that are not a precondition part and
    whose negation is not one either) contributes to the output of
    [get_safe_operators] exactly [2^k] operators, in the order of the power
    set: the [i]-th (counting from 1) is named [name_i], keeps the cost, and
    has as effects the effects that negate a precondition part, the effects
    that are a precondition part, and the [i]-th subset, and no other.
    Every subset of the ambiguous effects is the subset of one of them, and
    without repeated ambiguous effects different operators have different
    subsets.  The operator is one whose effects hold no literal together
    with its negation, as every operator that the constructor builds from
    unconditional effects is ([effects_of_init_consistent]). *)
Theorem C1_power_set_expansion before op after k :
  length (not_negated_effects op) = k →
  1 ≤ k →
  consistent (effects_of op) →
  ∃ produced,
    get_safe_operators (before ++ op :: after)
    = get_safe_operators before ++ produced ++ get_safe_operators after
    ∧ (∀ x, x ∈ not_negated_effects op
            ↔ x ∈ effects_of op
              ∧ (CLit x ∉ preconditions_atoms (precondition op))
              ∧ (CLit (negate x) ∉ preconditions_atoms (precondition op)))
    ∧ length produced = 2 ^ k
    ∧ (∀ i o, produced !! i = Some o →
         ∃ subset,
           powerset (not_negated_effects op) !! i = Some subset
           ∧ subset ⊆ not_negated_effects op
           ∧ name o = name op +:+ "_" +:+ pretty (S i)
           ∧ cost o = cost op
           ∧ ∀ x, x ∈ effects_of o
                  ↔ settled_against op x ∨ verbatim op x ∨ x ∈ subset)
    ∧ (∀ subset : list Literal, subset ⊆ not_negated_effects op →
         ∃ i o, produced !! i = Some o
                ∧ ∀ x, x ∈ effects_of o
                       ↔ settled_against op x ∨ verbatim op x ∨ x ∈ subset)
    ∧ (∀ i j oi oj, produced !! i = Some oi → produced !! j = Some oj →
         i ≠ j →
         name oi ≠ name oj
         ∧ (NoDup (not_negated_effects op) →
            ¬ ∀ x, x ∈ effects_of oi ↔ x ∈ effects_of oj)).
Proof.
  intros Hk Hpos Hcons.
  assert (not_negated_effects op ≠ []) as Hne.
  { intros Hnil. rewrite Hnil in Hk. simpl in Hk. lia. }
  exists (safe_operators_of op). split_and!.
  - apply get_safe_operators_middle.
  - apply elem_of_not_negated_effects.
  - rewrite safe_operators_of_expand, length_imap, powerset_length by done.
    by rewrite Hk.
  - intros i o (subset & Hi & ->)%safe_operators_of_lookup; [|done].
    assert (subset ⊆ not_negated_effects op) as Hsub.
    { apply sublist_subseteq, elem_of_powerset. by eapply list_elem_of_lookup_2. }
    exists subset. split_and!; [done..|].
    intros x. rewrite effects_of_safe_operator, elem_of_negated_effects_split
      by done. tauto.
  - intros subset Hsub.
    set (eprime := filter (λ x, x ∈ subset) (not_negated_effects op)).
    assert (eprime ∈ powerset (not_negated_effects op)) as Hin.
    { apply elem_of_powerset, sublist_filter. }
    apply list_elem_of_lookup_1 in Hin as [i Hi].
    exists i, (safe_operator op (S i) eprime). split.
    + apply safe_operators_of_lookup; eauto.
    + intros x. rewrite effects_of_safe_operator; [|done|].
      * rewrite elem_of_negated_effects_split. unfold eprime.
        rewrite list_elem_of_filter. (intuition (subst; eauto)).
      * intros y [_ ?]%list_elem_of_filter. done.
  - intros i j oi oj (ei & Hi & ->)%safe_operators_of_lookup
           (ej & Hj & ->)%safe_operators_of_lookup Hij; [|done..].
    split.
    + intros Hn%safe_operator_name_inj. congruence.
    + intros Hnd Heq. apply Hij.
      pose proof (list_elem_of_lookup_2 _ _ _ Hi) as Si%elem_of_powerset.
      pose proof (list_elem_of_lookup_2 _ _ _ Hj) as Sj%elem_of_powerset.
      apply (NoDup_lookup (powerset (not_negated_effects op)) i j ei);
        [by apply powerset_NoDup|done|].
      rewrite Hj. f_equal.
      apply (sublist_same_elements (not_negated_effects op)); [done..|].
      assert (∀ e x, e `sublist_of` not_negated_effects op → x ∈ e →
                     x ∉ negated_effects op) as Hdisj.
      { intros e x He%sublist_subseteq Hx. unfold negated_effects.
        rewrite elem_of_difference, !elem_of_list_to_set.
        intros [_ Hn]. apply Hn. by apply He. }
      intros x. specialize (Heq x).
      rewrite !effects_of_safe_operator in Heq
        by (done || by apply sublist_subseteq).
      split; intros Hx.
      * destruct (proj2 Heq (or_intror Hx)) as [Hs|?]; [|done].
        destruct (Hdisj ej x Sj Hx Hs).
      * destruct (proj1 Heq (or_intror Hx)) as [Hs|?]; [|done].
        destruct (Hdisj ei x Si Hx Hs).
Qed.

Lemma C1_power_set_expansion_witness :
  ∃ produced,
    get_safe_operators ([] ++ verbatim_op :: [])
    = get_safe_operators [] ++ produced ++ get_safe_operators []
    ∧ length produced = 2 ^ 1
    ∧ ∀ i o, produced !! i = Some o → atom "a" ∈ effects_of o.
Proof.
  destruct (C1_power_set_expansion [] verbatim_op [] 1)
    as (produced & Hout & _ & Hlen & Heff & _).
  - vm_compute. reflexivity.
  - lia.
  - compute_done.
  - exists produced. split; [assumption|]. split; [assumption|].
    intros i o Hi. destruct (Heff i o Hi) as (subset & _ & _ & _ & _ & Hx).
    apply Hx. right. left. split; compute_done.
Defined.

(** C2 as worded does not hold: in the example of the test file the
    operator generated for the subset [{d}] requires [not d], not [d]. *)
Lemma C2_included_atom_counterexample :
  ¬ ∀ op i subset o,
      not_negated_effects op ≠ [] →
      powerset (not_negated_effects op) !! i = Some subset →
      get_safe_operators [op] !! i = Some o →
      ∀ c, c ∈ precondition o
           ↔ c ∈ preconditions_atoms (precondition op)
             ∨ ∃ x, x ∈ not_negated_effects op
                    ∧ ((x ∈ subset ∧ c = CLit x)
                       ∨ ((x ∉ subset) ∧ c = CLit (negate x))).
Proof.
  intros H.
  specialize (H hickmott_x 1 [atom "d"]
                (safe_operator hickmott_x 2 [atom "d"])).
  specialize (H ltac:(by vm_compute) ltac:(by vm_compute)
                ltac:(by vm_compute) (CLit (atom "d"))).
  destruct H as [_ H].
  assert (CLit (atom "d")
          ∉ precondition (safe_operator hickmott_x 2 [atom "d"])) as Hnotin
    by compute_done.
  apply Hnotin, H. right. exists (atom "d"). split; [compute_done|].
  left. split; [compute_done|done].
Qed.

(** C2, amended.  For an operator that is expanded, the precondition of the
    operator generated for a subset of the ambiguous effects is the set of
    the original precondition's parts together with, for every ambiguous
    effect, its negation when the subset contains the effect and the effect
    itself when it does not. *)
Theorem C2_safe_precondition before op after :
  not_negated_effects op ≠ [] →
  ∃ produced,
    get_safe_operators (before ++ op :: after)
    = get_safe_operators before ++ produced ++ get_safe_operators after
    ∧ length produced = length (powerset (not_negated_effects op))
    ∧ ∀ i subset o,
        powerset (not_negated_effects op) !! i = Some subset →
        produced !! i = Some o →
        ∀ c, c ∈ precondition o
             ↔ c ∈ preconditions_atoms (precondition op)
               ∨ ∃ x, x ∈ not_negated_effects op
                      ∧ ((x ∈ subset ∧ c = CLit (negate x))
                         ∨ ((x ∉ subset) ∧ c = CLit x)).
Proof.
  intros Hne. exists (safe_operators_of op). split_and!.
  - apply get_safe_operators_middle.
  - by rewrite safe_operators_of_expand, length_imap.
  - intros i subset o Hi (subset' & Hi' & ->)%safe_operators_of_lookup c;
      [|done].
    assert (subset' = subset) as -> by congruence.
    apply precondition_safe_operator.
    apply sublist_subseteq, elem_of_powerset. by eapply list_elem_of_lookup_2.
Qed.

Lemma C2_safe_precondition_witness :
  ∃ produced,
    get_safe_operators ([] ++ hickmott_x :: [])
    = get_safe_operators [] ++ produced ++ get_safe_operators []
    ∧ length produced = length (powerset (not_negated_effects hickmott_x)).
Proof.
  destruct (C2_safe_precondition [] hickmott_x [])
    as (produced & Hout & Hlen & _).
  - vm_compute. discriminate.
  - exists produced. split; assumption.
Defined.

(** C3 as worded does not hold: the effect [a] of [verbatim_op] is also its
    precondition, yet it is one of the settled effects and an effect of the
    operators generated for [verbatim_op]. *)
Lemma C3_verbatim_effect_counterexample :
  ¬ ∀ op x,
      x ∈ effects_of op →
      CLit x ∈ preconditions_atoms (precondition op) →
      (x ∉ negated_effects op)
      ∧ (x ∉ not_negated_effects op)
      ∧ ∀ o, o ∈ get_safe_operators [op] → x ∉ effects_of o.
Proof.
  intros H.
  destruct (H verbatim_op (atom "a")) as (Hsettled & _ & _).
  - compute_done.
  - compute_done.
  - apply Hsettled. apply elem_of_negated_effects. split; [compute_done|].
    left. compute_done.
Qed.

(** C3, amended.  An effect literal that is also, with the same polarity,
    a part of the operator's precondition is never ambiguous, so it causes
    no case split; it is not dropped: it belongs to the settled effects and
    is an effect of every operator produced for that input operator. *)
Theorem C3_verbatim_effect_kept before op after x :
  consistent (effects_of op) →
  x ∈ effects_of op →
  CLit x ∈ preconditions_atoms (precondition op) →
  (x ∉ not_negated_effects op)
  ∧ x ∈ negated_effects op
  ∧ ∃ produced,
      get_safe_operators (before ++ op :: after)
      = get_safe_operators before ++ produced ++ get_safe_operators after
      ∧ produced ≠ []
      ∧ ∀ o, o ∈ produced → x ∈ effects_of o.
Proof.
  intros Hcons Hx Hpre.
  assert (x ∈ negated_effects op) as Hsettled.
  { apply elem_of_negated_effects. auto. }
  split_and!; [|done|].
  - intros (_ & Hn & _)%elem_of_not_negated_effects. done.
  - exists (safe_operators_of op). split; [apply get_safe_operators_middle|].
    destruct (decide (not_negated_effects op = [])) as [Hnil|Hne].
    + unfold safe_operators_of. rewrite Hnil. split; [done|].
      by intros o ->%list_elem_of_singleton.
    + split.
      * intros Hnil. apply (f_equal length) in Hnil.
        rewrite safe_operators_of_expand, length_imap, powerset_length in Hnil
          by done.
        simpl in Hnil. pose proof (Nat.pow_nonzero 2 (length (not_negated_effects op))).
        lia.
      * intros o [i (subset & Hi & ->)%safe_operators_of_lookup]
                 %list_elem_of_lookup_1; [|done].
        apply effects_of_safe_operator; [done| |by left].
        apply sublist_subseteq, elem_of_powerset.
        by eapply list_elem_of_lookup_2.
Qed.

Lemma C3_verbatim_effect_kept_witness :
  (atom "a" ∉ not_negated_effects verbatim_op)
  ∧ atom "a" ∈ negated_effects verbatim_op.
Proof.
  destruct (C3_verbatim_effect_kept [] verbatim_op [] (atom "a"))
    as (Hamb & Hsettled & _).
  - compute_done.
  - compute_done.
  - compute_done.
  - split; assumption.
Defined.

(** ** Polarity elimination *)

Section dict.
Context {K V : Type} `{EqDecision K}.
Implicit Types (d : list (K * V)) (k : K) (v : V).

Lemma dict_get_Some_elem d k v : dict_get d k = Some v → (k, v) ∈ d.
Proof.
  induction d as [|[k' v'] d IH]; simpl; [done|].
  destruct (decide (k' = k)) as [->|].
  - intros [= ->]. by left.
  - intros ?. right. auto.
Qed.

Lemma elem_of_dict_get d k :
  k ∈ d.*1 → is_Some (dict_get d k).
Proof.
  induction d as [|[k' v'] d IH]; simpl.
  - by intros ?%elem_of_nil.
  - destruct (decide (k' = k)); [by eauto|].
    intros [?|?]%elem_of_cons; [congruence|auto].
Qed.

Lemma dict_get_set_eq d k v : dict_get (dict_set k v d) k = Some v.
Proof.
  induction d as [|[k' v'] d IH]; simpl.
  - by rewrite decide_True.
  - destruct (decide (k' = k)) as [->|]; simpl.
    + by rewrite decide_True.
    + by rewrite decide_False.
Qed.

Lemma dict_get_set_ne d k k' v :
  k ≠ k' → dict_get (dict_set k v d) k' = dict_get d k'.
Proof.
  intros Hne. induction d as [|[k0 v0] d IH]; simpl.
  - by rewrite decide_False.
  - destruct (decide (k0 = k)) as [->|]; simpl.
    + by rewrite !decide_False.
    + destruct (decide (k0 = k')); done.
Qed.

Lemma elem_of_dict_set d k v kv :
  kv ∈ dict_set k v d → kv = (k, v) ∨ kv ∈ d.
Proof.
  induction d as [|[k0 v0] d IH]; simpl.
  - intros ->%list_elem_of_singleton. by left.
  - destruct (decide (k0 = k)) as [->|].
    + intros [->|?]%elem_of_cons; [by left|]. right. by right.
    + intros [->|[->|?]%IH]%elem_of_cons; [right; by left|by left|].
      right. by right.
Qed.

(** Assigning to a key keeps the keys in place: a new key goes last. *)
Lemma dict_set_keys d k v :
  (dict_set k v d).*1 = if decide (k ∈ d.*1) then d.*1 else d.*1 ++ [k].
Proof.
  induction d as [|[k0 v0] d IH]; [done|].
  cbn [dict_set]. destruct (decide (k0 = k)) as [->|Hne];
    rewrite !fmap_cons; cbn [fst].
  - by rewrite decide_True by left.
  - rewrite IH. destruct (decide (k ∈ d.*1)).
    + by rewrite decide_True by by right.
    + rewrite decide_False; [done|].
      intros [?|?]%elem_of_cons; congruence.
Qed.

Lemma dict_set_keys_NoDup d k v : NoDup d.*1 → NoDup (dict_set k v d).*1.
Proof.
  intros Hd. rewrite dict_set_keys. destruct (decide (k ∈ d.*1)); [done|].
  apply NoDup_app. split_and!; [done| |apply NoDup_singleton].
  intros x Hx ->%list_elem_of_singleton. done.
Qed.
End dict.

Lemma complement_dict_nil : complement_dict [].
Proof. by intros k v ?%elem_of_nil. Qed.

Lemma record_negated_complement_dict al ls :
  complement_dict al → complement_dict (record_negated al ls).
Proof.
  unfold record_negated. revert al.
  induction ls as [|l ls IH]; intros al Hal; simpl; [done|].
  apply IH. destruct (negated l) eqn:Hl; [|done].
  intros k v [[= -> ->]|?]%elem_of_dict_set; auto.
Qed.

Lemma record_negated_keys_NoDup al ls :
  NoDup al.*1 → NoDup (record_negated al ls).*1.
Proof.
  unfold record_negated. revert al.
  induction ls as [|l ls IH]; intros al Hal; simpl; [done|].
  apply IH. destruct (negated l); [|done]. by apply dict_set_keys_NoDup.
Qed.

(** The keys of the mapping after one of the recording loops. *)
Lemma record_negated_key al ls k :
  k ∈ (record_negated al ls).*1
  ↔ k ∈ al.*1 ∨ (k ∈ ls ∧ negated k = true).
Proof.
  unfold record_negated. revert al.
  induction ls as [|l ls IH]; intros al; simpl.
  - rewrite elem_of_nil. tauto.
  - rewrite IH, elem_of_cons. destruct (negated l) eqn:Hl.
    + rewrite dict_set_keys. destruct (decide (l ∈ al.*1)).
      * split; [tauto|]. intros [?|[[H|?] ?]]; subst; auto.
      * rewrite elem_of_app, list_elem_of_singleton.
        split; [intros [[?|H]|?]; subst; tauto|]. intros [?|[[H|?] ?]]; subst; auto.
    + split; [tauto|]. intros [?|[[H|?] ?]]; subst; auto. congruence.
Qed.

Lemma dict_get_complement al k :
  complement_dict al → k ∈ al.*1 → dict_get al k = Some (not_literal k).
Proof.
  intros Hal [v Hv]%elem_of_dict_get. rewrite Hv.
  apply dict_get_Some_elem, Hal in Hv as [_ ->]. done.
Qed.

(** The replacement of the negated preconditions never misses its key. *)
Lemma replace_negated_preconds al preconds :
  complement_dict al →
  mapM (λ precond, if negated precond
                   then dict_get (record_negated al preconds) precond
                   else Some precond) preconds
  = Some ((λ precond, if negated precond then not_literal precond
                      else precond) <$> preconds).
Proof.
  intros Hal. apply mapM_Some. apply Forall2_fmap_r, Forall_Forall2_diag.
  apply Forall_forall. intros l Hl. simpl.
  destruct (negated l) eqn:Hn; [|done].
  apply dict_get_complement; [by apply record_negated_complement_dict|].
  apply record_negated_key. auto.
Qed.

(** What one step of [remove_negative_preconditions] returns. *)
Lemma remove_negative_op_Some al op op' al' :
  complement_dict al →
  remove_negative_op al op = Some (op', al') →
  ∃ preconds,
    precondition op = CLit <$> preconds
    ∧ op' = PropositionalAction_init (name op)
              (CLit <$> ((λ precond, if negated precond
                                     then not_literal precond else precond)
                           <$> preconds))
              ((λ eff, ([], eff))
                 <$> (effects_of op ++ (not_literal <$> effects_of op)))
              (cost op)
    ∧ al' = record_negated (record_negated al preconds) (effects_of op).
Proof.
  intros Hal. unfold remove_negative_op.
  destruct (mapM literal_of (precondition op)) as [preconds|] eqn:Hpre;
    simpl; [|done].
  rewrite replace_negated_preconds by done. simpl. intros [= <- <-].
  exists preconds. split; [|done].
  apply mapM_Some in Hpre. clear -Hpre.
  induction Hpre as [|c l cs ls Hc _ IH]; [done|].
  simpl. rewrite IH. f_equal. by destruct c; simplify_eq/=.
Qed.

Lemma remove_negative_op_total al op preconds :
  complement_dict al →
  precondition op = CLit <$> preconds →
  is_Some (remove_negative_op al op).
Proof.
  intros Hal Hpre. unfold remove_negative_op. rewrite Hpre.
  assert (mapM literal_of (CLit <$> preconds) = Some preconds) as ->.
  { apply mapM_Some. apply Forall2_fmap_l, Forall_Forall2_diag.
    by apply Forall_forall. }
  simpl. rewrite replace_negated_preconds by done. simpl. eauto.
Qed.

Lemma remove_negative_op_complement_dict al op op' al' :
  complement_dict al →
  remove_negative_op al op = Some (op', al') →
  complement_dict al'.
Proof.
  intros Hal (preconds & _ & _ & ->)%remove_negative_op_Some; [|done].
  by do 2 apply record_negated_complement_dict.
Qed.

(** The loop of [remove_negative_preconditions]: every operator is rewritten
    on its own, and the mapping collects the negated literals met. *)
Lemma remove_negative_loop_spec al ops ops' al' :
  complement_dict al →
  remove_negative_loop al ops = Some (ops', al') →
  complement_dict al'
  ∧ (NoDup al.*1 → NoDup al'.*1)
  ∧ (∀ k, k ∈ al'.*1
          ↔ k ∈ al.*1
            ∨ ∃ op preconds, op ∈ ops ∧ precondition op = CLit <$> preconds
                ∧ k ∈ preconds ++ effects_of op ∧ negated k = true)
  ∧ Forall2 (λ op op', ∃ preconds, precondition op = CLit <$> preconds
                                   ∧ op' = rewritten op preconds) ops ops'.
Proof.
  revert al ops' al'. induction ops as [|op ops IH]; intros al ops' al' Hal.
  - simpl. intros [= <- <-]. split_and!; [done..| |constructor].
    intros k. split; [by left|]. intros [?|(op & ? & []%elem_of_nil & _)]. done.
  - simpl. destruct (remove_negative_op al op) as [[op1 al1]|] eqn:Hop;
      simpl; [|done].
    destruct (remove_negative_loop al1 ops) as [[rest al2]|] eqn:Hrest;
      simpl; [|done].
    intros [= <- <-].
    pose proof (remove_negative_op_complement_dict _ _ _ _ Hal Hop) as Hal1.
    apply remove_negative_op_Some in Hop as (preconds & Hpre & -> & ->);
      [|done].
    destruct (IH _ _ _ Hal1 Hrest) as (Hal2 & Hnd & Hkeys & Hall).
    split_and!; [done| | |].
    + intros ?. by apply Hnd; do 2 apply record_negated_keys_NoDup.
    + intros k. rewrite Hkeys, !record_negated_key. split.
      * intros [[[?|[? ?]]|[? ?]]|(op' & pre' & ? & ? & ? & ?)].
        -- by left.
        -- right. exists op, preconds. rewrite elem_of_app.
           split_and!; [by left|done|by left|done].
        -- right. exists op, preconds. rewrite elem_of_app.
           split_and!; [by left|done|by right|done].
        -- right. exists op', pre'. split_and!; [by right|done..].
      * intros [?|(op' & pre' & [->|?]%elem_of_cons & Hpre' & Hk & ?)].
        -- by left; left; left.
        -- left. rewrite Hpre in Hpre'.
           apply (inj (fmap CLit)) in Hpre' as <-.
           apply elem_of_app in Hk as [?|?]; [left; right|right]; done.
        -- right. by exists op', pre'.
    + constructor; [|done]. by exists preconds.
Qed.

Lemma remove_negative_loop_total al ops :
  complement_dict al →
  Forall (λ op, ∃ preconds, precondition op = CLit <$> preconds) ops →
  is_Some (remove_negative_loop al ops).
Proof.
  intros Hal Hops. revert al Hal.
  induction Hops as [|op ops [preconds Hpre] _ IH]; intros al Hal; [by eexists|].
  simpl. destruct (remove_negative_op_total al op preconds Hal Hpre)
    as [[op' al1] Hop].
  rewrite Hop. simpl.
  destruct (IH al1) as [[rest al2] Hrest].
  { by eapply remove_negative_op_complement_dict. }
  rewrite Hrest. simpl. eauto.
Qed.

(** [remove_negative_preconditions] returns whenever every precondition
    entry is a literal, as the expanded operators' are. *)
Lemma remove_negative_preconditions_total safe_operators :
  Forall (λ op, ∃ preconds, precondition op = CLit <$> preconds)
         safe_operators →
  is_Some (remove_negative_preconditions safe_operators).
Proof. apply remove_negative_loop_total, complement_dict_nil. Qed.

Lemma rewritten_positive op preconds :
  (∀ c, c ∈ precondition (rewritten op preconds) →
        ∃ l, c = CLit l ∧ negated l = false)
  ∧ (∀ ce, ce ∈ add_effects (rewritten op preconds) → negated ce.2 = false)
  ∧ (∀ ce, ce ∈ del_effects (rewritten op preconds) → negated ce.2 = false).
Proof.
  unfold rewritten, PropositionalAction_init. simpl. split_and!.
  - intros c (l & -> & (l' & -> & _)%list_elem_of_fmap)%list_elem_of_fmap.
    eexists. split; [done|]. destruct (negated l') eqn:Hl; [|done].
    simpl. by rewrite Hl.
  - by intros ce [? _]%list_elem_of_filter.
  - intros ce (ce' & -> & [[Hn _] _]%list_elem_of_filter)%list_elem_of_fmap.
    simpl. by rewrite Hn.
Qed.

(** C4.  When [remove_negative_preconditions] returns, every precondition
    entry of every operator of the rewritten list is a literal of positive
    polarity, and so is the atom of every add-effect and of every
    del-effect. *)
Theorem C4_no_negative_polarity safe_operators ops additional_literals :
  remove_negative_preconditions safe_operators
  = Some (ops, additional_literals) →
  length ops = length safe_operators
  ∧ ∀ op, op ∈ ops →
      (∀ c, c ∈ precondition op → ∃ l, c = CLit l ∧ negated l = false)
      ∧ (∀ ce, ce ∈ add_effects op → negated ce.2 = false)
      ∧ (∀ ce, ce ∈ del_effects op → negated ce.2 = false).
Proof.
  intros H. apply remove_negative_loop_spec in H as (_ & _ & _ & Hall);
    [|apply complement_dict_nil].
  split; [symmetry; by eapply Forall2_length|].
  intros op' [i Hi]%list_elem_of_lookup_1.
  destruct (Forall2_lookup_r _ _ _ _ _ Hall Hi) as (op & _ & preconds & _ & ->).
  apply rewritten_positive.
Qed.

Lemma C4_no_negative_polarity_witness :
  ∃ ops al,
    remove_negative_preconditions (get_safe_operators [hickmott_x])
    = Some (ops, al)
    ∧ length ops = 2
    ∧ ∀ op, op ∈ ops →
        ∀ c, c ∈ precondition op → ∃ l, c = CLit l ∧ negated l = false.
Proof.
  destruct (remove_negative_preconditions (get_safe_operators [hickmott_x]))
    as [[ops al]|] eqn:Hrun; [|by vm_compute in Hrun].
  exists ops, al. split; [done|].
  destruct (C4_no_negative_polarity _ _ _ Hrun) as [Hlen Hpos].
  split; [exact Hlen|]. intros op Hop. by apply Hpos.
Defined.

(** ** Net construction *)

(** An atom is in the initial state when [init] has an entry of class
    [Atom] equal to it. *)
Lemma elem_of_clean_init init a :
  a ∈ clean_init init ↔ negated a = false ∧ InitLit a ∈ init.
Proof.
  unfold clean_init. rewrite elem_of_list_to_set, list_elem_of_omap. split.
  - intros (ini & Hini & Ha). destruct ini as [l|]; simpl in Ha; [|done].
    destruct (negated l) eqn:Hl; simplify_eq. done.
  - intros [Hn Ha]. exists (InitLit a). split; [done|]. simpl. by rewrite Hn.
Qed.

Lemma petri_mapping_Some atoms al ops init net :
  petri_mapping atoms al ops init = Some net →
  places net = mapping_places (clean_init init) atoms al
  ∧ Forall2 (λ op tran,
               mapping_transition (mapping_dict (clean_init init) atoms al) op
               = Some tran) ops (transitions net).
Proof.
  unfold petri_mapping. intros H. apply bind_Some in H as (trans & Htrans & H).
  simplify_eq. simpl. split; [done|]. by apply mapM_Some.
Qed.

Lemma atom_place_spec ci a :
  place_name (atom_place ci a) = str a
  ∧ tokens (atom_place ci a) = (if decide (a ∈ ci) then 1 else 0).
Proof. unfold atom_place. by case_decide. Qed.

Lemma added_place_spec ci oa :
  place_name (added_place ci oa) = str oa.2
  ∧ tokens (added_place ci oa) = (if decide (positive oa.1 ∈ ci) then 0 else 1).
Proof. unfold added_place. by repeat case_decide. Qed.

(** C5.  The places of the net built by [petri_mapping] are, in order, one
    place per entry of [atoms], named after the atom and holding one token
    if the atom is in the initial state and none otherwise, followed by one
    place per entry of the mapping, named after the complement atom and
    holding one token if the positive form of the original is not in the
    initial state and none otherwise; there is no other place. *)
Theorem C5_places_and_marking atoms additional_literals safe_operators init net :
  petri_mapping atoms additional_literals safe_operators init = Some net →
  ∃ atom_places added_places,
    places net = atom_places ++ added_places
    ∧ Forall2 (λ a place,
                 place_name place = str a
                 ∧ (tokens place = 1 ↔ negated a = false ∧ InitLit a ∈ init)
                 ∧ (tokens place = 0
                    ↔ ¬ (negated a = false ∧ InitLit a ∈ init)))
              atoms atom_places
    ∧ Forall2 (λ oa place,
                 place_name place = str oa.2
                 ∧ (tokens place = 1 ↔ InitLit (positive oa.1) ∉ init)
                 ∧ (tokens place = 0 ↔ InitLit (positive oa.1) ∈ init))
              additional_literals added_places.
Proof.
  intros [Hplaces _]%petri_mapping_Some.
  exists (atom_place (clean_init init) <$> atoms),
         (added_place (clean_init init) <$> additional_literals).
  split; [done|]. split.
  - apply Forall2_fmap_r, Forall_Forall2_diag, Forall_forall. intros a _. simpl.
    destruct (atom_place_spec (clean_init init) a) as [-> ->].
    rewrite <-elem_of_clean_init. case_decide; (intuition congruence).
  - apply Forall2_fmap_r, Forall_Forall2_diag, Forall_forall. intros oa _. simpl.
    destruct (added_place_spec (clean_init init) oa) as [-> ->].
    assert (positive oa.1 ∈ clean_init init ↔ InitLit (positive oa.1) ∈ init)
      as Hin by (rewrite elem_of_clean_init; tauto).
    rewrite <-Hin. case_decide; (intuition congruence).
Qed.

Lemma C5_places_and_marking_witness :
  ∃ net atom_places added_places,
    pddl2petri hickmott_atoms [hickmott_x] hickmott_init = Some net
    ∧ places net = atom_places ++ added_places
    ∧ length atom_places = 3 ∧ length added_places = 3.
Proof.
  destruct (remove_negative_preconditions (get_safe_operators [hickmott_x]))
    as [[ops al]|] eqn:Hrun; [|by vm_compute in Hrun].
  destruct (petri_mapping hickmott_atoms al ops hickmott_init)
    as [net|] eqn:Hnet.
  - destruct (C5_places_and_marking _ _ _ _ _ Hnet)
      as (atom_places & added_places & Hpl & Hat & Had).
    exists net, atom_places, added_places. split_and!.
    + unfold pddl2petri. rewrite Hrun. exact Hnet.
    + exact Hpl.
    + symmetry. exact (Forall2_length _ _ _ Hat).
    + rewrite <-(Forall2_length _ _ _ Had). clear -Hrun.
      vm_compute in Hrun. by injection Hrun as _ <-.
  - exfalso. clear -Hrun Hnet. vm_compute in Hrun.
    injection Hrun as <- <-. by vm_compute in Hnet.
Defined.

(** C10.  Two initial-state lists with the same entries of class [Atom]
    give the same net, whatever their other entries are. *)
Theorem C10_non_atom_init_ignored atoms additional_literals safe_operators
    init1 init2 :
  (∀ l, negated l = false → (InitLit l ∈ init1 ↔ InitLit l ∈ init2)) →
  petri_mapping atoms additional_literals safe_operators init1
  = petri_mapping atoms additional_literals safe_operators init2.
Proof.
  intros Hsame. unfold petri_mapping.
  assert (clean_init init1 = clean_init init2) as ->; [|done].
  apply set_eq. intros a. rewrite !elem_of_clean_init. (firstorder (subst; eauto)).
Qed.

Lemma C10_non_atom_init_ignored_witness :
  petri_mapping hickmott_atoms [] [] hickmott_init_cost
  = petri_mapping hickmott_atoms [] [] hickmott_init.
Proof.
  apply C10_non_atom_init_ignored. intros l _.
  unfold hickmott_init_cost. rewrite elem_of_cons.
  split; [intros [Heq|Hin]; [discriminate Heq|exact Hin]|by right].
Defined.

(** The loop that adds the preserved preconditions appends to the
    add-effects a subsequence [kept] of the preconditions. *)
Lemma preserve_spec dests del_strs preconds :
  ∃ kept,
    preserve dests del_strs preconds = dests ++ kept
    ∧ kept `sublist_of` preconds
    ∧ NoDup (str <$> kept)
    ∧ (∀ p, p ∈ kept → (str p ∉ str <$> dests) ∧ (str p ∉ del_strs))
    ∧ (∀ p, p ∈ preconds → (str p ∉ str <$> dests) → (str p ∉ del_strs) →
            str p ∈ str <$> kept).
Proof.
  unfold preserve. revert dests.
  induction preconds as [|q preconds IH]; intros dests; simpl.
  - exists []. rewrite app_nil_r. split_and!; [done|done|constructor| |].
    + by intros p ?%elem_of_nil.
    + by intros p ?%elem_of_nil.
  - case_decide as Hq.
    + destruct (IH (dests ++ [q])) as (kept & -> & Hsub & Hnd & Hkept & Hall).
      exists (q :: kept). rewrite <-app_assoc.
      split_and!; [done|by apply sublist_skip| | |].
      * rewrite fmap_cons. constructor; [|done].
        intros (p & Hp & Hin)%list_elem_of_fmap.
        destruct (Hkept p Hin) as [Hnot _]. apply Hnot.
        rewrite fmap_app, elem_of_app. right. rewrite <-Hp. by left.
      * intros p [->|Hp]%elem_of_cons; [done|].
        destruct (Hkept p Hp) as [Hnot ?]. split; [|done].
        intros ?. apply Hnot. rewrite fmap_app, elem_of_app. by left.
      * intros p [->|Hp]%elem_of_cons Hd Hdel; rewrite fmap_cons.
        -- by left.
        -- destruct (decide (str p = str q)) as [->|Hne]; [by left|].
           right. apply Hall; [done| |done].
           rewrite fmap_app, elem_of_app. intros [?|Hin]; [done|].
           apply list_elem_of_singleton in Hin. done.
    + destruct (IH dests) as (kept & -> & Hsub & Hnd & Hkept & Hall).
      exists kept. split_and!; [done|by apply sublist_cons|done|done|].
      intros p [->|Hp]%elem_of_cons Hd Hdel; [|by apply Hall].
      destruct Hq. done.
Qed.

Lemma foldl_insert_lookup {K V A} `{Countable K} (key : A → K) (val : A → V)
    (l : list A) (d : gmap K V) k v :
  foldl (λ d a, <[ key a := val a ]> d) d l !! k = Some v →
  (∃ a, a ∈ l ∧ key a = k ∧ val a = v) ∨ d !! k = Some v.
Proof.
  revert d. induction l as [|a l IH]; intros d; simpl; [by right|].
  intros [(b & Hb & Hk & Hv)|Hd]%IH.
  - left. exists b. split_and!; [by right|done..].
  - destruct (decide (key a = k)) as [Heq|Hne].
    + rewrite <-Heq, lookup_insert_eq in Hd. injection Hd as Hv.
      left. exists a. split_and!; [by left|done..].
    + rewrite lookup_insert_ne in Hd by done. by right.
Qed.

(** An entry of the dict [places]: the place of an atom or of a
    complement. *)
Lemma mapping_dict_lookup ci atoms al x place :
  mapping_dict ci atoms al !! x = Some place →
  (∃ oa, oa ∈ al ∧ oa.2 = x ∧ place = added_place ci oa)
  ∨ (x ∈ atoms ∧ place = atom_place ci x).
Proof.
  unfold mapping_dict.
  intros [(oa & Hoa & Hk & Hv)|Hd]
    %(foldl_insert_lookup snd (added_place ci)).
  - left. by exists oa.
  - apply (foldl_insert_lookup id (atom_place ci)) in Hd
      as [(a & Ha & Hk & Hv)|Hd].
    + right. simpl in Hk. by subst.
    + by rewrite lookup_empty in Hd.
Qed.

Lemma mapping_dict_dom ci atoms al x place :
  mapping_dict ci atoms al !! x = Some place → x ∈ atoms ∨ x ∈ al.*2.
Proof.
  intros [(oa & Hoa & <- & _)|[? _]]%mapping_dict_lookup; [right|by left].
  by apply list_elem_of_fmap_2.
Qed.

Lemma mapping_dict_lookup_name ci atoms al x place :
  mapping_dict ci atoms al !! x = Some place → place_name place = str x.
Proof.
  intros [(oa & _ & <- & ->)|[_ ->]]%mapping_dict_lookup.
  - apply added_place_spec.
  - apply atom_place_spec.
Qed.

Lemma literal_of_mapM cs ls :
  mapM literal_of cs = Some ls ↔ cs = CLit <$> ls.
Proof.
  rewrite mapM_Some. split.
  - induction 1 as [|c l cs ls Hc _ IH]; [done|].
    rewrite fmap_cons, <-IH. f_equal. by destruct c; simplify_eq/=.
  - intros ->. apply Forall2_fmap_l, Forall_Forall2_diag. by apply Forall_forall.
Qed.

(** The transition of one operator, as the operator loop of
    [petri_mapping] builds it. *)
Lemma mapping_transition_Some pl op tran :
  mapping_transition pl op = Some tran →
  ∃ preconds kept produced preserved,
    precondition op = CLit <$> preconds
    ∧ destination_literals op preconds = (snd <$> add_effects op) ++ kept
    ∧ transition_name tran = name op
    ∧ transition_cost tran = cost op
    ∧ Forall2 (λ l place, pl !! l = Some place) preconds (origins tran)
    ∧ destinations tran = produced ++ preserved
    ∧ Forall2 (λ l place, pl !! l = Some place) (snd <$> add_effects op) produced
    ∧ Forall2 (λ l place, pl !! l = Some place) kept preserved.
Proof.
  unfold mapping_transition. intros H.
  apply bind_Some in H as (preconds & Hpre%literal_of_mapM & H).
  apply bind_Some in H as (origs & Horigs%mapM_Some & H).
  apply bind_Some in H as (dests & Hdests%mapM_Some & H).
  simplify_eq. simpl.
  destruct (preserve_spec (snd <$> add_effects op)
              ((λ dele : CondEffect, str dele.2) <$> del_effects op) preconds)
    as (kept & Hkept & _).
  fold (destination_literals op preconds) in Hkept. rewrite Hkept in Hdests.
  apply Forall2_app_inv_l in Hdests as (produced & preserved & ? & ? & ->).
  exists preconds, kept, produced, preserved. split_and!; done.
Qed.



(** ** The finite-domain encoding *)

Lemma has_name_true nm ps :
  has_name nm ps = true ↔ ∃ place, place ∈ ps ∧ place_name place = nm.
Proof.
  unfold has_name. rewrite existsb_exists.
  setoid_rewrite bool_decide_eq_true. by setoid_rewrite list_elem_of_In.
Qed.

Lemma origins_loop_Some place2var dests origs pp entered pp' entered' :
  origins_loop place2var dests origs pp entered = Some (pp', entered') →
  ∃ vars,
    Forall2 (λ orig var, place2var !! place_name orig = Some var) origs vars
    ∧ pp' = pp ++ zip_with (origin_entry dests) origs vars
    ∧ entered' = entered ∪ list_to_set vars.
Proof.
  revert pp entered. induction origs as [|orig origs IH]; intros pp entered.
  - simpl. intros [= <- <-]. exists []. rewrite app_nil_r.
    split_and!; [constructor|done|]. simpl. by rewrite (right_id_L ∅ (∪)).
  - simpl. intros H. apply bind_Some in H as (var & Hvar & H).
    apply IH in H as (vars & Hvars & -> & ->).
    exists (var :: vars). split_and!.
    + by constructor.
    + by rewrite <-app_assoc.
    + simpl. by rewrite (assoc_L (∪)).
Qed.

Lemma destinations_loop_Some place2var origs entered dests pp pp' :
  destinations_loop place2var origs entered dests pp = Some pp' →
  ∃ vars,
    Forall2 (λ dest var, place2var !! place_name dest = Some var) dests vars
    ∧ pp' = pp ++ destination_entries origs entered dests vars.
Proof.
  unfold destination_entries. revert pp.
  induction dests as [|dest dests IH]; intros pp.
  - simpl. intros [= <-]. exists []. rewrite app_nil_r. by split; [constructor|].
  - simpl. intros H. apply bind_Some in H as (var & Hvar & H).
    case_decide as Hent.
    + apply IH in H as (vars & Hvars & ->). exists (var :: vars).
      split; [by constructor|]. cbn [zip zip_with]. rewrite bind_cons. simpl.
      destruct (decide (var ∉ entered)); [|done]. by rewrite <-app_assoc.
    + apply IH in H as (vars & Hvars & ->). exists (var :: vars).
      split; [by constructor|]. cbn [zip zip_with]. rewrite bind_cons. simpl.
      by destruct (decide (var ∉ entered)).
Qed.

(** The operator that [sas_translate] emits for a transition. *)
Lemma sas_operator_Some place2var tran sop :
  sas_operator place2var tran = Some sop →
  ∃ ovars dvars,
    Forall2 (λ orig var, place2var !! place_name orig = Some var)
            (origins tran) ovars
    ∧ Forall2 (λ dest var, place2var !! place_name dest = Some var)
              (destinations tran) dvars
    ∧ sas_name sop = "(" +:+ transition_name tran +:+ ")"
    ∧ prevail sop = []
    ∧ sas_cost sop = transition_cost tran
    ∧ pre_post sop
      = zip_with (origin_entry (destinations tran)) (origins tran) ovars
        ++ destination_entries (origins tran) (list_to_set ovars)
             (destinations tran) dvars.
Proof.
  unfold sas_operator. intros H.
  apply bind_Some in H as ([pp entered] & Ho & H).
  apply bind_Some in H as (pp' & Hd & H). simplify_eq. simpl.
  apply origins_loop_Some in Ho as (ovars & Hov & -> & ->).
  apply destinations_loop_Some in Hd as (dvars & Hdv & ->).
  exists ovars, dvars. split_and!; [done..|].
  simpl. by rewrite union_empty_l_L.
Qed.

Lemma sas_translate_Some net goal task :
  sas_translate net goal = Some task →
  Forall2 (λ tran sop, sas_operator (place2var_of (places net)) tran = Some sop)
          (transitions net) (operators task)
  ∧ goal_pairs task
    = concat (imap (place_goals (pddl_goals goal)) (places net))
  ∧ init_values task
    = (λ place, if decide (0 < tokens place) then 1 else 0) <$> places net
  ∧ length (ranges task) = length (places net)
  ∧ axioms task = [] ∧ mutexes task = [] ∧ metric task = true.
Proof.
  unfold sas_translate. intros H. apply bind_Some in H as (ops & Hops & H).
  simplify_eq. simpl. rewrite length_fmap. split_and!; try done.
  by apply mapM_Some.
Qed.

(** C8.  For every transition the emitted operator has the transition's
    cost and an empty prevail list, and every entry of its pre/post list has
    an empty condition.  The list contains, for every origin, the entry
    (its variable, 1, post) where post is 1 if some destination has the
    origin's name and 0 otherwise, and, for every destination whose variable
    is the variable of no origin, the entry (its variable, 0, 1); it
    contains nothing else. *)
Theorem C8_operator_encoding net goal task :
  sas_translate net goal = Some task →
  let place2var := place2var_of (places net) in
  Forall2 (λ tran sop,
    sas_cost sop = transition_cost tran
    ∧ prevail sop = []
    ∧ (∀ entry, entry ∈ pre_post sop → entry.2 = [])
    ∧ (∀ orig, orig ∈ origins tran →
         ∃ var post,
           place2var !! place_name orig = Some var
           ∧ (var, 1, post, []) ∈ pre_post sop
           ∧ (post = 1 ↔ ∃ dest, dest ∈ destinations tran
                                 ∧ place_name dest = place_name orig)
           ∧ (post = 0 ↔ ¬ ∃ dest, dest ∈ destinations tran
                                   ∧ place_name dest = place_name orig))
    ∧ (∀ dest, dest ∈ destinations tran →
         ∃ var,
           place2var !! place_name dest = Some var
           ∧ ((∀ orig, orig ∈ origins tran →
                       place2var !! place_name orig ≠ Some var) →
              (var, 0, 1, []) ∈ pre_post sop))
    ∧ (∀ entry, entry ∈ pre_post sop →
         (∃ orig var post, orig ∈ origins tran
            ∧ place2var !! place_name orig = Some var
            ∧ entry = (var, 1, post, []))
         ∨ (∃ dest var, dest ∈ destinations tran
              ∧ place2var !! place_name dest = Some var
              ∧ (∀ orig, orig ∈ origins tran →
                         place2var !! place_name orig ≠ Some var)
              ∧ entry = (var, 0, 1, []))))
    (transitions net) (operators task).
Proof.
  intros (Hall & _)%sas_translate_Some place2var.
  eapply Forall2_impl; [exact Hall|]. clear Hall.
  intros tran sop (ovars & dvars & Hov & Hdv & _ & Hprev & Hcost & Hpp)
                   %sas_operator_Some.
  fold place2var in Hov, Hdv.
  assert (∀ var, var ∈ (list_to_set ovars : gset nat)
                 ↔ ∃ orig, orig ∈ origins tran
                           ∧ place2var !! place_name orig = Some var) as Hent.
  { intros var. rewrite elem_of_list_to_set. split.
    - intros [i Hi]%list_elem_of_lookup_1.
      destruct (Forall2_lookup_r _ _ _ _ _ Hov Hi) as (orig & Ho & ?).
      exists orig. split; [by eapply list_elem_of_lookup_2|done].
    - intros (orig & [i Hi]%list_elem_of_lookup_1 & Hvar).
      destruct (Forall2_lookup_l _ _ _ _ _ Hov Hi) as (var' & Hv & ?).
      simplify_eq. by eapply list_elem_of_lookup_2. }
  assert (∀ dest var, place2var !! place_name dest = Some var →
            var ∉ (list_to_set ovars : gset nat) →
            has_name (place_name dest) (origins tran) = false) as Hdead.
  { intros dest var Hvar Hnot. apply not_true_iff_false.
    intros (orig & Ho & Hname)%has_name_true. apply Hnot, Hent.
    exists orig. split; [done|]. by rewrite Hname. }
  assert (∀ entry, entry ∈ destination_entries (origins tran)
                             (list_to_set ovars) (destinations tran) dvars
            ↔ ∃ dest var, dest ∈ destinations tran
                ∧ place2var !! place_name dest = Some var
                ∧ (var ∉ (list_to_set ovars : gset nat))
                ∧ entry = (var, 0, 1, [])) as Hde.
  { intros entry. unfold destination_entries. rewrite list_elem_of_bind. split.
    - intros ([dest var] & Hentry & [i Hi]%list_elem_of_lookup_1).
      apply lookup_zip_with_Some in Hi as (d & v & [= -> ->] & Hd & Hv).
      pose proof (Forall2_lookup_lr _ _ _ _ _ _ Hdv Hd Hv) as Hvar.
      simpl in *. case_decide as Hnot; [|by apply elem_of_nil in Hentry].
      apply list_elem_of_singleton in Hentry as ->.
      rewrite (Hdead _ _ Hvar Hnot). exists d, v.
      split_and!; [by eapply list_elem_of_lookup_2|done..].
    - intros (dest & var & [i Hi]%list_elem_of_lookup_1 & Hvar & Hnot & ->).
      destruct (Forall2_lookup_l _ _ _ _ _ Hdv Hi) as (var' & Hv & Hvar').
      simplify_eq. exists (dest, var). split.
      + simpl. destruct (decide (var ∉ list_to_set ovars)); [|done].
        rewrite (Hdead _ _ Hvar Hnot). by left.
      + apply list_elem_of_lookup_2 with i. apply lookup_zip_with_Some.
        by exists dest, var. }
  assert (∀ entry, entry ∈ zip_with (origin_entry (destinations tran))
                             (origins tran) ovars
            ↔ ∃ orig var, orig ∈ origins tran
                ∧ place2var !! place_name orig = Some var
                ∧ entry = origin_entry (destinations tran) orig var)
    as Hoe.
  { intros entry. split.
    - intros [i Hi]%list_elem_of_lookup_1.
      apply lookup_zip_with_Some in Hi as (o & v & -> & Ho & Hv).
      pose proof (Forall2_lookup_lr _ _ _ _ _ _ Hov Ho Hv) as Hvar.
      exists o, v. split_and!; [by eapply list_elem_of_lookup_2|done..].
    - intros (orig & var & [i Hi]%list_elem_of_lookup_1 & Hvar & ->).
      destruct (Forall2_lookup_l _ _ _ _ _ Hov Hi) as (var' & Hv & Hvar').
      simplify_eq. apply list_elem_of_lookup_2 with i.
      apply lookup_zip_with_Some. by exists orig, var. }
  split_and!; [done|done| | | |].
  - intros entry. rewrite Hpp, elem_of_app, Hoe, Hde.
    intros [(orig & var & _ & _ & ->)|(dest & var & _ & _ & _ & ->)]; done.
  - intros orig Ho. pose proof Ho as [i Hi]%list_elem_of_lookup_1.
    destruct (Forall2_lookup_l _ _ _ _ _ Hov Hi) as (var & Hv & Hvar).
    exists var, (if has_name (place_name orig) (destinations tran)
                 then 1 else 0).
    split_and!; [done| | |].
    + rewrite Hpp, elem_of_app, Hoe. left. exists orig, var. by split_and!.
    + rewrite <-has_name_true. by destruct (has_name _ _).
    + rewrite <-has_name_true. by destruct (has_name _ _).
  - intros dest Hd. pose proof Hd as [i Hi]%list_elem_of_lookup_1.
    destruct (Forall2_lookup_l _ _ _ _ _ Hdv Hi) as (var & Hv & Hvar).
    exists var. split; [done|]. intros Hcov.
    rewrite Hpp, elem_of_app, Hde. right. exists dest, var.
    split_and!; [done..| |done].
    rewrite Hent. intros (orig & Ho & Hvo). by apply (Hcov orig).
  - intros entry. rewrite Hpp, elem_of_app, Hoe, Hde.
    intros [(orig & var & Ho & Hvar & Hentry)
           |(dest & var & Hd & Hvar & Hnot & Hentry)].
    + left. exists orig, var,
        (if has_name (place_name orig) (destinations tran) then 1 else 0).
      by split_and!.
    + right. exists dest, var. split_and!; [done..| |done].
      intros orig Ho Hvo. apply Hnot, Hent. eauto.
Qed.

Lemma hickmott_net_built :
  pddl2petri hickmott_atoms [hickmott_x] hickmott_init = Some hickmott_net.
Proof. by vm_compute. Qed.

Lemma C8_operator_encoding_witness :
  ∃ task,
    sas_translate hickmott_net (CLit (atom "d")) = Some task
    ∧ length (operators task) = 2.
Proof.
  destruct (sas_translate hickmott_net (CLit (atom "d"))) as [task|] eqn:Hrun;
    [|by vm_compute in Hrun].
  exists task. split; [done|].
  by rewrite <-(Forall2_length _ _ _ (C8_operator_encoding _ _ _ Hrun)).
Defined.

(** C9 as worded does not hold: on a net without places the goal literal
    [g] has no place, and [sas_translate] completes. *)
Lemma C9_malformed_goal_counterexample :
  ¬ ∀ net goal g,
      g ∈ pddl_goals goal →
      (∀ place, place ∈ places net →
                place_name place ≠ str g ∧ place_name place ≠ str (negate g)) →
      sas_translate net goal = None.
Proof.
  intros H. specialize (H empty_net (CLit (atom "g")) (atom "g")).
  discriminate H.
  - by left.
  - by intros place ?%elem_of_nil.
Qed.

Lemma elem_of_place_goals goals var place pair :
  pair ∈ place_goals goals var place
  ↔ ∃ g, g ∈ goals
         ∧ ((pair = (var, 1) ∧ str g = place_name place)
            ∨ (pair = (var, 0) ∧ str (negate g) = place_name place)).
Proof.
  unfold place_goals. rewrite list_elem_of_bind.
  apply exist_proper. intros g. rewrite elem_of_app.
  repeat case_decide; rewrite ?list_elem_of_singleton, ?elem_of_nil;
    tauto.
Qed.

(** C9, amended.  [sas_translate] does not validate the goal: whether it
    completes does not depend on the goal, and when it completes the goal
    pairs are exactly the pairs of the goal literals that match a place, so
    a goal literal without a place is left out silently. *)
Theorem C9_unmatched_goal_omitted net goal :
  (∀ goal', is_Some (sas_translate net goal)
            ↔ is_Some (sas_translate net goal'))
  ∧ ∀ task, sas_translate net goal = Some task →
      ∀ var val,
        (var, val) ∈ goal_pairs task
        ↔ ∃ place g,
            places net !! var = Some place ∧ g ∈ pddl_goals goal
            ∧ ((val = 1 ∧ str g = place_name place)
               ∨ (val = 0 ∧ str (negate g) = place_name place)).
Proof.
  split.
  - intros goal'. unfold sas_translate.
    destruct (mapM _ (transitions net)); simpl; split; eauto.
  - intros task (_ & -> & _)%sas_translate_Some var val.
    rewrite list_elem_of_In, in_concat. split.
    + intros (pairs & [i Hi]%list_elem_of_In%list_elem_of_lookup_1
              & Hpair%list_elem_of_In).
      rewrite list_lookup_imap in Hi.
      destruct (places net !! i) as [place|] eqn:Hplace; simplify_eq/=.
      apply elem_of_place_goals in Hpair as (g & Hg & Hor).
      exists place, g. (intuition congruence).
    + intros (place & g & Hplace & Hg & Hor).
      exists (place_goals (pddl_goals goal) var place).
      rewrite <-!list_elem_of_In. split.
      * apply list_elem_of_lookup_2 with var.
        by rewrite list_lookup_imap, Hplace.
      * apply elem_of_place_goals. exists g. (intuition congruence).
Qed.

(** ** The token game *)

Lemma count_name_zero nm ps :
  count_name nm ps = 0 ↔ nm ∉ place_name <$> ps.
Proof.
  unfold count_name. induction ps as [|place ps IH].
  - split; [intros _ ?%elem_of_nil|]; done.
  - rewrite filter_cons, fmap_cons, not_elem_of_cons.
    case_decide as Hn; simpl.
    + split; [done|]. intros [? _]. congruence.
    + rewrite IH. split; [|tauto]. intros ?. split; [|done].
      intros ->. done.
Qed.

Lemma count_name_pos nm ps :
  0 < count_name nm ps ↔ nm ∈ place_name <$> ps.
Proof.
  pose proof (count_name_zero nm ps) as H0.
  destruct (decide (nm ∈ place_name <$> ps)) as [Hin|Hnot].
  - split; [done|]. intros _. destruct (count_name nm ps); [tauto|lia].
  - split; [|done]. apply H0 in Hnot. lia.
Qed.

(** The map from which [initial_marking] reads. *)
Lemma marking_fold_notin (d : gmap string nat) ps nm :
  nm ∉ place_name <$> ps →
  foldl (λ d place, <[ place_name place := tokens place ]> d) d ps !! nm
  = d !! nm.
Proof.
  revert d. induction ps as [|place ps IH]; intros d; [done|].
  rewrite fmap_cons, not_elem_of_cons. intros [Hne Hnot]. simpl.
  rewrite IH by done. by rewrite lookup_insert_ne.
Qed.

Lemma marking_fold_in (d : gmap string nat) ps place :
  NoDup (place_name <$> ps) → place ∈ ps →
  foldl (λ d place, <[ place_name place := tokens place ]> d) d ps
    !! place_name place
  = Some (tokens place).
Proof.
  revert d. induction ps as [|x ps IH]; intros d.
  - by intros _ ?%elem_of_nil.
  - rewrite fmap_cons, NoDup_cons.
    intros [Hx Hnd] [->|Hin]%elem_of_cons; simpl.
    + rewrite marking_fold_notin by done. by rewrite lookup_insert_eq.
    + by apply IH.
Qed.

Lemma initial_marking_in net place :
  NoDup (place_name <$> places net) → place ∈ places net →
  initial_marking net (place_name place) = tokens place.
Proof.
  intros Hnd Hin. unfold initial_marking. by rewrite marking_fold_in.
Qed.

Lemma initial_marking_notin net nm :
  nm ∉ place_name <$> places net → initial_marking net nm = 0.
Proof.
  intros Hnot. unfold initial_marking. by rewrite marking_fold_notin.
Qed.

(** Who holds a token after an enabled transition fires in a marking with
    at most one token per place. *)
Lemma holds_token_fire tran m nm :
  (∀ n, m n ≤ 1) → enabled tran m = true →
  (nm ∈ place_name <$> origins tran → holds_token m nm = true)
  ∧ (holds_token (fire tran m) nm = true
     ↔ (holds_token m nm = true ∧ (nm ∉ place_name <$> origins tran))
       ∨ nm ∈ place_name <$> destinations tran).
Proof.
  intros Hsafe Hen. unfold holds_token, fire.
  rewrite !bool_decide_eq_true.
  pose proof (count_name_zero nm (origins tran)) as Ho0.
  pose proof (count_name_pos nm (origins tran)) as Ho.
  pose proof (count_name_pos nm (destinations tran)) as Hd.
  pose proof (count_name_zero nm (destinations tran)) as Hd0.
  assert (nm ∈ place_name <$> origins tran →
          count_name nm (origins tran) ≤ m nm) as Hle.
  { intros (orig & -> & Hin)%list_elem_of_fmap.
    unfold enabled in Hen. rewrite forallb_forall in Hen.
    specialize (Hen orig). rewrite <-list_elem_of_In in Hen.
    by apply Hen, bool_decide_eq_true in Hin. }
  specialize (Hsafe nm).
  destruct (decide (nm ∈ place_name <$> origins tran)) as [Hin|Hnot].
  - specialize (Hle Hin). apply Ho in Hin as Hpos. split; [lia|].
    split.
    + intros ?. right. apply Hd. lia.
    + intros [[_ ?]|?%Hd]; [tauto|lia].
  - apply Ho0 in Hnot as Hz. split; [done|]. rewrite Hz. split.
    + intros ?. destruct (decide (0 < m nm)); [by left|].
      right. apply Hd. lia.
    + intros [[? _]|?%Hd]; lia.
Qed.

(** ** Complement consistency *)

Lemma positive_negate l : positive (negate l) = positive l.
Proof. done. Qed.

Lemma positive_idemp l : negated l = false → positive l = l.
Proof. destruct l as [p a n]. simpl. by intros ->. Qed.

Lemma negate_positive l : negated l = true → negate (positive l) = l.
Proof. destruct l as [p a n]. simpl. by intros ->. Qed.

Lemma not_literal_complement l :
  negated l = true → not_literal l = complement_atom (positive l).
Proof. destruct l as [p a n]. simpl. by intros ->. Qed.

Lemma negate_not_literal l :
  negated l = false → negate (not_literal l) = complement_atom l.
Proof. destruct l as [p a n]. simpl. by intros ->. Qed.

Lemma complement_atom_inj a b :
  negated a = false → negated b = false →
  complement_atom a = complement_atom b → a = b.
Proof.
  destruct a as [pa aa na], b as [pb ab nb]. simpl. intros -> -> [= Hp ->].
  by simplify_eq.
Qed.

Lemma preconditions_atoms_literals ls :
  preconditions_atoms (CLit <$> ls) = CLit <$> ls.
Proof.
  unfold preconditions_atoms. induction ls as [|l ls IH]; [done|].
  rewrite fmap_cons, bind_cons, IH. done.
Qed.

Lemma NoDup_fmap_inj_on {A B} (f : A → B) (l : list A) x y :
  NoDup (f <$> l) → x ∈ l → y ∈ l → f x = f y → x = y.
Proof.
  induction l as [|z l IH]; [by intros _ ?%elem_of_nil|].
  rewrite fmap_cons, NoDup_cons.
  intros [Hz Hnd] [->|Hx]%elem_of_cons [->|Hy]%elem_of_cons Heq; [done| | |by apply IH].
  - destruct Hz. rewrite Heq. by apply list_elem_of_fmap_2.
  - destruct Hz. rewrite <-Heq. by apply list_elem_of_fmap_2.
Qed.

Lemma safe_operators_of_safe atoms a op preconds :
  grounded_over atoms a → consistent (effects_of a) →
  op ∈ safe_operators_of a → precondition op = CLit <$> preconds →
  safe_over atoms op preconds.
Proof.
  intros [Hpre Heff] Hcons Hop Hlits.
  rewrite Forall_forall in Hpre. rewrite Forall_forall in Heff.
  destruct (decide (not_negated_effects a = [])) as [Hnil|Hne].
  - unfold safe_operators_of in Hop. rewrite Hnil in Hop.
    apply list_elem_of_singleton in Hop as ->.
    rewrite Hlits, preconditions_atoms_literals in Hpre.
    split_and!; [done| |done|done|].
    + intros l Hl. apply (Hpre (CLit l)). by apply list_elem_of_fmap_2.
    + intros x Hx. destruct (decide (CLit x ∈ preconditions_atoms (precondition a)))
        as [H1|H1]; [|destruct (decide (CLit (negate x)
                         ∈ preconditions_atoms (precondition a))) as [H2|H2]].
      * left. rewrite Hlits, preconditions_atoms_literals in H1.
        by apply (list_elem_of_fmap_inj CLit) in H1.
      * right. rewrite Hlits, preconditions_atoms_literals in H2.
        by apply (list_elem_of_fmap_inj CLit) in H2.
      * assert (x ∈ not_negated_effects a) as Hin
          by by apply elem_of_not_negated_effects.
        rewrite Hnil in Hin. by apply elem_of_nil in Hin.
  - apply list_elem_of_lookup_1 in Hop as [i Hi].
    apply safe_operators_of_lookup in Hi as (eprime & Hi & ->); [|done].
    assert (eprime ⊆ not_negated_effects a) as Hsub.
    { apply sublist_subseteq, elem_of_powerset. by eapply list_elem_of_lookup_2. }
    assert (∀ x, x ∈ effects_of (safe_operator a (S i) eprime) → x ∈ effects_of a)
      as Hine.
    { intros x [[? _]%elem_of_negated_effects|Hx]%effects_of_safe_operator;
        [done| |done|done].
      by apply Hsub, elem_of_not_negated_effects in Hx as [? _]. }
    assert (∀ l, l ∈ preconds
                 ↔ CLit l ∈ precondition (safe_operator a (S i) eprime)) as Hl.
    { intros l. rewrite Hlits. split; [apply list_elem_of_fmap_2|].
      apply (list_elem_of_fmap_inj CLit). }
    split_and!; [done| | | |].
    + intros l [Hin|(x & Hx & Hor)]%Hl%precondition_safe_operator; [| |done].
      * by apply (Hpre (CLit l)).
      * apply elem_of_not_negated_effects in Hx as [Hx _]. apply Heff in Hx.
        destruct Hor as [[_ [= ->]]|[_ [= ->]]]; by rewrite ?positive_negate.
    + intros x Hx. by apply Heff, Hine.
    + apply consistent_spec. intros x Hx Hn.
      apply (proj1 (consistent_spec _) Hcons x); by apply Hine.
    + intros x [Hs|Hx]%effects_of_safe_operator; [| |done|done].
      * apply elem_of_negated_effects in Hs as [_ [H1|H2]].
        -- left. apply Hl, precondition_safe_operator; [done|]. by left.
        -- right. apply Hl, precondition_safe_operator; [done|]. by left.
      * right. apply Hl, precondition_safe_operator; [done|]. right.
        exists x. split; [by apply Hsub|]. by left.
Qed.

(** What the two first stages return on a grounded task. *)
Lemma safe_pipeline atoms actions ops al :
  Forall (grounded_over atoms) actions →
  Forall (λ op, consistent (effects_of op)) actions →
  remove_negative_preconditions (get_safe_operators actions) = Some (ops, al) →
  complement_dict al
  ∧ NoDup al.*1
  ∧ (∀ k, k ∈ al.*1 → negated k = true ∧ positive k ∈ atoms)
  ∧ ∀ op', op' ∈ ops →
      ∃ op preconds,
        safe_over atoms op preconds ∧ op' = rewritten op preconds.
Proof.
  intros Hgr Hcons Hrun. rewrite Forall_forall in Hgr, Hcons.
  apply remove_negative_loop_spec in Hrun as (Hcd & Hnd & Hkeys & Hall);
    [|apply complement_dict_nil].
  assert (∀ op preconds, op ∈ get_safe_operators actions →
            precondition op = CLit <$> preconds →
            safe_over atoms op preconds) as Hsafe.
  { intros op preconds (a & Hop & Ha)%list_elem_of_bind Hpre.
    eapply safe_operators_of_safe; eauto. }
  split_and!; [done|apply Hnd; constructor| |].
  - intros k [[]%elem_of_nil|(op & preconds & Hop & Hpre & Hk & Hneg)]%Hkeys.
    split; [done|].
    destruct (Hsafe op preconds Hop Hpre) as (_ & Hp & He & _).
    apply elem_of_app in Hk as [?|?]; auto.
  - intros op' [i Hi]%list_elem_of_lookup_1.
    destruct (Forall2_lookup_r _ _ _ _ _ Hall Hi)
      as (op & Hop%list_elem_of_lookup_2 & preconds & Hpre & ->).
    exists op, preconds. split; [|done]. by apply Hsafe.
Qed.

Lemma Forall2_lookup_names (pl : gmap Literal PetriPlace) ls ps :
  (∀ x place, pl !! x = Some place → place_name place = str x) →
  Forall2 (λ l place, pl !! l = Some place) ls ps →
  place_name <$> ps = str <$> ls.
Proof.
  intros Hpl. induction 1 as [|l place ls ps Hl _ IH]; [done|].
  rewrite !fmap_cons, IH. f_equal. by apply Hpl.
Qed.

(** The names around a transition, in terms of the strings of the
    operator's literals. *)
Lemma transition_names pl op tran :
  (∀ x place, pl !! x = Some place → place_name place = str x) →
  mapping_transition pl op = Some tran →
  ∃ preconds,
    precondition op = CLit <$> preconds
    ∧ place_name <$> origins tran = str <$> preconds
    ∧ ∀ nm, nm ∈ place_name <$> destinations tran
            ↔ nm ∈ str <$> (add_effects op).*2
              ∨ (nm ∈ str <$> preconds
                 ∧ (nm ∉ str <$> (add_effects op).*2)
                 ∧ (nm ∉ str <$> (del_effects op).*2)).
Proof.
  intros Hpl (preconds & kept & produced & preserved & Hpre & Hdl & _ & _
              & Horig & Hdest & Hprod & Hpres)%mapping_transition_Some.
  exists preconds. split_and!; [done|by eapply Forall2_lookup_names|].
  destruct (preserve_spec (snd <$> add_effects op)
              ((λ dele : CondEffect, str dele.2) <$> del_effects op) preconds)
    as (kept' & Hkept' & Hsub & _ & Hkept & Hmiss).
  fold (destination_literals op preconds) in Hkept'. rewrite Hdl in Hkept'.
  apply app_inv_head in Hkept' as <-.
  assert ((λ dele : CondEffect, str dele.2) <$> del_effects op
          = str <$> (del_effects op).*2) as Hdel
    by by rewrite <-list_fmap_compose.
  rewrite Hdel in Hkept, Hmiss.
  intros nm. rewrite Hdest, fmap_app, elem_of_app.
  rewrite (Forall2_lookup_names _ _ _ Hpl Hprod),
    (Forall2_lookup_names _ _ _ Hpl Hpres).
  apply or_iff_compat_l. split.
  - intros (q & -> & Hq)%list_elem_of_fmap.
    destruct (Hkept q Hq) as [? ?]. split_and!; [|done..].
    apply list_elem_of_fmap_2. by apply (sublist_subseteq _ _ Hsub).
  - intros ((q & -> & Hq)%list_elem_of_fmap & ? & ?). by apply Hmiss.
Qed.

(** Who holds a token after an enabled transition of the net fires in a
    marking with at most one token per place. *)
Lemma holds_token_fire_names pl op tran m nm :
  (∀ x place, pl !! x = Some place → place_name place = str x) →
  mapping_transition pl op = Some tran →
  (∀ n, m n ≤ 1) → enabled tran m = true →
  ∃ preconds,
    precondition op = CLit <$> preconds
    ∧ (nm ∈ str <$> preconds → holds_token m nm = true)
    ∧ (holds_token (fire tran m) nm = true
       ↔ nm ∈ str <$> (add_effects op).*2
         ∨ (holds_token m nm = true
            ∧ ¬ (nm ∈ str <$> preconds ∧ nm ∈ str <$> (del_effects op).*2))).
Proof.
  intros Hpl (preconds & Hpre & Ho & Hd)%transition_names Hsafe Hen; [|done].
  destruct (holds_token_fire tran m nm Hsafe Hen) as [Hin Hfire].
  rewrite Ho in Hin, Hfire. rewrite Hd in Hfire.
  exists preconds. split_and!; [done..|]. rewrite Hfire.
  destruct (decide (nm ∈ str <$> preconds));
    destruct (decide (nm ∈ str <$> (add_effects op).*2));
    destruct (decide (nm ∈ str <$> (del_effects op).*2)); tauto.
Qed.

(** The literals of a rewritten operator. *)
Lemma rewritten_adds op preconds y :
  y ∈ (add_effects (rewritten op preconds)).*2
  ↔ negated y = false
    ∧ (y ∈ effects_of op ∨ ∃ x, x ∈ effects_of op ∧ y = not_literal x).
Proof.
  unfold rewritten, PropositionalAction_init. simpl.
  rewrite list_elem_of_fmap. split.
  - intros ([cnd y'] & -> & [Hn (x & [= -> ->] & Hx)%list_elem_of_fmap]
                             %list_elem_of_filter).
    split; [done|]. simpl.
    apply elem_of_app in Hx as [?|(x' & -> & ?)%list_elem_of_fmap]; eauto.
  - intros [Hn Hor]. exists ([], y). split; [done|].
    apply list_elem_of_filter. split; [done|]. apply list_elem_of_fmap_2.
    apply elem_of_app. destruct Hor as [?|(x & ? & ->)]; [by left|right].
    by apply list_elem_of_fmap_2.
Qed.

Lemma rewritten_dels op preconds z :
  z ∈ (del_effects (rewritten op preconds)).*2
  ↔ ∃ y, negated y = true
         ∧ (y ∈ effects_of op ∨ ∃ x, x ∈ effects_of op ∧ y = not_literal x)
         ∧ z = negate y
         ∧ negate y ∉ (add_effects (rewritten op preconds)).*2.
Proof.
  assert (∀ cnd y, (cnd, y) ∈ add_effects (rewritten op preconds)
                   ↔ cnd = [] ∧ y ∈ (add_effects (rewritten op preconds)).*2)
    as Hadds.
  { intros cnd y. rewrite list_elem_of_fmap.
    unfold rewritten, PropositionalAction_init. simpl. split.
    - intros Hin. pose proof Hin as [_ (x & [= -> ->] & _)%list_elem_of_fmap]
                                      %list_elem_of_filter.
      split; [done|]. by exists ([], x).
    - intros [-> ([cnd' y'] & -> & Hin)]. simpl.
      pose proof Hin as [_ (x & [= -> ->] & _)%list_elem_of_fmap]
                          %list_elem_of_filter. done. }
  rewrite list_elem_of_fmap. split.
  - intros ([cnd z'] & -> & Hin). simpl.
    unfold rewritten, PropositionalAction_init in Hin. simpl in Hin.
    apply list_elem_of_fmap in Hin
      as ([cnd' y] & [= -> ->] & [[Hn Hnot] (x & [= -> ->] & Hx)%list_elem_of_fmap]
                                   %list_elem_of_filter).
    simpl in *. exists x. split_and!; [done| |done|].
    + apply elem_of_app in Hx as [?|(x' & -> & ?)%list_elem_of_fmap]; eauto.
    + intros Hin. apply Hnot. by apply (Hadds [] (negate x)).
  - intros (y & Hn & Hor & -> & Hnot). exists ([], negate y). split; [done|].
    unfold rewritten, PropositionalAction_init. simpl.
    apply list_elem_of_fmap. exists ([], y). split; [done|].
    apply list_elem_of_filter. simpl. split.
    + split; [done|]. intros Hin. apply Hnot. by apply (Hadds [] (negate y)).
    + apply list_elem_of_fmap_2. apply elem_of_app.
      destruct Hor as [?|(x & ? & ->)]; [by left|right].
      by apply list_elem_of_fmap_2.
Qed.

Section complement_consistency.
Context (atoms : list Literal) (actions : list PropositionalAction)
  (init : list InitEntry) (ops : list PropositionalAction)
  (al : list (Literal * Literal)) (net : PetriNet).
Hypothesis Hstr : NoDup (str <$> (atoms ++ (complement_atom <$> atoms))).
Hypothesis Hgr : Forall (grounded_over atoms) actions.
Hypothesis Hcons : Forall (λ op, consistent (effects_of op)) actions.
Hypothesis Hrun :
  remove_negative_preconditions (get_safe_operators actions) = Some (ops, al).
Hypothesis Hnet : petri_mapping atoms al ops init = Some net.

(** The atoms and their complements: every literal the net is built from. *)
Local Abbreviation universe := (atoms ++ (complement_atom <$> atoms)).

Lemma str_inj_universe x y :
  x ∈ universe → y ∈ universe → str x = str y → x = y.
Proof. by apply NoDup_fmap_inj_on. Qed.

Lemma atom_not_complement a : a ∈ atoms → a ∉ complement_atom <$> atoms.
Proof.
  apply NoDup_fmap_1, NoDup_app in Hstr as (_ & Hdisj & _). apply Hdisj.
Qed.

Lemma atoms_NoDup : NoDup atoms.
Proof. by apply NoDup_fmap_1, NoDup_app in Hstr as (? & _ & _). Qed.

Lemma al_entry oa :
  oa ∈ al →
  negated oa.1 = true ∧ positive oa.1 ∈ atoms
  ∧ oa.2 = complement_atom (positive oa.1).
Proof.
  destruct (safe_pipeline _ _ _ _ Hgr Hcons Hrun) as (Hcd & _ & Hkeys & _).
  destruct oa as [k v]. intros Hin. simpl.
  destruct (Hkeys k) as [Hn Hp]; [by apply (list_elem_of_fmap_2 fst) in Hin|].
  destruct (Hcd k v Hin) as [_ ->].
  split_and!; [done..|]. by apply not_literal_complement.
Qed.

Lemma al_values_universe x : x ∈ al.*2 → x ∈ complement_atom <$> atoms.
Proof.
  intros (oa & -> & (_ & Hp & ->)%al_entry)%list_elem_of_fmap.
  by apply list_elem_of_fmap_2.
Qed.

Lemma al_values_NoDup : NoDup al.*2.
Proof.
  destruct (safe_pipeline _ _ _ _ Hgr Hcons Hrun) as (_ & Hnd & _).
  apply NoDup_fmap_1 in Hnd as Hnd'.
  apply NoDup_fmap_2_strong; [|done].
  intros oa ob Ha Hb Heq.
  destruct (al_entry _ Ha) as (Hna & _ & Hva).
  destruct (al_entry _ Hb) as (Hnb & _ & Hvb).
  rewrite Hva, Hvb in Heq. apply complement_atom_inj in Heq; [|done..].
  assert (oa.1 = ob.1) as Hk
    by by rewrite <-(negate_positive oa.1), <-(negate_positive ob.1), Heq.
  destruct oa as [k1 v1], ob as [k2 v2]. simpl in *. subst k2.
  f_equal. congruence.
Qed.

Lemma place_names_NoDup : NoDup (place_name <$> places net).
Proof.
  apply petri_mapping_Some in Hnet as [-> _]. unfold mapping_places.
  assert (place_name <$> (atom_place (clean_init init) <$> atoms)
                         ++ (added_place (clean_init init) <$> al)
          = str <$> (atoms ++ al.*2)) as ->.
  { rewrite !fmap_app, <-!list_fmap_compose. f_equal.
    - apply list_fmap_ext. intros _ a _. apply atom_place_spec.
    - apply list_fmap_ext. intros _ oa _. apply added_place_spec. }
  apply NoDup_fmap_2_strong.
  - intros x y Hx Hy. apply str_inj_universe.
    + apply elem_of_app in Hx as [?|?%al_values_universe]; apply elem_of_app; auto.
    + apply elem_of_app in Hy as [?|?%al_values_universe]; apply elem_of_app; auto.
  - apply NoDup_app. split_and!; [apply atoms_NoDup| |apply al_values_NoDup].
    intros x Hx Hv%al_values_universe. by apply (atom_not_complement x).
Qed.

Lemma initial_marking_atom a :
  a ∈ atoms →
  initial_marking net (str a) = if decide (a ∈ clean_init init) then 1 else 0.
Proof.
  intros Ha. destruct (atom_place_spec (clean_init init) a) as [<- <-].
  apply initial_marking_in; [apply place_names_NoDup|].
  apply petri_mapping_Some in Hnet as [-> _]. apply elem_of_app. left.
  by apply list_elem_of_fmap_2.
Qed.

Lemma initial_marking_added oa :
  oa ∈ al →
  initial_marking net (str oa.2)
  = if decide (positive oa.1 ∈ clean_init init) then 0 else 1.
Proof.
  intros Ha. destruct (added_place_spec (clean_init init) oa) as [<- <-].
  apply initial_marking_in; [apply place_names_NoDup|].
  apply petri_mapping_Some in Hnet as [-> _]. apply elem_of_app. right.
  by apply list_elem_of_fmap_2.
Qed.

Lemma initial_marking_safe nm : initial_marking net nm ≤ 1.
Proof.
  destruct (decide (nm ∈ place_name <$> places net)) as [Hin|Hnot].
  - apply list_elem_of_fmap in Hin as (place & -> & Hin).
    rewrite initial_marking_in by (done || apply place_names_NoDup).
    apply petri_mapping_Some in Hnet as [Hpl _]. rewrite Hpl in Hin.
    apply elem_of_app in Hin as [(a & -> & _)%list_elem_of_fmap
                                |(oa & -> & _)%list_elem_of_fmap].
    + destruct (atom_place_spec (clean_init init) a) as [_ ->].
      case_decide; lia.
    + destruct (added_place_spec (clean_init init) oa) as [_ ->].
      case_decide; lia.
  - rewrite initial_marking_notin by done. lia.
Qed.

(** Among literals of the universe, the strings decide membership. *)
Lemma str_elem_of (L : list Literal) q :
  (∀ y, y ∈ L → y ∈ universe) → q ∈ universe →
  str q ∈ str <$> L ↔ q ∈ L.
Proof.
  intros HL Hq. split; [|apply list_elem_of_fmap_2].
  intros (y & Heq & Hy)%list_elem_of_fmap.
  by rewrite (str_inj_universe q y) by auto.
Qed.

Lemma atom_universe a : a ∈ atoms → a ∈ universe.
Proof. intros ?. apply elem_of_app. by left. Qed.

Lemma complement_universe a : a ∈ atoms → complement_atom a ∈ universe.
Proof. intros ?. apply elem_of_app. right. by apply list_elem_of_fmap_2. Qed.

Section one_operator.
Context (op : PropositionalAction) (preconds : list Literal) (p : Literal).
Hypothesis Hsafe : safe_over atoms op preconds.
Hypothesis Hp : p ∈ atoms.
Hypothesis Hpos : negated p = false.

Local Abbreviation op' := (rewritten op preconds).
Local Abbreviation c := (complement_atom p).

Lemma adds_universe y : y ∈ (add_effects op').*2 → y ∈ universe.
Proof.
  destruct Hsafe as (_ & _ & He & _).
  intros [Hn [Hy|(x & Hx & ->)]]%rewritten_adds.
  - apply atom_universe. rewrite <-(positive_idemp y) by done. by apply He.
  - simpl in Hn. apply negb_false_iff in Hn.
    rewrite not_literal_complement by done.
    by apply complement_universe, He.
Qed.

Lemma dels_universe z : z ∈ (del_effects op').*2 → z ∈ universe.
Proof.
  destruct Hsafe as (_ & _ & He & _).
  intros (y & Hn & [Hy|(x & Hx & ->)] & -> & _)%rewritten_dels.
  - apply atom_universe. specialize (He y Hy).
    destruct y as [py ay ny]. simpl in *. by subst.
  - simpl in Hn. apply negb_true_iff in Hn. rewrite negate_not_literal by done.
    apply complement_universe. rewrite <-(positive_idemp x) by done.
    by apply He.
Qed.

Lemma atom_is_no_complement a : a ∈ atoms → p ≠ complement_atom a.
Proof.
  intros Ha ->. apply (atom_not_complement (complement_atom a)); [done|].
  by apply list_elem_of_fmap_2.
Qed.

Lemma complement_is_no_atom : c ∉ atoms.
Proof.
  intros Hc. apply (atom_not_complement c Hc). by apply list_elem_of_fmap_2.
Qed.

Lemma p_added : p ∈ (add_effects op').*2 ↔ p ∈ effects_of op.
Proof.
  destruct Hsafe as (_ & _ & He & _). rewrite rewritten_adds. split.
  - intros [_ [?|(x & Hx & Heq)]]; [done|].
    destruct (negated x) eqn:Hn.
    + rewrite not_literal_complement in Heq by done.
      by apply atom_is_no_complement in Heq; [|apply He].
    + rewrite Heq in Hpos. simpl in Hpos. by rewrite Hn in Hpos.
  - auto.
Qed.

Lemma c_added : c ∈ (add_effects op').*2 ↔ negate p ∈ effects_of op.
Proof.
  destruct Hsafe as (_ & _ & He & _). rewrite rewritten_adds. split.
  - intros [_ [Hc|(x & Hx & Heq)]].
    + destruct complement_is_no_atom. by apply He in Hc.
    + destruct (negated x) eqn:Hn.
      * rewrite not_literal_complement in Heq by done.
        apply complement_atom_inj in Heq; [|done..].
        by rewrite Heq, negate_positive.
      * apply (f_equal negated) in Heq. simpl in Heq.
        by rewrite Hn in Heq.
  - intros Hn. split; [done|]. right. exists (negate p). split; [done|].
    rewrite not_literal_complement by (simpl; by rewrite Hpos).
    by rewrite positive_negate, positive_idemp.
Qed.

Lemma p_deleted : p ∈ (del_effects op').*2 ↔ negate p ∈ effects_of op.
Proof.
  destruct Hsafe as (_ & _ & He & Hcons' & _).
  rewrite rewritten_dels. split.
  - intros (y & Hn & [Hy|(x & Hx & ->)] & Heq & _).
    + by rewrite Heq, negate_involutive.
    + simpl in Hn. apply negb_true_iff in Hn.
      rewrite negate_not_literal in Heq by done.
      apply atom_is_no_complement in Heq; [done|].
      rewrite <-(positive_idemp x) by done. by apply He.
  - intros Hn. exists (negate p). split_and!.
    + simpl. by rewrite Hpos.
    + by left.
    + by rewrite negate_involutive.
    + rewrite negate_involutive. intros Hin%p_added.
      apply (proj1 (consistent_spec _) Hcons' p Hin Hn).
Qed.

Lemma c_deleted : c ∈ (del_effects op').*2 ↔ p ∈ effects_of op.
Proof.
  destruct Hsafe as (_ & _ & He & Hcons' & _).
  rewrite rewritten_dels. split.
  - intros (y & Hn & [Hy|(x & Hx & ->)] & Heq & _).
    + destruct complement_is_no_atom. rewrite Heq.
      specialize (He y Hy). destruct y as [py ay ny]. simpl in *. by subst.
    + simpl in Hn. apply negb_true_iff in Hn.
      rewrite negate_not_literal in Heq by done.
      apply complement_atom_inj in Heq; [|done..]. by subst.
  - intros Hin. exists (not_literal p). split_and!.
    + simpl. by rewrite Hpos.
    + right. by exists p.
    + by rewrite negate_not_literal.
    + rewrite negate_not_literal by done. intros Hn%c_added.
      apply (proj1 (consistent_spec _) Hcons' p Hin Hn).
Qed.

Lemma p_required :
  p ∈ preconds →
  p ∈ (λ precond, if negated precond then not_literal precond else precond)
        <$> preconds.
Proof.
  intros Hin. apply list_elem_of_fmap. exists p. by rewrite Hpos.
Qed.

Lemma c_required :
  negate p ∈ preconds →
  c ∈ (λ precond, if negated precond then not_literal precond else precond)
        <$> preconds.
Proof.
  intros Hin. apply list_elem_of_fmap. exists (negate p). split; [|done].
  simpl. rewrite Hpos. simpl. unfold complement_atom, not_literal. simpl.
  by rewrite Hpos.
Qed.

End one_operator.

(** C6, amended.  Take a grounded task in which the string forms of the
    atoms and of their [not_] complements are pairwise different (so that no
    atom is named like the complement of another), every literal of every
    action is over an atom of the task, and no action has an effect
    together with its negation.  In the net that [get_safe_operators],
    [remove_negative_preconditions] and [petri_mapping] build for it, for
    every entry of the mapping, exactly one of the place of the original's
    atom and the place of the complement holds a token in the initial
    marking, and exactly one of them holds a token after any single enabled
    transition has fired from the initial marking. *)
Theorem C6_complement_consistency orig added :
  (orig, added) ∈ al →
  exactly_one (initial_marking net) (str (positive orig)) (str added) = true
  ∧ ∀ tran, tran ∈ transitions net →
      enabled tran (initial_marking net) = true →
      exactly_one (fire tran (initial_marking net))
                  (str (positive orig)) (str added) = true.
Proof.
  intros Hoa. destruct (al_entry _ Hoa) as (Hneg & Hp & Hadded).
  simpl in Hneg, Hp, Hadded. subst added.
  set (p := positive orig) in *.
  assert (negated p = false) as Hpos by done.
  assert (holds_token (initial_marking net) (str p)
          = bool_decide (p ∈ clean_init init)) as Hmp.
  { unfold holds_token. rewrite initial_marking_atom by done.
    destruct (decide (p ∈ clean_init init)) as [Hd|Hd].
    - by rewrite (bool_decide_eq_true_2 (p ∈ clean_init init) Hd).
    - by rewrite (bool_decide_eq_false_2 (p ∈ clean_init init) Hd). }
  assert (holds_token (initial_marking net) (str (complement_atom p))
          = negb (bool_decide (p ∈ clean_init init))) as Hmc.
  { unfold holds_token.
    pose proof (initial_marking_added (orig, complement_atom p) Hoa) as Hm.
    simpl in Hm. rewrite Hm. fold p.
    destruct (decide (p ∈ clean_init init)) as [Hd|Hd].
    - by rewrite (bool_decide_eq_true_2 (p ∈ clean_init init) Hd).
    - by rewrite (bool_decide_eq_false_2 (p ∈ clean_init init) Hd). }
  split.
  { unfold exactly_one. rewrite Hmp, Hmc. by destruct (bool_decide _). }
  intros tran [i Hi]%list_elem_of_lookup_1 Hen.
  pose proof Hnet as [_ Hall]%petri_mapping_Some.
  destruct (Forall2_lookup_r _ _ _ _ _ Hall Hi)
    as (op' & Hop'%list_elem_of_lookup_2 & Htran).
  destruct (safe_pipeline _ _ _ _ Hgr Hcons Hrun) as (_ & _ & _ & Hops).
  destruct (Hops op' Hop') as (op & preconds & Hsafe & ->).
  pose proof (mapping_dict_lookup_name (clean_init init) atoms al) as Hnames.
  destruct (holds_token_fire_names _ _ _ _ (str p) Hnames Htran
              initial_marking_safe Hen) as (pre1 & Hpre1 & Hop & Hfp).
  destruct (holds_token_fire_names _ _ _ _ (str (complement_atom p)) Hnames
              Htran initial_marking_safe Hen) as (pre2 & Hpre2 & Hoc & Hfc).
  assert (pre1 = (λ precond, if negated precond then not_literal precond
                             else precond) <$> preconds) as ->.
  { apply (inj (fmap CLit)). by rewrite <-Hpre1. }
  assert (pre2 = (λ precond, if negated precond then not_literal precond
                             else precond) <$> preconds) as ->.
  { apply (inj (fmap CLit)). by rewrite <-Hpre2. }
  clear Hpre1 Hpre2.
  rewrite (str_elem_of _ p (adds_universe op preconds Hsafe)
             (atom_universe p Hp)), (p_added op preconds p Hsafe Hp Hpos)
    in Hfp.
  rewrite (str_elem_of _ p (dels_universe op preconds Hsafe)
             (atom_universe p Hp)), (p_deleted op preconds p Hsafe Hp Hpos)
    in Hfp.
  rewrite (str_elem_of _ (complement_atom p) (adds_universe op preconds Hsafe)
             (complement_universe p Hp)),
    (c_added op preconds p Hsafe Hp Hpos) in Hfc.
  rewrite (str_elem_of _ (complement_atom p) (dels_universe op preconds Hsafe)
             (complement_universe p Hp)),
    (c_deleted op preconds p Hsafe Hp Hpos) in Hfc.
  assert (p ∈ preconds → holds_token (initial_marking net) (str p) = true)
    as Hop1.
  { intros Hin. apply Hop, list_elem_of_fmap_2. by apply p_required. }
  assert (negate p ∈ preconds →
          holds_token (initial_marking net) (str (complement_atom p)) = true)
    as Hoc1.
  { intros Hin. apply Hoc, list_elem_of_fmap_2. by apply c_required. }
  assert (p ∈ preconds →
          str p ∈ str <$> ((λ precond, if negated precond
                                       then not_literal precond else precond)
                             <$> preconds)) as Hop2.
  { intros Hin. apply list_elem_of_fmap_2. by apply p_required. }
  assert (negate p ∈ preconds →
          str (complement_atom p)
          ∈ str <$> ((λ precond, if negated precond
                                 then not_literal precond else precond)
                       <$> preconds)) as Hoc2.
  { intros Hin. apply list_elem_of_fmap_2. by apply c_required. }
  destruct Hsafe as (_ & _ & _ & Hcons' & Hsafety).
  pose proof (proj1 (consistent_spec _) Hcons' p) as Hc1.
  pose proof (Hsafety p) as Hs1. pose proof (Hsafety (negate p)) as Hs2.
  rewrite negate_involutive in Hs2.
  assert (∀ b1 b2 : bool, (b1 = true ↔ b2 ≠ true) → xorb b1 b2 = true)
    as Hxor by (intros [] []; simpl; intuition congruence).
  unfold exactly_one. apply Hxor. rewrite Hfp, Hfc, Hmp, Hmc in *.
  clear Hfp Hfc Hmp Hmc Hxor Hop Hoc.
  destruct (bool_decide (p ∈ clean_init init)); simpl in *;
    destruct (decide (p ∈ effects_of op));
    destruct (decide (negate p ∈ effects_of op));
    destruct (decide (p ∈ preconds));
    destruct (decide (negate p ∈ preconds));
    intuition congruence.
Qed.

End complement_consistency.

Lemma C6_complement_consistency_witness :
  exactly_one (initial_marking hickmott_net)
              (str (positive (negate (atom "d")))) (str (atom "not_d")) = true
  ∧ ∀ tran, tran ∈ transitions hickmott_net →
      enabled tran (initial_marking hickmott_net) = true →
      exactly_one (fire tran (initial_marking hickmott_net))
                  (str (positive (negate (atom "d")))) (str (atom "not_d"))
      = true.
Proof.
  assert (∃ ops al,
            remove_negative_preconditions (get_safe_operators [hickmott_x])
            = Some (ops, al)
            ∧ petri_mapping hickmott_atoms al ops hickmott_init
              = Some hickmott_net
            ∧ (negate (atom "d"), atom "not_d") ∈ al)
    as (ops & al & Hrun & Hnet & Hin).
  { eexists _, _. split_and!.
    - vm_compute. reflexivity.
    - vm_compute. reflexivity.
    - compute_done. }
  apply (C6_complement_consistency hickmott_atoms [hickmott_x] hickmott_init
           ops al hickmott_net).
  - compute_done.
  - compute_done.
  - compute_done.
  - exact Hrun.
  - exact Hnet.
  - exact Hin.
Defined.

(** C6 as worded does not hold: with the atoms [b] and [not_b], the
    transition of the action that adds [b] deletes the complement of [b],
    which is the atom [not_b]; it is enabled in the initial marking, and
    after it neither [not_b] nor its complement [not_not_b] holds a token. *)
Lemma C6_prefix_clash_counterexample :
  ∃ safe_operators additional_literals net tran,
    remove_negative_preconditions (get_safe_operators clash_actions)
    = Some (safe_operators, additional_literals)
    ∧ petri_mapping clash_atoms additional_literals safe_operators clash_init
      = Some net
    ∧ (negate (atom "not_b"), atom "not_not_b") ∈ additional_literals
    ∧ tran ∈ transitions net
    ∧ enabled tran (initial_marking net) = true
    ∧ exactly_one (initial_marking net)
                  (str (atom "not_b")) (str (atom "not_not_b")) = true
    ∧ exactly_one (fire tran (initial_marking net))
                  (str (atom "not_b")) (str (atom "not_not_b")) = false.
Proof.
  eexists _, _, _, _. split_and!.
  - vm_compute. reflexivity.
  - vm_compute. reflexivity.
  - by left.
  - by left.
  - by vm_compute.
  - by vm_compute.
  - by vm_compute.
Qed.

(** * Further properties *)

(** ** The example of the test file *)

(** The example runs through: the two translation steps give the net
    [hickmott_net]. *)
Lemma hickmott_run :
  ∃ ops al,
    remove_negative_preconditions (get_safe_operators [hickmott_x])
    = Some (ops, al)
    ∧ petri_mapping hickmott_atoms al ops hickmott_init = Some hickmott_net.
Proof.
  destruct (remove_negative_preconditions (get_safe_operators [hickmott_x]))
    as [[ops al]|] eqn:Hrun; [|by vm_compute in Hrun].
  exists ops, al. split; [done|].
  vm_compute in Hrun. injection Hrun as <- <-. vm_compute. reflexivity.
Qed.

Lemma hickmott_translate :
  ∃ task, sas_translate hickmott_net (CLit (atom "d")) = Some task.
Proof.
  destruct (sas_translate hickmott_net (CLit (atom "d"))) as [task|] eqn:Hrun;
    [by exists task|by vm_compute in Hrun].
Qed.

(** ** Literals *)

Lemma negate_inj l1 l2 : negate l1 = negate l2 → l1 = l2.
Proof. intros H. by rewrite <-(negate_involutive l1), H, negate_involutive. Qed.

(** ** The power set, continued *)

(** The lists of [f a], [f (a + 1)], ... come in the order of their lengths
    when every list of [f r] has length [r]. *)
Lemma bind_seq_lengths_sorted {A} (f : nat → list (list A)) a n :
  (∀ r l, l ∈ f r → length l = r) →
  StronglySorted (λ l1 l2, length l1 ≤ length l2) (seq a n ≫= f)
  ∧ ∀ l, l ∈ seq a n ≫= f → a ≤ length l.
Proof.
  intros Hf. revert a. induction n as [|n IH]; intros a.
  - split; [constructor|]. by intros l ?%elem_of_nil.
  - cbn [seq]. rewrite bind_cons. destruct (IH (S a)) as [Hs Hlow]. split.
    + apply StronglySorted_app_2; [| |done].
      * intros l1 l2 H1 H2. rewrite (Hf _ _ H1). specialize (Hlow _ H2). lia.
      * assert (∀ l, l ∈ f a → length l = a) as Hla by apply Hf.
        induction (f a) as [|x xs IHx]; constructor.
        -- apply IHx. intros l Hl. apply Hla. by right.
        -- apply Forall_forall. intros y Hy.
           rewrite (Hla x), (Hla y) by (by left || by right). done.
    + intros l [H1|H2]%elem_of_app.
      * by rewrite (Hf _ _ H1).
      * specialize (Hlow _ H2). lia.
Qed.

Lemma StronglySorted_lookup_le {A} (R : relation A) (l : list A) i j x y :
  StronglySorted R l → i < j → l !! i = Some x → l !! j = Some y → R x y.
Proof.
  intros Hs. revert i j. induction Hs as [|z l Hs IH Hall]; intros i j Hij.
  - by rewrite lookup_nil.
  - destruct i as [|i], j as [|j]; try lia; simpl.
    + intros [= ->] Hy. rewrite Forall_forall in Hall.
      apply Hall. by eapply list_elem_of_lookup_2.
    + apply IH. lia.
Qed.

(** X1. The lists that [powerset s] yields are exactly the subsequences of
    [s]; there are 2^|s| of them, and no list is yielded twice when [s] has
    no repeated element. *)
Theorem X1_powerset_subsequences {A} (s l : list A) :
  (l ∈ powerset s ↔ l `sublist_of` s)
  ∧ length (powerset s) = 2 ^ length s
  ∧ (NoDup s → NoDup (powerset s)).
Proof.
  split_and!; [apply elem_of_powerset|apply powerset_length|apply powerset_NoDup].
Qed.

(** X2. [powerset s] yields the empty list first and never a shorter list
    after a longer one. *)
Theorem X2_powerset_order {A} (s : list A) :
  powerset s !! 0 = Some []
  ∧ ∀ i j li lj, i ≤ j → powerset s !! i = Some li → powerset s !! j = Some lj →
      length li ≤ length lj.
Proof.
  split_and!.
  - unfold powerset. rewrite Nat.add_1_r. cbn [seq]. rewrite bind_cons.
    by rewrite combinations_0.
  - intros i j li lj Hij Hi Hj.
    destruct (decide (i = j)) as [->|Hne]; [by simplify_eq|].
    destruct (bind_seq_lengths_sorted (combinations s) 0 (length s + 1))
      as [Hs _]; [apply combinations_length_elem|].
    apply (StronglySorted_lookup_le _ _ i j li lj Hs); [lia|done..].
Qed.

(** ** Flattened preconditions *)

(** A part of a precondition stands for itself. *)
Lemma parts_of_part pre c :
  c ∈ preconditions_atoms pre → parts_of c = [c].
Proof.
  unfold preconditions_atoms. intros (c' & Hc & _)%list_elem_of_bind.
  destruct c' as [l|[|p ps]]; unfold parts_of in Hc.
  - by apply list_elem_of_singleton in Hc as ->.
  - by apply list_elem_of_singleton in Hc as ->.
  - by apply list_elem_of_fmap in Hc as (l & -> & _).
Qed.

Lemma preconditions_atoms_parts pre :
  (∀ c, c ∈ pre → parts_of c = [c]) → preconditions_atoms pre = pre.
Proof.
  unfold preconditions_atoms. induction pre as [|c pre IH]; intros Hpre; [done|].
  rewrite bind_cons, (Hpre c), IH; [done| |by left].
  intros c' ?. apply Hpre. by right.
Qed.

(** X3. Flattening a flattened precondition changes nothing, and
    [not_negated_effect] answers the same on a precondition and on its
    flattened form. *)
Theorem X3_flattening_idempotent preconditions eff :
  preconditions_atoms (preconditions_atoms preconditions)
  = preconditions_atoms preconditions
  ∧ not_negated_effect eff (preconditions_atoms preconditions)
    = not_negated_effect eff preconditions.
Proof.
  assert (preconditions_atoms (preconditions_atoms preconditions)
          = preconditions_atoms preconditions) as Hidem.
  { apply preconditions_atoms_parts. intros c. apply parts_of_part. }
  split; [done|].
  apply eq_true_iff_eq. by rewrite !not_negated_effect_true, Hidem.
Qed.

(** X27. [not_negated_effect] answers the same for an effect and for its
    negation, and on two precondition lists put together it answers [True]
    exactly when it does on both. *)
Theorem X27_not_negated_effect_polarity eff preconditions more :
  not_negated_effect (negate eff) preconditions
  = not_negated_effect eff preconditions
  ∧ not_negated_effect eff (preconditions ++ more)
    = not_negated_effect eff preconditions && not_negated_effect eff more.
Proof.
  split.
  - apply eq_true_iff_eq.
    rewrite !not_negated_effect_true, negate_involutive. tauto.
  - unfold not_negated_effect. by rewrite forallb_app.
Qed.

(** ** Safe-operator expansion, continued *)

Lemma safe_operators_of_length op :
  length (safe_operators_of op) = 2 ^ length (not_negated_effects op).
Proof.
  destruct (decide (not_negated_effects op = [])) as [Hnil|Hne].
  - unfold safe_operators_of. by rewrite Hnil.
  - by rewrite safe_operators_of_expand, length_imap, powerset_length.
Qed.

Lemma safe_operators_of_settled op :
  not_negated_effects op = [] → safe_operators_of op = [op].
Proof. unfold safe_operators_of. by intros ->. Qed.

Lemma get_safe_operators_length operators :
  length (get_safe_operators operators)
  = sum_list_with (λ op, 2 ^ length (not_negated_effects op)) operators.
Proof.
  induction operators as [|op ops IH]; [done|].
  rewrite get_safe_operators_cons, length_app, safe_operators_of_length, IH.
  done.
Qed.

(** The precondition of a generated operator is flat. *)
Lemma safe_operator_flat op i eprime :
  eprime ⊆ not_negated_effects op →
  preconditions_atoms (precondition (safe_operator op i eprime))
  = precondition (safe_operator op i eprime).
Proof.
  intros Hsub. apply preconditions_atoms_parts.
  intros c [Hc|(x & _ & [[_ ->]|[_ ->]])]%precondition_safe_operator; [|done..].
  by eapply parts_of_part.
Qed.

(** The effects of a generated operator are among the settled effects and
    the chosen subset, whether or not the effects are consistent. *)
Lemma effects_of_safe_operator_sub op i eprime x :
  x ∈ effects_of (safe_operator op i eprime) →
  x ∈ negated_effects op ∨ x ∈ eprime.
Proof.
  unfold safe_operator. intros [Hx _]%elem_of_effects_of_init_nil.
  by rewrite elem_of_elements, elem_of_union, elem_of_list_to_set in Hx.
Qed.

(** Every effect of a generated operator, or its negation, is one of the
    operator's preconditions. *)
Lemma safe_operator_settled op i eprime :
  eprime ⊆ not_negated_effects op →
  not_negated_effects (safe_operator op i eprime) = [].
Proof.
  intros Hsub. apply elem_of_nil_inv. intros x.
  rewrite elem_of_not_negated_effects, safe_operator_flat by done.
  intros ([Hs|He]%effects_of_safe_operator_sub & Hn1 & Hn2).
  - apply elem_of_negated_effects in Hs as [_ [H1|H2]].
    + apply Hn1, precondition_safe_operator; [done|]. by left.
    + apply Hn2, precondition_safe_operator; [done|]. by left.
  - apply Hn2, precondition_safe_operator; [done|]. right.
    exists x. split; [by apply Hsub|]. by left.
Qed.

Lemma safe_operators_of_all_settled op o :
  o ∈ safe_operators_of op → not_negated_effects o = [].
Proof.
  destruct (decide (not_negated_effects op = [])) as [Hnil|Hne].
  - rewrite safe_operators_of_settled by done.
    by intros ->%list_elem_of_singleton.
  - intros [i (eprime & Hi & ->)%safe_operators_of_lookup]%list_elem_of_lookup_1;
      [|done].
    apply safe_operator_settled, sublist_subseteq, elem_of_powerset.
    by eapply list_elem_of_lookup_2.
Qed.

Lemma get_safe_operators_settled ops :
  Forall (λ op, not_negated_effects op = []) ops → get_safe_operators ops = ops.
Proof.
  induction 1 as [|op ops Hop _ IH]; [done|].
  by rewrite get_safe_operators_cons, safe_operators_of_settled, IH.
Qed.

(** X4. [get_safe_operators] returns, in total, 2^k operators for every
    operator with k unsettled effects (one for an operator that has none).
    *)
Theorem X4_get_safe_operators_length operators :
  length (get_safe_operators operators)
  = sum_list_with (λ op, 2 ^ length (not_negated_effects op)) operators.
Proof. apply get_safe_operators_length.
Qed.

(** X5. Every operator that [get_safe_operators] returns has all its effects
    settled, so a second run returns the list unchanged. *)
Theorem X5_get_safe_operators_idempotent operators :
  get_safe_operators (get_safe_operators operators)
  = get_safe_operators operators.
Proof.
  apply get_safe_operators_settled, Forall_forall.
  intros o (op & Ho & _)%list_elem_of_bind.
  by eapply safe_operators_of_all_settled.
Qed.

(** X6. Operators all of whose effects are settled by their preconditions
    (the effect or its negation is a precondition part) are returned as they
    are, in order; an operator without effects is one of them. *)
Theorem X6_settled_operators_pass_through operators :
  Forall (λ op, ∀ x, x ∈ effects_of op →
                     CLit x ∈ preconditions_atoms (precondition op)
                     ∨ CLit (negate x) ∈ preconditions_atoms (precondition op))
         operators →
  get_safe_operators operators = operators.
Proof.
  intros Hall. apply get_safe_operators_settled.
  eapply Forall_impl; [exact Hall|]. intros op Hop. simpl in Hop.
  apply elem_of_nil_inv. intros x (Hx & H1 & H2)%elem_of_not_negated_effects.
  destruct (Hop x Hx); done.
Qed.

Lemma X6_settled_operators_pass_through_witness :
  get_safe_operators [wrapped_settled_op] = [wrapped_settled_op].
Proof.
  apply X6_settled_operators_pass_through.
  constructor; [|constructor]. intros x Hx. right.
  assert (effects_of wrapped_settled_op = [negate (atom "a")]) as Heff
    by by vm_compute.
  rewrite Heff in Hx. apply list_elem_of_singleton in Hx as ->.
  by left.
Defined.

(** X7. If the effects of an operator are consistent and no part of its
    precondition is there together with its negation, then no operator
    generated for it requires a literal together with its negation. *)
Theorem X7_safe_precondition_consistent before op after :
  consistent (effects_of op) →
  (∀ l, CLit l ∈ preconditions_atoms (precondition op) →
        CLit (negate l) ∉ preconditions_atoms (precondition op)) →
  ∃ produced,
    get_safe_operators (before ++ op :: after)
    = get_safe_operators before ++ produced ++ get_safe_operators after
    ∧ ∀ o l, o ∈ produced →
        CLit l ∈ preconditions_atoms (precondition o) →
        CLit (negate l) ∉ preconditions_atoms (precondition o).
Proof.
  intros Hcons Hpre. exists (safe_operators_of op).
  split; [apply get_safe_operators_middle|]. intros o l Ho.
  destruct (decide (not_negated_effects op = [])) as [Hnil|Hne].
  { rewrite safe_operators_of_settled in Ho by done.
    apply list_elem_of_singleton in Ho as ->. apply Hpre. }
  apply list_elem_of_lookup_1 in Ho as [i Hi].
  apply safe_operators_of_lookup in Hi as (eprime & Hi & ->); [|done].
  assert (eprime ⊆ not_negated_effects op) as Hsub.
  { apply sublist_subseteq, elem_of_powerset. by eapply list_elem_of_lookup_2. }
  rewrite safe_operator_flat by done.
  pose proof (proj1 (consistent_spec _) Hcons) as Hc.
  assert (∀ x, x ∈ not_negated_effects op → negate x ∉ not_negated_effects op)
    as Hamb.
  { intros x [Hx _]%elem_of_not_negated_effects
             [Hn _]%elem_of_not_negated_effects. by apply (Hc x). }
  intros [H1|(x & Hx & Hor1)]%precondition_safe_operator
         [H2|(y & Hy & Hor2)]%precondition_safe_operator; try done.
  - by apply (Hpre l).
  - apply elem_of_not_negated_effects in Hy as (_ & Hy1 & Hy2).
    destruct Hor2 as [[_ Heq%(inj CLit)]|[_ Heq%(inj CLit)]].
    + apply negate_inj in Heq as ->. done.
    + rewrite <-Heq, negate_involutive in Hy2. done.
  - apply elem_of_not_negated_effects in Hx as (_ & Hx1 & Hx2).
    destruct Hor1 as [[_ ->%(inj CLit)]|[_ ->%(inj CLit)]].
    + rewrite negate_involutive in H2. done.
    + done.
  - destruct Hor1 as [[Hxe ->%(inj CLit)]|[Hxe ->%(inj CLit)]];
      destruct Hor2 as [[Hye Heq%(inj CLit)]|[Hye Heq%(inj CLit)]].
    + apply negate_inj in Heq. subst y. by apply (Hamb x).
    + rewrite negate_involutive in Heq. by subst.
    + apply negate_inj in Heq. by subst.
    + subst y. by apply (Hamb x).
Qed.

Lemma X7_safe_precondition_consistent_witness :
  ∃ produced,
    get_safe_operators ([] ++ hickmott_x :: [])
    = get_safe_operators [] ++ produced ++ get_safe_operators []
    ∧ ∀ o l, o ∈ produced →
        CLit l ∈ preconditions_atoms (precondition o) →
        CLit (negate l) ∉ preconditions_atoms (precondition o).
Proof.
  apply (X7_safe_precondition_consistent [] hickmott_x []).
  - compute_done.
  - assert (preconditions_atoms (precondition hickmott_x)
            = [CLit (atom "a"); CLit (negate (atom "b"))]) as Hpre
      by by vm_compute.
    rewrite Hpre. intros l Hl Hn.
    apply elem_of_cons in Hl as [Hl|Hl%list_elem_of_singleton];
      injection Hl as ->;
      apply elem_of_cons in Hn as [Hn|Hn%list_elem_of_singleton];
      discriminate Hn.
Defined.

(** ** Polarity elimination, continued *)

Lemma remove_negative_loop_literals al ops r :
  complement_dict al →
  remove_negative_loop al ops = Some r →
  Forall (λ op, ∃ preconds, precondition op = CLit <$> preconds) ops.
Proof.
  destruct r as [ops' al']. intros Hal (_ & _ & _ & Hall)%remove_negative_loop_spec;
    [|done].
  induction Hall as [|op op' ops ops' (preconds & Hpre & _) _ IH];
    constructor; eauto.
Qed.

Lemma remove_negative_preconditions_is_Some safe_operators :
  is_Some (remove_negative_preconditions safe_operators)
  ↔ Forall (λ op, ∃ preconds, precondition op = CLit <$> preconds)
           safe_operators.
Proof.
  split.
  - intros [r Hr]. eapply remove_negative_loop_literals; [|exact Hr].
    apply complement_dict_nil.
  - apply remove_negative_preconditions_total.
Qed.

(** X8. [remove_negative_preconditions] completes exactly when every
    precondition entry of every operator is a bare literal; on any other
    entry the access to [negated] raises. *)
Theorem X8_remove_negative_preconditions_defined safe_operators :
  is_Some (remove_negative_preconditions safe_operators)
  ↔ Forall (λ op, ∃ preconds, precondition op = CLit <$> preconds)
           safe_operators.
Proof. apply remove_negative_preconditions_is_Some.
Qed.

(** X9. In the mapping that [remove_negative_preconditions] returns no key
    is repeated, every key is a negated literal, its value is the complement
    literal and looking the key up gives that value; the keys are exactly
    the negated literals among the preconditions and effects of the
    operators. *)
Theorem X9_mapping_entries safe_operators ops additional_literals :
  remove_negative_preconditions safe_operators
  = Some (ops, additional_literals) →
  NoDup additional_literals.*1
  ∧ (∀ key value, (key, value) ∈ additional_literals →
       negated key = true ∧ value = not_literal key
       ∧ dict_get additional_literals key = Some value)
  ∧ ∀ key, key ∈ additional_literals.*1
           ↔ negated key = true
             ∧ ∃ op, op ∈ safe_operators
                     ∧ (CLit key ∈ precondition op ∨ key ∈ effects_of op).
Proof.
  intros H.
  pose proof H as (Hal & Hnd & Hkeys & Hall)%remove_negative_loop_spec;
    [|apply complement_dict_nil].
  split; [apply Hnd; constructor|]. split.
  - intros key value Hin. destruct (Hal key value Hin) as [Hneg ->].
    split; [done|]. split; [done|].
    apply dict_get_complement; [done|].
    apply list_elem_of_fmap. by exists (key, not_literal key).
  - intros key. rewrite Hkeys. split.
    + intros [[]%elem_of_nil|(op & preconds & Hop & Hpre & Hk & Hneg)].
      split; [done|]. exists op. split; [done|].
      apply elem_of_app in Hk as [Hk|Hk]; [left|by right].
      rewrite Hpre. apply list_elem_of_fmap. by exists key.
    + intros (Hneg & op & Hop & Hk). right.
      apply list_elem_of_lookup_1 in Hop as [i Hi].
      destruct (Forall2_lookup_l _ _ _ _ _ Hall Hi)
        as (op' & _ & preconds & Hpre & _).
      exists op, preconds. split; [by eapply list_elem_of_lookup_2|].
      split; [done|]. split; [|done].
      apply elem_of_app. destruct Hk as [Hk|Hk]; [left|by right].
      rewrite Hpre in Hk.
      by apply list_elem_of_fmap in Hk as (l & ->%(inj CLit) & Hl).
Qed.

Lemma X9_mapping_entries_witness :
  ∃ ops al,
    remove_negative_preconditions (get_safe_operators [hickmott_x])
    = Some (ops, al)
    ∧ NoDup al.*1
    ∧ ∀ key value, (key, value) ∈ al → value = not_literal key.
Proof.
  destruct (remove_negative_preconditions (get_safe_operators [hickmott_x]))
    as [[ops al]|] eqn:Hrun; [|by vm_compute in Hrun].
  exists ops, al. split; [done|].
  destruct (X9_mapping_entries _ _ _ Hrun) as (Hnd & Hent & _).
  split; [exact Hnd|]. intros key value Hin.
  exact (proj1 (proj2 (Hent key value Hin))).
Defined.

Lemma remove_dups_NoDup {A} `{EqDecision A} (l : list A) :
  NoDup l → remove_dups l = l.
Proof.
  induction 1 as [|x l Hx _ IH]; [done|].
  simpl. destruct (decide_rel (∈) x l); [done|]. by rewrite IH.
Qed.

Lemma remove_dups_middle {A} `{EqDecision A} (l1 l2 : list A) x :
  x ∈ l2 → remove_dups (l1 ++ x :: l2) = remove_dups (l1 ++ l2).
Proof.
  intros Hx. induction l1 as [|y l1 IH].
  - simpl. by destruct (decide_rel (∈) x l2).
  - simpl. rewrite IH.
    destruct (decide_rel (∈) y (l1 ++ x :: l2)) as [Hy|Hy],
             (decide_rel (∈) y (l1 ++ l2)) as [Hy'|Hy']; try done.
    + exfalso. apply Hy'. rewrite elem_of_app in Hy |- *.
      rewrite elem_of_cons in Hy. destruct Hy as [?|[->|?]]; auto.
    + exfalso. apply Hy. rewrite elem_of_app in Hy' |- *.
      rewrite elem_of_cons. tauto.
Qed.

Lemma remove_dups_reverse_length {A} `{EqDecision A} (l : list A) :
  length (remove_dups (reverse l)) = length (remove_dups l).
Proof.
  apply Permutation_length, NoDup_Permutation; [apply NoDup_remove_dups..|].
  intros x. by rewrite !elem_of_remove_dups, elem_of_reverse.
Qed.

(** The keys of the mapping after recording [ls] are the old keys followed
    by the negated entries of [ls], each at its first occurrence. *)
Lemma record_negated_keys al ls :
  NoDup al.*1 →
  (record_negated al ls).*1
  = reverse (remove_dups
               (reverse (al.*1 ++ filter (λ l, negated l = true) ls))).
Proof.
  revert al. induction ls as [|l ls IH]; intros al Hnd.
  - simpl. rewrite filter_nil, app_nil_r.
    rewrite remove_dups_NoDup by by rewrite reverse_Permutation.
    by rewrite reverse_involutive.
  - assert (record_negated al (l :: ls)
            = record_negated (if negated l then dict_set l (not_literal l) al
                              else al) ls) as -> by done.
    rewrite filter_cons. destruct (decide (negated l = true)) as [Hneg|Hneg].
    + rewrite Hneg, IH by by apply dict_set_keys_NoDup.
      rewrite dict_set_keys. destruct (decide (l ∈ al.*1)) as [Hin|Hin].
      * rewrite !reverse_app, reverse_cons, <-!app_assoc. simpl.
        rewrite remove_dups_middle; [done|]. by apply elem_of_reverse.
      * by rewrite <-app_assoc.
    + apply not_true_is_false in Hneg. rewrite Hneg. by apply IH.
Qed.

Lemma record_negated_app al ls1 ls2 :
  record_negated (record_negated al ls1) ls2 = record_negated al (ls1 ++ ls2).
Proof. unfold record_negated. by rewrite foldl_app. Qed.

Lemma omap_literal_of (ls : list Literal) :
  omap literal_of (CLit <$> ls) = ls.
Proof.
  induction ls as [|l ls IH]; [done|]. rewrite fmap_cons. cbn [omap list_omap].
  simpl. by rewrite IH.
Qed.

(** The loop records the preconditions and the effects of the operators, one
    operator after the other. *)
Lemma remove_negative_loop_mapping al ops ops' al' :
  complement_dict al →
  remove_negative_loop al ops = Some (ops', al') →
  al' = record_negated al
          (ops ≫= λ op, omap literal_of (precondition op) ++ effects_of op).
Proof.
  revert al ops'. induction ops as [|op ops IH]; intros al ops' Hal.
  - simpl. by intros [= _ <-].
  - rewrite bind_cons. cbn [remove_negative_loop]. intros H.
    apply bind_Some in H as ([op1 al1] & Hop & H).
    apply bind_Some in H as ([rest al2] & Hrest & [= _ <-]).
    pose proof (remove_negative_op_complement_dict _ _ _ _ Hal Hop) as Hal1.
    apply remove_negative_op_Some in Hop as (preconds & Hpre & _ & ->);
      [|done].
    apply IH in Hrest; [|done]. rewrite Hrest, Hpre, omap_literal_of.
    by rewrite !record_negated_app, <-?app_assoc.
Qed.

Lemma remove_negative_preconditions_mapping safe_operators ops al :
  remove_negative_preconditions safe_operators = Some (ops, al) →
  al = (λ key, (key, not_literal key))
         <$> reverse (remove_dups (reverse
               (filter (λ l, negated l = true)
                  (safe_operators
                     ≫= λ op, omap literal_of (precondition op)
                              ++ effects_of op)))).
Proof.
  intros H.
  pose proof H as (Hcd & _)%remove_negative_loop_spec;
    [|apply complement_dict_nil].
  apply remove_negative_loop_mapping in H; [|apply complement_dict_nil].
  pose proof (record_negated_keys [] (safe_operators
         ≫= λ op, omap literal_of (precondition op) ++ effects_of op))
    as Hkeys.
  rewrite <-H in Hkeys. simpl in Hkeys.
  rewrite <-Hkeys by constructor. clear -Hcd.
  induction al as [|[k v] al IH]; [done|].
  rewrite !fmap_cons. simpl.
  destruct (Hcd k v) as [_ ->]; [by left|]. f_equal.
  apply IH. intros k' v' Hin. apply Hcd. by right.
Qed.

(** X10. The mapping lists the negated preconditions and effects of the
    operators in the order of their first occurrence, each with its
    complement literal. *)
Theorem X10_mapping_order safe_operators ops additional_literals :
  remove_negative_preconditions safe_operators
  = Some (ops, additional_literals) →
  let recorded :=
    filter (λ l, negated l = true)
      (safe_operators
         ≫= λ op, omap literal_of (precondition op) ++ effects_of op) in
  additional_literals
  = (λ key, (key, not_literal key))
      <$> reverse (remove_dups (reverse recorded)).
Proof.
  intros H recorded. by apply remove_negative_preconditions_mapping in H.
Qed.

Lemma X10_mapping_order_witness :
  ∃ ops al,
    remove_negative_preconditions (get_safe_operators [hickmott_x])
    = Some (ops, al)
    ∧ length al = 3.
Proof.
  destruct (remove_negative_preconditions (get_safe_operators [hickmott_x]))
    as [[ops al]|] eqn:Hrun; [|by vm_compute in Hrun].
  exists ops, al. split; [done|].
  pose proof (X10_mapping_order _ _ _ Hrun) as Hal. cbv zeta in Hal.
  rewrite Hal. by vm_compute.
Defined.

Lemma negate_not_literal_eq a b :
  negate (not_literal a) = not_literal b → a = negate b.
Proof.
  destruct a as [pa aa na], b as [pb ab nb]. unfold negate, not_literal. simpl.
  intros [= Hp -> Hn]. f_equal; [exact Hp|]. by destruct na, nb.
Qed.

(** The del-effects of a rewritten operator whose effects are consistent
    and complement-free. *)
Lemma rewritten_dels_free op preconds z :
  consistent (effects_of op) → complement_free (effects_of op) →
  z ∈ (del_effects (rewritten op preconds)).*2
  ↔ negated z = false
    ∧ (negate z ∈ effects_of op
       ∨ ((z ∉ effects_of op)
          ∧ ∃ x, x ∈ effects_of op ∧ negate z = not_literal x)).
Proof.
  intros Hcons Hfree. pose proof (proj1 (consistent_spec _) Hcons) as Hc.
  unfold complement_free in Hfree. rewrite Forall_forall in Hfree.
  rewrite rewritten_dels. split.
  - intros (y & Hneg & Hy & -> & Hna). rewrite negate_involutive.
    assert (negated (negate y) = false) as Hpos
      by (destruct y as [p a []]; done).
    split; [done|]. destruct Hy as [Hy|(x & Hx & ->)]; [by left|right].
    split; [|by exists x]. intros Hin. apply Hna, rewritten_adds.
    split; [done|]. by left.
  - intros (Hpos & Hz). exists (negate z). rewrite negate_involutive.
    assert (negated (negate z) = true) as Hneg
      by (destruct z as [p a []]; done).
    split; [done|]. split; [|split; [done|]].
    { destruct Hz as [Hz|[_ Hz]]; [by left|by right]. }
    intros [_ [Hadd|(x' & Hx' & ->)]]%rewritten_adds.
    + destruct Hz as [Hz|[Hnz _]]; [|done]. by apply (Hc z).
    + assert (negated x' = true) as Hneg'
        by (destruct x' as [p a []]; done).
      destruct Hz as [Hz|[_ (x & Hx & Heq)]].
      * by apply (Hfree x' Hx' Hneg').
      * apply negate_not_literal_eq in Heq as ->. by apply (Hc x).
Qed.

(** X11.  [remove_negative_preconditions] keeps the number, order, names and
    costs of the operators.  A positive precondition stays, a negated one is
    replaced by the value the mapping holds for it.  The add-effects are the
    positive effects and the complements of the negative ones.  For an
    operator whose effects hold no literal with its negation and no
    negative effect together with the negative effect on its complement
    atom, the del-effects are the atoms of the negative effects and the
    complement atoms of those positive effects whose complement atom is not
    itself a positive effect. *)
Theorem X11_rewritten_operators safe_operators ops additional_literals :
  remove_negative_preconditions safe_operators
  = Some (ops, additional_literals) →
  Forall2 (λ op op',
    name op' = name op
    ∧ cost op' = cost op
    ∧ Forall2 (λ c c', ∃ l, c = CLit l
                 ∧ ((negated l = false ∧ c' = c)
                    ∨ (negated l = true
                       ∧ dict_get additional_literals l = Some (not_literal l)
                       ∧ c' = CLit (not_literal l))))
              (precondition op) (precondition op')
    ∧ (∀ y, y ∈ (add_effects op').*2
            ↔ negated y = false
              ∧ (y ∈ effects_of op
                 ∨ ∃ x, x ∈ effects_of op ∧ y = not_literal x))
    ∧ (consistent (effects_of op) → complement_free (effects_of op) →
       ∀ z, z ∈ (del_effects op').*2
            ↔ negated z = false
              ∧ (negate z ∈ effects_of op
                 ∨ ((z ∉ effects_of op)
                    ∧ ∃ x, x ∈ effects_of op ∧ negate z = not_literal x))))
    safe_operators ops.
Proof.
  intros H.
  pose proof H as (Hal & _ & Hkeys & Hall)%remove_negative_loop_spec;
    [|apply complement_dict_nil].
  apply Forall2_same_length_lookup_2; [by eapply Forall2_length|].
  intros i op op' Hi Hi'.
  destruct (Forall2_lookup_lr _ _ _ _ _ _ Hall Hi Hi') as (preconds & Hpre & ->).
  assert (op ∈ safe_operators) as Hop by by eapply list_elem_of_lookup_2.
  split; [done|]. split; [done|]. split; [|split].
  - unfold rewritten. simpl. rewrite Hpre.
    apply Forall2_fmap, Forall2_fmap_r, Forall_Forall2_diag, Forall_forall.
    intros l Hl. exists l. split; [done|]. simpl.
    destruct (negated l) eqn:Hneg; [right|by left].
    split; [done|]. split; [|done].
    apply dict_get_complement; [done|]. apply Hkeys. right.
    exists op, preconds. split; [done|]. split; [done|].
    split; [|done]. apply elem_of_app. by left.
  - apply rewritten_adds.
  - intros Hcons Hfree z. by apply rewritten_dels_free.
Qed.

Lemma X11_rewritten_operators_witness :
  ∃ ops al,
    remove_negative_preconditions (get_safe_operators [hickmott_x])
    = Some (ops, al)
    ∧ Forall2 (λ op op',
         name op' = name op
         ∧ ∀ z, z ∈ (del_effects op').*2
                ↔ negated z = false
                  ∧ (negate z ∈ effects_of op
                     ∨ ((z ∉ effects_of op)
                        ∧ ∃ x, x ∈ effects_of op
                               ∧ negate z = not_literal x)))
              (get_safe_operators [hickmott_x]) ops.
Proof.
  destruct (remove_negative_preconditions (get_safe_operators [hickmott_x]))
    as [[ops al]|] eqn:Hrun; [|by vm_compute in Hrun].
  exists ops, al. split; [done|].
  assert (Forall (λ op, consistent (effects_of op)
                        ∧ complement_free (effects_of op))
                 (get_safe_operators [hickmott_x])) as Hok by compute_done.
  pose proof (X11_rewritten_operators _ _ _ Hrun) as Hall.
  apply Forall2_same_length_lookup_2; [exact (Forall2_length _ _ _ Hall)|].
  intros i op op' Hi Hi'.
  destruct (Forall2_lookup_lr _ _ _ _ _ _ Hall Hi Hi')
    as (Hname & _ & _ & _ & Hdel).
  destruct (Forall_lookup_1 _ _ _ _ Hok Hi) as [Hc Hf].
  split; [exact Hname|]. exact (Hdel Hc Hf).
Defined.

(** ** [equivalent_atom] *)

Lemma equivalent_atom_loop_None al items atom :
  (∀ kv, kv ∈ items → kv.1 ∈ al.*1) →
  equivalent_atom_loop al items atom = None
  ↔ ∀ kv, kv ∈ items → negate kv.1 ≠ atom ∧ kv.2 ≠ atom.
Proof.
  induction items as [|[key value] items IH]; intros Hkeys; simpl.
  - split; [|done]. by intros _ kv ?%elem_of_nil.
  - assert (∀ kv, kv ∈ items → kv.1 ∈ al.*1) as Hrest
      by (intros kv ?; apply Hkeys; by right).
    destruct (decide (negate key = atom)) as [Hk|Hk].
    + destruct (elem_of_dict_get al key) as [v Hv].
      { apply (Hkeys (key, value)). by left. }
      rewrite Hv. split; [done|]. intros Hall.
      destruct (Hall (key, value)) as [? _]; [by left|done].
    + destruct (decide (value = atom)) as [Hv|Hv].
      * split; [done|]. intros Hall.
        destruct (Hall (key, value)) as [_ ?]; [by left|done].
      * rewrite (IH Hrest). split.
        -- intros Hall kv [->|?]%elem_of_cons; [done|by apply Hall].
        -- intros Hall kv ?. apply Hall. by right.
Qed.

(** An answer comes from an entry that mentions the atom. *)
Lemma equivalent_atom_loop_Some al items atom r :
  equivalent_atom_loop al items atom = Some r →
  ∃ key value,
    (key, value) ∈ items
    ∧ ((negate key = atom ∧ dict_get al key = Some r)
       ∨ (value = atom ∧ r = negate key)).
Proof.
  induction items as [|[k v] items IH]; simpl; [done|].
  destruct (decide (negate k = atom)) as [Hk|Hk].
  - intros Hr. exists k, v. split; [by left|by left].
  - destruct (decide (v = atom)) as [Hv|Hv].
    + intros [= <-]. exists k, v. split; [by left|by right].
    + intros (key & value & Hin & Hor)%IH. exists key, value.
      split; [by right|done].
Qed.

Lemma equivalent_atom_None atom (al : list (Literal * Literal)) :
  equivalent_atom atom al = None
  ↔ ∀ key value, (key, value) ∈ al → negate key ≠ atom ∧ value ≠ atom.
Proof.
  unfold equivalent_atom. rewrite equivalent_atom_loop_None.
  - split.
    + intros H key value Hin. apply (H (key, value) Hin).
    + intros H [key value] Hin. by apply H.
  - intros kv Hin. by apply list_elem_of_fmap_2.
Qed.

(** X12. [equivalent_atom] returns [None] exactly when no entry of the
    mapping has the atom as the atom of its key or as its value. *)
Theorem X12_equivalent_atom_miss atom
    (additional_literals : list (Literal * Literal)) :
  equivalent_atom atom additional_literals = None
  ↔ ∀ key value, (key, value) ∈ additional_literals →
                 negate key ≠ atom ∧ value ≠ atom.
Proof. apply equivalent_atom_None. Qed.

(** X13.  On the mapping of [remove_negative_preconditions], when no value
    of the mapping is the original atom of a key, [equivalent_atom] sends
    the original atom of every key to the value that the mapping holds for
    the key. *)
Theorem X13_equivalent_atom_of_original safe_operators ops additional_literals
    key value :
  remove_negative_preconditions safe_operators
  = Some (ops, additional_literals) →
  Forall (λ k, negate k ∉ additional_literals.*2) additional_literals.*1 →
  (key, value) ∈ additional_literals →
  equivalent_atom (negate key) additional_literals = Some value.
Proof.
  intros Hrun Hclash Hin. rewrite Forall_forall in Hclash.
  apply remove_negative_loop_spec in Hrun as (Hcd & Hnd & _ & _);
    [|apply complement_dict_nil].
  assert (∀ k v, (k, v) ∈ additional_literals →
                 dict_get additional_literals k = Some v) as Hget.
  { intros k v Hkv. destruct (Hcd k v Hkv) as [_ ->].
    apply dict_get_complement; [done|]. by apply (list_elem_of_fmap_2 fst) in Hkv. }
  destruct (equivalent_atom (negate key) additional_literals) as [r|] eqn:Hr.
  - apply equivalent_atom_loop_Some in Hr
      as (k & v & Hkv & [[Hk Hd]|[Hval _]]).
    + apply negate_inj in Hk as ->. rewrite (Hget _ _ Hin) in Hd. done.
    + destruct (Hclash key); [by apply (list_elem_of_fmap_2 fst) in Hin|].
      rewrite <-Hval. by apply (list_elem_of_fmap_2 snd) in Hkv.
  - pose proof (proj1 (equivalent_atom_None _ _) Hr key value Hin) as [? ?].
    done.
Qed.

Lemma X13_equivalent_atom_of_original_witness :
  ∃ ops al,
    remove_negative_preconditions (get_safe_operators [hickmott_x])
    = Some (ops, al)
    ∧ equivalent_atom (atom "b") al
      = Some (not_literal (negate (atom "b"))).
Proof.
  destruct (remove_negative_preconditions (get_safe_operators [hickmott_x]))
    as [[ops al]|] eqn:Hrun; [|by vm_compute in Hrun].
  exists ops, al. split; [done|].
  apply (X13_equivalent_atom_of_original _ _ _ (negate (atom "b"))
           (not_literal (negate (atom "b"))) Hrun).
  - clear -Hrun. vm_compute in Hrun. injection Hrun as _ <-. compute_done.
  - clear -Hrun. vm_compute in Hrun. injection Hrun as _ <-. compute_done.
Defined.

(** ** Net construction, continued *)

Lemma foldl_insert_is_Some {K V A} `{Countable K} (key : A → K) (val : A → V)
    (l : list A) (d : gmap K V) k :
  is_Some (foldl (λ d a, <[ key a := val a ]> d) d l !! k)
  ↔ k ∈ key <$> l ∨ is_Some (d !! k).
Proof.
  revert d. induction l as [|a l IH]; intros d.
  - rewrite fmap_nil, elem_of_nil. simpl. tauto.
  - rewrite fmap_cons, elem_of_cons. simpl. rewrite IH, lookup_insert_is_Some.
    destruct (decide (key a = k)); intuition congruence.
Qed.

(** The keys of [places] are the atoms and the values of the mapping. *)
Lemma mapping_dict_is_Some ci atoms al x :
  is_Some (mapping_dict ci atoms al !! x) ↔ x ∈ atoms ∨ x ∈ al.*2.
Proof.
  unfold mapping_dict.
  rewrite (foldl_insert_is_Some snd (added_place ci)),
    (foldl_insert_is_Some id (atom_place ci)), list_fmap_id, lookup_empty.
  rewrite is_Some_alt. tauto.
Qed.

Lemma mapping_dict_lookup_place ci atoms al x place :
  mapping_dict ci atoms al !! x = Some place →
  place ∈ mapping_places ci atoms al.
Proof.
  unfold mapping_places. rewrite elem_of_app, !list_elem_of_fmap.
  intros [(oa & Hoa & _ & ->)|[Hx ->]]%mapping_dict_lookup; eauto.
Qed.

Lemma mapping_transition_is_Some pl op :
  is_Some (mapping_transition pl op)
  ↔ ∃ preconds, precondition op = CLit <$> preconds
      ∧ ∀ l, l ∈ preconds ∨ l ∈ (add_effects op).*2 → is_Some (pl !! l).
Proof.
  split.
  - intros [tran (preconds & kept & produced & preserved & Hpre & _ & _ & _
                  & Horig & _ & Hprod & _)%mapping_transition_Some].
    exists preconds. split; [done|].
    intros l [[i Hi]%list_elem_of_lookup_1|[i Hi]%list_elem_of_lookup_1].
    + destruct (Forall2_lookup_l _ _ _ _ _ Horig Hi) as (place & _ & ->). eauto.
    + destruct (Forall2_lookup_l _ _ _ _ _ Hprod Hi) as (place & _ & ->). eauto.
  - intros (preconds & Hpre & Hdom). unfold mapping_transition.
    rewrite (proj2 (literal_of_mapM _ _) Hpre). simpl.
    destruct (mapM_is_Some_2 (λ orig, pl !! orig) preconds) as [origs ->].
    { apply Forall_forall. intros l Hl. apply Hdom. by left. }
    simpl.
    destruct (mapM_is_Some_2 (λ dest, pl !! dest)
                (destination_literals op preconds)) as [dests ->]; [|by eexists].
    apply Forall_forall. intros l. unfold destination_literals.
    destruct (preserve_spec (snd <$> add_effects op)
                ((λ dele : CondEffect, str dele.2) <$> del_effects op) preconds)
      as (kept & -> & Hsub & _).
    intros [Hl|Hl]%elem_of_app; apply Hdom; [by right|left].
    by eapply sublist_subseteq.
Qed.

Lemma mapping_transition_closed ci atoms al op tran place :
  mapping_transition (mapping_dict ci atoms al) op = Some tran →
  place ∈ origins tran ∨ place ∈ destinations tran →
  place ∈ mapping_places ci atoms al.
Proof.
  intros (preconds & kept & produced & preserved & _ & _ & _ & _ & Horig
          & Hdest & Hprod & Hpres)%mapping_transition_Some.
  rewrite Hdest, elem_of_app.
  intros [[j Hj]%list_elem_of_lookup_1
         |[[j Hj]%list_elem_of_lookup_1|[j Hj]%list_elem_of_lookup_1]].
  - destruct (Forall2_lookup_r _ _ _ _ _ Horig Hj) as (l & _ & Hl).
    by eapply mapping_dict_lookup_place.
  - destruct (Forall2_lookup_r _ _ _ _ _ Hprod Hj) as (l & _ & Hl).
    by eapply mapping_dict_lookup_place.
  - destruct (Forall2_lookup_r _ _ _ _ _ Hpres Hj) as (l & _ & Hl).
    by eapply mapping_dict_lookup_place.
Qed.

Lemma petri_mapping_closed atoms al ops init net tran place :
  petri_mapping atoms al ops init = Some net →
  tran ∈ transitions net →
  place ∈ origins tran ∨ place ∈ destinations tran →
  place ∈ places net.
Proof.
  intros [Hplaces Hall]%petri_mapping_Some [i Hi]%list_elem_of_lookup_1.
  destruct (Forall2_lookup_r _ _ _ _ _ Hall Hi) as (op & _ & Htran).
  intros Hplace. rewrite Hplaces.
  eapply mapping_transition_closed; [exact Htran|exact Hplace].
Qed.

Lemma petri_mapping_is_Some atoms al ops init :
  is_Some (petri_mapping atoms al ops init)
  ↔ Forall (λ op, ∃ preconds, precondition op = CLit <$> preconds
              ∧ ∀ l, l ∈ preconds ∨ l ∈ (add_effects op).*2 →
                     l ∈ atoms ∨ l ∈ al.*2) ops.
Proof.
  unfold petri_mapping.
  set (pl := mapping_dict (clean_init init) atoms al).
  transitivity (is_Some (mapM (mapping_transition pl) ops)).
  { destruct (mapM _ ops); simpl; [|done].
    split; intros _; by eexists. }
  rewrite mapM_is_Some. apply Forall_proper; [|done]. intros op. simpl.
  rewrite mapping_transition_is_Some. apply exist_proper. intros preconds.
  apply and_iff_compat_l. apply forall_proper. intros l.
  unfold pl. by rewrite mapping_dict_is_Some.
Qed.


(** X15. The net has one transition per operator, in order, with the
    operator's name and cost; the names of its origins are the strings of
    the preconditions, in order, and every origin and destination is one of
    the places of the net. *)
Theorem X15_transitions_of_operators atoms additional_literals safe_operators
    init net :
  petri_mapping atoms additional_literals safe_operators init = Some net →
  Forall2 (λ op tran,
    transition_name tran = name op
    ∧ transition_cost tran = cost op
    ∧ (∃ preconds, precondition op = CLit <$> preconds
         ∧ place_name <$> origins tran = str <$> preconds)
    ∧ ∀ place, place ∈ origins tran ∨ place ∈ destinations tran →
               place ∈ places net)
    safe_operators (transitions net).
Proof.
  intros [Hplaces Hall]%petri_mapping_Some.
  eapply Forall2_impl; [exact Hall|]. clear Hall.
  intros op tran Htran.
  pose proof Htran as (preconds & _ & _ & _ & Hpre & _ & Hnm & Hcost & Horig
      & _)%mapping_transition_Some.
  split; [done|]. split; [done|]. split.
  - exists preconds. split; [done|].
    eapply Forall2_lookup_names; [|exact Horig].
    intros x place. apply mapping_dict_lookup_name.
  - intros place Hplace. rewrite Hplaces.
    eapply mapping_transition_closed; [exact Htran|exact Hplace].
Qed.

Lemma X15_transitions_of_operators_witness :
  ∃ ops al,
    petri_mapping hickmott_atoms al ops hickmott_init = Some hickmott_net
    ∧ Forall2 (λ op tran, transition_name tran = name op)
              ops (transitions hickmott_net).
Proof.
  destruct hickmott_run as (ops & al & _ & Hnet).
  exists ops, al. split; [done|].
  eapply Forall2_impl; [exact (X15_transitions_of_operators _ _ _ _ _ Hnet)|].
  by intros op tran [Hname _].
Defined.

(** X16. When the add-effects of an operator have distinct strings, no two
    destinations of its transition have the same name. *)
Theorem X16_destination_names_distinct atoms additional_literals safe_operators
    init net :
  petri_mapping atoms additional_literals safe_operators init = Some net →
  Forall2 (λ op tran,
    NoDup (str <$> (add_effects op).*2) →
    NoDup (place_name <$> destinations tran))
    safe_operators (transitions net).
Proof.
  intros [_ Hall]%petri_mapping_Some.
  eapply Forall2_impl; [exact Hall|]. clear Hall.
  intros op tran (preconds & kept & produced & preserved & Hpre & Hdl & _
      & _ & _ & Hdest & Hprod & Hpres)%mapping_transition_Some Hnd.
  destruct (preserve_spec (snd <$> add_effects op)
              ((λ dele : CondEffect, str dele.2) <$> del_effects op) preconds)
    as (kept' & Hkept' & _ & Hndk & Hkept & _).
  fold (destination_literals op preconds) in Hkept'. rewrite Hdl in Hkept'.
  apply app_inv_head in Hkept' as <-.
  assert (∀ ls ps, Forall2 (λ l place,
             mapping_dict (clean_init init) atoms additional_literals !! l
             = Some place) ls ps → place_name <$> ps = str <$> ls) as Hnames.
  { intros ls ps. apply Forall2_lookup_names.
    intros x place. apply mapping_dict_lookup_name. }
  rewrite Hdest, fmap_app, (Hnames _ _ Hprod), (Hnames _ _ Hpres).
  apply NoDup_app. split; [done|]. split; [|done].
  intros nm Hnm (p & -> & Hp)%list_elem_of_fmap.
  by destruct (Hkept p Hp) as [? _].
Qed.

Lemma X16_destination_names_distinct_witness :
  ∃ ops al,
    petri_mapping hickmott_atoms al ops hickmott_init = Some hickmott_net
    ∧ Forall2 (λ op tran,
                 NoDup (str <$> (add_effects op).*2) →
                 NoDup (place_name <$> destinations tran))
              ops (transitions hickmott_net).
Proof.
  destruct hickmott_run as (ops & al & _ & Hnet).
  exists ops, al. split; [done|].
  exact (X16_destination_names_distinct _ _ _ _ _ Hnet).
Defined.

Lemma symmetric_difference_empty `{Countable A} (a b : list A) :
  size (symmetric_difference a b) = 0 ↔ ∀ x, x ∈ a ↔ x ∈ b.
Proof.
  rewrite size_empty_iff. unfold symmetric_difference. split.
  - intros Hempty x.
    assert (x ∉ (list_to_set a ∖ list_to_set b : gset A)
                  ∪ (list_to_set b ∖ list_to_set a)) as Hx.
    { rewrite Hempty. apply not_elem_of_empty. }
    rewrite elem_of_union, !elem_of_difference, !elem_of_list_to_set in Hx.
    destruct (decide (x ∈ a)), (decide (x ∈ b)); tauto.
  - intros Hsame x.
    rewrite elem_of_union, !elem_of_difference, !elem_of_list_to_set.
    rewrite (Hsame x). split; [tauto|]. by intros ?%not_elem_of_empty.
Qed.

(** X17. Two transitions are equal exactly when they have the same origins
    and the same destinations as sets of places and the same cost; names,
    order and repetitions do not count. *)
Theorem X17_transition_equality self other :
  PetriTransition_eq self other = true
  ↔ (∀ place, place ∈ origins self ↔ place ∈ origins other)
    ∧ (∀ place, place ∈ destinations self ↔ place ∈ destinations other)
    ∧ transition_cost self = transition_cost other.
Proof.
  unfold PetriTransition_eq.
  rewrite !andb_true_iff, !bool_decide_eq_true, !symmetric_difference_empty.
  tauto.
Qed.

(** ** The finite-domain encoding, continued *)

Lemma place2var_of_snoc ps place :
  place2var_of (ps ++ [place])
  = <[ place_name place := length ps ]> (place2var_of ps).
Proof.
  unfold place2var_of. rewrite imap_app, foldl_app. simpl.
  by rewrite Nat.add_0_r.
Qed.

(** [place2var] sends a name to the index of the last place of that name. *)
Lemma place2var_of_lookup ps nm i :
  place2var_of ps !! nm = Some i
  ↔ (∃ place, ps !! i = Some place ∧ place_name place = nm)
    ∧ ∀ j place, i < j → ps !! j = Some place → place_name place ≠ nm.
Proof.
  revert i. induction ps as [|p ps IH] using rev_ind; intros i.
  - unfold place2var_of. simpl. rewrite lookup_empty. split; [done|].
    by intros [(place & ? & _) _].
  - rewrite place2var_of_snoc.
    destruct (decide (place_name p = nm)) as [Hnm|Hnm].
    + rewrite Hnm, lookup_insert_eq. split.
      * intros [= <-]. split.
        -- exists p. by rewrite lookup_app_r, Nat.sub_diag by lia.
        -- intros j place Hj Hlook. apply lookup_lt_Some in Hlook.
           rewrite length_app in Hlook. simpl in Hlook. lia.
      * intros [(place & Hi & _) Hlast]. f_equal.
        pose proof (lookup_lt_Some _ _ _ Hi) as Hlt.
        rewrite length_app in Hlt. simpl in Hlt.
        destruct (decide (i = length ps)) as [->|Hne]; [done|].
        exfalso. apply (Hlast (length ps) p); [lia| |done].
        by rewrite lookup_app_r, Nat.sub_diag by lia.
    + rewrite lookup_insert_ne by done. rewrite IH. split.
      * intros [(place & Hi & Hp) Hlast]. split.
        -- exists place. split; [|done]. by apply lookup_app_l_Some.
        -- intros j place' Hj Hlook.
           apply lookup_app_Some in Hlook as [Hlook|[_ Hlook]];
             [by eapply Hlast|].
           apply list_lookup_singleton_Some in Hlook as [_ <-]. done.
      * intros [(place & Hi & Hp) Hlast].
        apply lookup_app_Some in Hi as [Hi|[_ Hi]].
        -- split; [by exists place|]. intros j place' Hj Hlook.
           apply (Hlast j place' Hj). by apply lookup_app_l_Some.
        -- apply list_lookup_singleton_Some in Hi as [_ <-]. done.
Qed.

Lemma place2var_of_is_Some ps nm :
  is_Some (place2var_of ps !! nm) ↔ nm ∈ place_name <$> ps.
Proof.
  induction ps as [|p ps IH] using rev_ind.
  - unfold place2var_of. simpl. rewrite lookup_empty, is_Some_alt.
    by rewrite elem_of_nil.
  - rewrite place2var_of_snoc, lookup_insert_is_Some, IH, fmap_app, elem_of_app.
    rewrite list_fmap_singleton, list_elem_of_singleton.
    destruct (decide (place_name p = nm)); intuition congruence.
Qed.

Lemma place2var_of_lt ps nm i :
  place2var_of ps !! nm = Some i → i < length ps.
Proof.
  intros [(place & Hi & _) _]%place2var_of_lookup. by eapply lookup_lt_Some.
Qed.

Lemma place2var_of_inj ps nm1 nm2 i :
  place2var_of ps !! nm1 = Some i → place2var_of ps !! nm2 = Some i →
  nm1 = nm2.
Proof.
  intros [(p1 & H1 & <-) _]%place2var_of_lookup
         [(p2 & H2 & <-) _]%place2var_of_lookup. congruence.
Qed.

Lemma origins_loop_is_Some place2var dests origs pp entered :
  is_Some (origins_loop place2var dests origs pp entered)
  ↔ Forall (λ orig, is_Some (place2var !! place_name orig)) origs.
Proof.
  revert pp entered. induction origs as [|orig origs IH]; intros pp entered.
  - simpl. split; [constructor|by eexists].
  - rewrite Forall_cons. simpl.
    destruct (place2var !! place_name orig) as [var|]; simpl.
    + rewrite IH. split; [|by intros [_ ?]]. intros ?. split; [by eexists|done].
    + split; [by intros [? ?]|]. by intros [[? ?] _].
Qed.

Lemma destinations_loop_is_Some place2var origs entered dests pp :
  is_Some (destinations_loop place2var origs entered dests pp)
  ↔ Forall (λ dest, is_Some (place2var !! place_name dest)) dests.
Proof.
  revert pp. induction dests as [|dest dests IH]; intros pp.
  - simpl. split; [constructor|by eexists].
  - rewrite Forall_cons. simpl.
    destruct (place2var !! place_name dest) as [var|]; simpl.
    + case_decide; rewrite IH; (split; [|by intros [_ ?]]);
        intros ?; (split; [by eexists|done]).
    + split; [by intros [? ?]|]. by intros [[? ?] _].
Qed.

Lemma sas_operator_is_Some place2var tran :
  is_Some (sas_operator place2var tran)
  ↔ ∀ place, place ∈ origins tran ∨ place ∈ destinations tran →
             is_Some (place2var !! place_name place).
Proof.
  transitivity
    (Forall (λ orig, is_Some (place2var !! place_name orig)) (origins tran)
     ∧ Forall (λ dest, is_Some (place2var !! place_name dest))
              (destinations tran)).
  - unfold sas_operator.
    rewrite <-(origins_loop_is_Some place2var (destinations tran)
                 (origins tran) [] ∅).
    destruct (origins_loop _ _ _ _ _) as [[pp entered]|] eqn:Ho; simpl.
    + rewrite <-(destinations_loop_is_Some place2var (origins tran) entered
                   (destinations tran) pp).
      destruct (destinations_loop _ _ _ _ _) as [pp'|]; simpl.
      * split; [intros _; split; by eexists|by eexists].
      * split; [by intros [? ?]|]. by intros [_ [? ?]].
    + split; [by intros [? ?]|]. by intros [[? ?] _].
  - rewrite !Forall_forall. firstorder.
Qed.

Lemma sas_translate_is_Some net goal :
  is_Some (sas_translate net goal)
  ↔ ∀ tran place, tran ∈ transitions net →
      place ∈ origins tran ∨ place ∈ destinations tran →
      place_name place ∈ place_name <$> places net.
Proof.
  transitivity (is_Some (mapM (sas_operator (place2var_of (places net)))
                           (transitions net))).
  { unfold sas_translate. destruct (mapM _ (transitions net)); simpl; [|done].
    split; intros _; by eexists. }
  rewrite mapM_is_Some, Forall_forall. apply forall_proper. intros tran.
  simpl. rewrite sas_operator_is_Some.
  setoid_rewrite place2var_of_is_Some.
  split; [intros H place Ht Hp; by apply H|intros H Ht place Hp; by apply H].
Qed.

(** X18. [sas_translate] completes exactly when every origin and destination
    of every transition has the name of a place of the net; the goal has no
    part in it. *)
Theorem X18_sas_translate_defined net goal :
  is_Some (sas_translate net goal)
  ↔ ∀ tran place, tran ∈ transitions net →
      place ∈ origins tran ∨ place ∈ destinations tran →
      ∃ place', place' ∈ places net ∧ place_name place' = place_name place.
Proof.
  rewrite sas_translate_is_Some.
  apply forall_proper. intros tran. apply forall_proper. intros place.
  rewrite list_elem_of_fmap. firstorder.
Qed.

(** X19. [sas_translate] completes on every net that [petri_mapping]
    returns, whatever the goal. *)
Theorem X19_mapped_net_translates atoms additional_literals safe_operators
    init net goal :
  petri_mapping atoms additional_literals safe_operators init = Some net →
  is_Some (sas_translate net goal).
Proof.
  intros Hnet. apply sas_translate_is_Some. intros tran place Htran Hplace.
  apply list_elem_of_fmap. exists place. split; [done|].
  by eapply petri_mapping_closed.
Qed.

Lemma X19_mapped_net_translates_witness :
  ∃ ops al,
    petri_mapping hickmott_atoms al ops hickmott_init = Some hickmott_net
    ∧ is_Some (sas_translate hickmott_net (CLit (atom "d"))).
Proof.
  destruct hickmott_run as (ops & al & _ & Hnet).
  exists ops, al. split; [done|].
  exact (X19_mapped_net_translates _ _ _ _ _ (CLit (atom "d")) Hnet).
Defined.

(** X20. The variable that [place2var] holds for a name is the index of the
    last place of that name. *)
Theorem X20_variable_of_a_name net nm var :
  place2var_of (places net) !! nm = Some var
  ↔ (∃ place, places net !! var = Some place ∧ place_name place = nm)
    ∧ ∀ j place, var < j → places net !! j = Some place →
                 place_name place ≠ nm.
Proof. apply place2var_of_lookup. Qed.

Lemma place_goals_pair goals var place pair :
  pair ∈ place_goals goals var place → pair.1 = var ∧ pair.2 < 2.
Proof.
  intros (g & _ & [[-> _]|[-> _]])%elem_of_place_goals; simpl; lia.
Qed.

Lemma StronglySorted_constant {A} (f : A → nat) (k : nat) (l : list A) :
  Forall (λ x, f x = k) l → StronglySorted (λ x y, f x ≤ f y) l.
Proof.
  induction 1 as [|x l Hx Hl IH]; constructor; [done|].
  eapply Forall_impl; [exact Hl|]. simpl. intros y Hy. lia.
Qed.

Lemma goal_pairs_sorted goals ps k :
  StronglySorted (λ p q : nat * nat, p.1 ≤ q.1)
    (concat (imap (λ i, place_goals goals (k + i)) ps))
  ∧ ∀ pair, pair ∈ concat (imap (λ i, place_goals goals (k + i)) ps) →
            k ≤ pair.1 < k + length ps ∧ pair.2 < 2.
Proof.
  revert k. induction ps as [|p ps IH]; intros k.
  - simpl. split; [constructor|]. by intros pair ?%elem_of_nil.
  - rewrite imap_cons. cbn [concat].
    rewrite (imap_ext _ (λ i, place_goals goals (S k + i))); last first.
    { intros i x _. simpl. by rewrite Nat.add_succ_r. }
    destruct (IH (S k)) as [Hs Hb]. split.
    + apply StronglySorted_app_2.
      * intros p1 p2 [H1 _]%place_goals_pair [H2 _]%Hb. lia.
      * apply StronglySorted_constant with (k + 0). apply Forall_forall.
        by intros pair [? _]%place_goals_pair.
      * done.
    + intros pair [[H1 H2]%place_goals_pair|[H1 H2]%Hb]%elem_of_app;
        simpl; lia.
Qed.

Lemma origin_entries_vars dests origs vars :
  length origs = length vars →
  (λ entry : PrePost, entry.1.1.1) <$> zip_with (origin_entry dests) origs vars
  = vars.
Proof.
  revert vars. induction origs as [|o origs IH]; intros [|v vars] Hlen;
    try done.
  injection Hlen as Hlen. cbn [zip_with]. by rewrite fmap_cons, IH.
Qed.

Lemma destination_entries_vars origs entered dests vars :
  length dests = length vars →
  (λ entry : PrePost, entry.1.1.1)
    <$> destination_entries origs entered dests vars
  = filter (λ var, var ∉ entered) vars.
Proof.
  unfold destination_entries. revert vars.
  induction dests as [|d dests IH]; intros [|v vars] Hlen; try done.
  injection Hlen as Hlen. cbn [zip_with].
  rewrite bind_cons, fmap_app, IH, filter_cons by done.
  simpl. by destruct (decide (v ∉ entered)).
Qed.

(** Places of distinct names have distinct variables. *)
Lemma variables_NoDup ps places vars :
  Forall2 (λ place var, place2var_of ps !! place_name place = Some var)
          places vars →
  NoDup (place_name <$> places) → NoDup vars.
Proof.
  induction 1 as [|place var places vars Hvar Hall IH]; [constructor|].
  rewrite fmap_cons, !NoDup_cons. intros [Hnotin Hnd]. split; [|by apply IH].
  intros [i Hi]%list_elem_of_lookup_1. apply Hnotin.
  destruct (Forall2_lookup_r _ _ _ _ _ Hall Hi) as (place' & Hp & Hvar').
  rewrite (place2var_of_inj _ _ _ _ Hvar Hvar').
  apply list_elem_of_fmap. exists place'.
  split; [done|]. by eapply list_elem_of_lookup_2.
Qed.

(** X21. The task has one variable per place, each with range 2 and axiom
    layer -1, and one initial value per variable, 0 or 1. Every goal pair
    and every pre/post entry names a variable of the task and values below
    2; the goal pairs are ordered by variable, and no pre/post entry goes
    from 0 to 0. *)
Theorem X21_sas_task_well_formed net goal task :
  sas_translate net goal = Some task →
  let n := length (places net) in
  (length (ranges task) = n ∧ length (axiom_layers task) = n
   ∧ length (value_names task) = n ∧ length (init_values task) = n)
  ∧ Forall (λ r, r = 2) (ranges task)
  ∧ Forall (λ layer, layer = (-1)%Z) (axiom_layers task)
  ∧ Forall (λ v, v < 2) (init_values task)
  ∧ Forall (λ pair, pair.1 < n ∧ pair.2 < 2) (goal_pairs task)
  ∧ StronglySorted (λ p q, p.1 ≤ q.1) (goal_pairs task)
  ∧ Forall (λ sop,
      Forall (λ entry : PrePost,
                entry.1.1.1 < n ∧ entry.1.1.2 < 2 ∧ entry.1.2 < 2
                ∧ (entry.1.1.2 = 1 ∨ entry.1.2 = 1))
             (pre_post sop))
      (operators task).
Proof.
  intros H n. pose proof H as (Hops & _)%sas_translate_Some.
  unfold sas_translate in H. apply bind_Some in H as (ops & _ & H).
  simplify_eq. cbn [ranges axiom_layers value_names init_values goal_pairs
                    operators] in *.
  rewrite !length_fmap. split; [done|].
  destruct (goal_pairs_sorted (pddl_goals goal) (places net) 0) as [Hs Hb].
  split_and!.
  - apply Forall_fmap, Forall_forall. by intros.
  - apply Forall_fmap, Forall_forall. by intros.
  - apply Forall_fmap, Forall_forall. intros place _. simpl. case_decide; lia.
  - apply Forall_forall. intros pair Hpair. apply Hb in Hpair. unfold n. lia.
  - exact Hs.
  - apply Forall_forall. intros sop [i Hi]%list_elem_of_lookup_1.
    destruct (Forall2_lookup_r _ _ _ _ _ Hops Hi) as (tran & _ & Hsop).
    apply sas_operator_Some in Hsop
      as (ovars & dvars & Hov & Hdv & _ & _ & _ & ->).
    apply Forall_app. split; apply Forall_forall; intros entry.
    + intros [j Hj]%list_elem_of_lookup_1.
      apply lookup_zip_with_Some in Hj as (o & v & -> & Ho & Hv).
      pose proof (Forall2_lookup_lr _ _ _ _ _ _ Hov Ho Hv) as Hvar.
      apply place2var_of_lt in Hvar. unfold origin_entry. simpl.
      split; [done|]. destruct (has_name _ _); lia.
    + unfold destination_entries.
      intros ([dest var] & Hentry & [j Hj]%list_elem_of_lookup_1)
               %list_elem_of_bind.
      apply lookup_zip_with_Some in Hj as (d & v & [= -> ->] & Hd & Hv).
      pose proof (Forall2_lookup_lr _ _ _ _ _ _ Hdv Hd Hv) as Hvar.
      apply place2var_of_lt in Hvar. simpl in Hentry.
      case_decide; [|by apply elem_of_nil in Hentry].
      apply list_elem_of_singleton in Hentry as ->. simpl.
      split; [done|]. destruct (has_name _ _); lia.
Qed.

Lemma X21_sas_task_well_formed_witness :
  ∃ task,
    sas_translate hickmott_net (CLit (atom "d")) = Some task
    ∧ length (ranges task) = 6
    ∧ Forall (λ r, r = 2) (ranges task).
Proof.
  destruct hickmott_translate as [task Hrun].
  exists task. split; [done|].
  pose proof (X21_sas_task_well_formed _ _ _ Hrun) as Hwf. cbv zeta in Hwf.
  destruct Hwf as ((Hlen & _) & Hranges & _). by split.
Defined.

(** X22. When the origins of a transition have distinct names and so have
    its destinations, no variable occurs twice in the pre/post list of its
    operator. *)
Theorem X22_pre_post_variables_distinct net goal task :
  sas_translate net goal = Some task →
  Forall2 (λ tran sop,
    NoDup (place_name <$> origins tran) →
    NoDup (place_name <$> destinations tran) →
    NoDup ((λ entry : PrePost, entry.1.1.1) <$> pre_post sop))
    (transitions net) (operators task).
Proof.
  intros (Hall & _)%sas_translate_Some.
  eapply Forall2_impl; [exact Hall|]. clear Hall.
  intros tran sop (ovars & dvars & Hov & Hdv & _ & _ & _ & ->)
                   %sas_operator_Some Hno Hnd.
  rewrite fmap_app, origin_entries_vars, destination_entries_vars
    by by eapply Forall2_length.
  apply NoDup_app. split_and!.
  - by eapply variables_NoDup.
  - intros var Hvar [Hnot _]%list_elem_of_filter.
    by apply Hnot, elem_of_list_to_set.
  - apply NoDup_filter. by eapply variables_NoDup.
Qed.

Lemma X22_pre_post_variables_distinct_witness :
  ∃ task,
    sas_translate hickmott_net (CLit (atom "d")) = Some task
    ∧ Forall2 (λ tran sop,
                 NoDup (place_name <$> origins tran) →
                 NoDup (place_name <$> destinations tran) →
                 NoDup ((λ entry : PrePost, entry.1.1.1) <$> pre_post sop))
              (transitions hickmott_net) (operators task).
Proof.
  destruct hickmott_translate as [task Hrun].
  exists task. split; [done|].
  exact (X22_pre_post_variables_distinct _ _ _ Hrun).
Defined.

(** X23. For a net of [petri_mapping] the initial values are those of the
    atoms, 1 exactly for the atoms in the initial state, followed by those
    of the mapping's entries, 1 exactly when the original atom is not in the
    initial state. *)
Theorem X23_initial_values atoms additional_literals safe_operators init net
    goal task :
  petri_mapping atoms additional_literals safe_operators init = Some net →
  sas_translate net goal = Some task →
  ∃ atom_values added_values,
    init_values task = atom_values ++ added_values
    ∧ Forall2 (λ a v, (v = 1 ↔ negated a = false ∧ InitLit a ∈ init)
                      ∧ (v = 0 ↔ ¬ (negated a = false ∧ InitLit a ∈ init)))
              atoms atom_values
    ∧ Forall2 (λ oa v, (v = 1 ↔ InitLit (positive oa.1) ∉ init)
                       ∧ (v = 0 ↔ InitLit (positive oa.1) ∈ init))
              additional_literals added_values.
Proof.
  intros [Hplaces _]%petri_mapping_Some (_ & _ & -> & _)%sas_translate_Some.
  rewrite Hplaces. unfold mapping_places. rewrite fmap_app.
  eexists _, _. split; [done|]. split.
  - rewrite <-list_fmap_compose.
    apply Forall2_fmap_r, Forall_Forall2_diag, Forall_forall. intros a _. simpl.
    destruct (atom_place_spec (clean_init init) a) as [_ ->].
    rewrite <-elem_of_clean_init.
    destruct (decide (a ∈ clean_init init)); simpl; intuition congruence.
  - rewrite <-list_fmap_compose.
    apply Forall2_fmap_r, Forall_Forall2_diag, Forall_forall. intros oa _. simpl.
    destruct (added_place_spec (clean_init init) oa) as [_ ->].
    assert (positive oa.1 ∈ clean_init init ↔ InitLit (positive oa.1) ∈ init)
      as Hin by (rewrite elem_of_clean_init; tauto).
    rewrite <-Hin.
    destruct (decide (positive oa.1 ∈ clean_init init)); simpl;
      intuition congruence.
Qed.

Lemma X23_initial_values_witness :
  ∃ task atom_values added_values,
    sas_translate hickmott_net (CLit (atom "d")) = Some task
    ∧ init_values task = atom_values ++ added_values
    ∧ length atom_values = length hickmott_atoms.
Proof.
  destruct hickmott_run as (ops & al & _ & Hnet).
  destruct hickmott_translate as [task Hrun].
  destruct (X23_initial_values _ _ _ _ _ _ _ Hnet Hrun)
    as (atom_values & added_values & Hinit & Hatoms & _).
  exists task, atom_values, added_values. split; [done|]. split; [done|].
  symmetry. exact (Forall2_length _ _ _ Hatoms).
Defined.

(** ** The whole translation *)

Lemma all_literals (cs : list Condition) :
  (∀ c, c ∈ cs → ∃ l, c = CLit l) → ∃ ls : list Literal, cs = CLit <$> ls.
Proof.
  induction cs as [|c cs IH]; intros Hall; [by exists []|].
  destruct (Hall c) as [l ->]; [by left|].
  destruct IH as [ls ->]; [intros c ?; apply Hall; by right|].
  by exists (l :: ls).
Qed.

(** The operators generated for a grounded action have bare literals over
    the atoms as preconditions, and effects over the atoms. *)
Lemma safe_operators_of_grounded atoms a o :
  grounded_over atoms a →
  (not_negated_effects a = [] →
   ∃ preconds, precondition a = CLit <$> preconds) →
  o ∈ safe_operators_of a →
  ∃ preconds,
    precondition o = CLit <$> preconds
    ∧ (∀ l, l ∈ preconds → positive l ∈ atoms)
    ∧ (∀ x, x ∈ effects_of o → positive x ∈ atoms).
Proof.
  intros [Hpre Heff] Hlit Ho.
  rewrite Forall_forall in Hpre. rewrite Forall_forall in Heff.
  destruct (decide (not_negated_effects a = [])) as [Hnil|Hne].
  - rewrite safe_operators_of_settled in Ho by done.
    apply list_elem_of_singleton in Ho as ->.
    destruct (Hlit Hnil) as [preconds Hlits]. exists preconds.
    rewrite Hlits, preconditions_atoms_literals in Hpre.
    split_and!; [done| |done].
    intros l Hl. apply (Hpre (CLit l)). by apply list_elem_of_fmap_2.
  - apply list_elem_of_lookup_1 in Ho as [i Hi].
    apply safe_operators_of_lookup in Hi as (eprime & Hi & ->); [|done].
    assert (eprime ⊆ not_negated_effects a) as Hsub.
    { apply sublist_subseteq, elem_of_powerset. by eapply list_elem_of_lookup_2. }
    assert (∀ c, c ∈ precondition (safe_operator a (S i) eprime) →
                 ∃ l, c = CLit l ∧ positive l ∈ atoms) as Hc.
    { intros c [Hin|(x & Hx & Hor)]%precondition_safe_operator; [| |done].
      - specialize (Hpre c Hin). destruct c as [l|]; [|done]. by exists l.
      - apply elem_of_not_negated_effects in Hx as [Hx _]. apply Heff in Hx.
        destruct Hor as [[_ ->]|[_ ->]]; eexists; (split; [done|]);
          by rewrite ?positive_negate. }
    destruct (all_literals (precondition (safe_operator a (S i) eprime)))
      as [preconds Hlits].
    { intros c (l & -> & _)%Hc. by exists l. }
    exists preconds. split_and!; [done| |].
    + intros l Hl. destruct (Hc (CLit l)) as (l' & [= <-] & ?); [|done].
      rewrite Hlits. by apply list_elem_of_fmap_2.
    + intros x [[Hx _]%elem_of_negated_effects|Hx]%effects_of_safe_operator_sub;
        [by apply Heff|].
      by apply Hsub, elem_of_not_negated_effects in Hx as [Hx%Heff _].
Qed.

(** X24. If every literal of every action is over the atoms and the actions
    that pass through unchanged have bare literals as preconditions, then
    [pddl2petri] returns a net and [sas_translate] completes on it. *)
Theorem X24_grounded_task_translates atoms actions init goal :
  Forall (grounded_over atoms) actions →
  Forall (λ op, not_negated_effects op = [] →
                ∃ preconds, precondition op = CLit <$> preconds) actions →
  ∃ net, pddl2petri atoms actions init = Some net
         ∧ is_Some (sas_translate net goal).
Proof.
  intros Hgr Hlit. rewrite Forall_forall in Hgr, Hlit.
  assert (∀ o, o ∈ get_safe_operators actions →
            ∃ preconds,
              precondition o = CLit <$> preconds
              ∧ (∀ l, l ∈ preconds → positive l ∈ atoms)
              ∧ (∀ x, x ∈ effects_of o → positive x ∈ atoms)) as Hsafe.
  { intros o (a & Ho & Ha)%list_elem_of_bind.
    eapply safe_operators_of_grounded; eauto. }
  destruct (remove_negative_preconditions_total (get_safe_operators actions))
    as [[ops al] Hrun].
  { apply Forall_forall. intros o (preconds & ? & _)%Hsafe. eauto. }
  pose proof Hrun as (Hcd & _ & Hkeys & Hall)%remove_negative_loop_spec;
    [|apply complement_dict_nil].
  assert (∀ op preconds k,
            op ∈ get_safe_operators actions →
            precondition op = CLit <$> preconds →
            k ∈ preconds ++ effects_of op → negated k = true →
            not_literal k ∈ al.*2) as Hadded.
  { intros op preconds k Hop Hpre Hk Hneg.
    assert (k ∈ al.*1) as ([k' v] & -> & Hkv)%list_elem_of_fmap.
    { apply Hkeys. right. by exists op, preconds. }
    destruct (Hcd _ _ Hkv) as [_ ->].
    apply list_elem_of_fmap. by exists (k', not_literal k'). }
  destruct (proj2 (petri_mapping_is_Some atoms al ops init)) as [net Hnet].
  { apply Forall_forall. intros op' [i Hi]%list_elem_of_lookup_1.
    destruct (Forall2_lookup_r _ _ _ _ _ Hall Hi)
      as (op & Hop%list_elem_of_lookup_2 & preconds & Hpre & ->).
    destruct (Hsafe op Hop) as (preconds' & Hpre' & Hp & He).
    assert (preconds' = preconds) as ->.
    { apply (inj (fmap CLit)). congruence. }
    eexists. split; [reflexivity|].
    intros l [(p & -> & Hin)%list_elem_of_fmap|Hl].
    - destruct (negated p) eqn:Hneg.
      + right. apply (Hadded op preconds); [done..| |done].
        apply elem_of_app. by left.
      + left. rewrite <-(positive_idemp p Hneg). by apply Hp.
    - apply rewritten_adds in Hl as [Hneg [Hl|(x & Hx & ->)]].
      + left. rewrite <-(positive_idemp l Hneg). by apply He.
      + right. apply (Hadded op preconds); [done..| |].
        * apply elem_of_app. by right.
        * destruct x as [p a []]; done. }
  exists net. split.
  - unfold pddl2petri. by rewrite Hrun.
  - apply sas_translate_is_Some. intros tran place Htran Hplace.
    apply list_elem_of_fmap. exists place. split; [done|].
    by eapply petri_mapping_closed.
Qed.

Lemma X24_grounded_task_translates_witness :
  ∃ net, pddl2petri hickmott_atoms [hickmott_x] hickmott_init = Some net
         ∧ is_Some (sas_translate net (CLit (atom "d"))).
Proof.
  apply X24_grounded_task_translates.
  - compute_done.
  - constructor; [|constructor]. intros Hnil. by vm_compute in Hnil.
Defined.

(** X25. The net of [pddl2petri] has 2^k transitions for every action with k
    unsettled effects, and one place per atom plus one per distinct negated
    literal among the preconditions and effects of the safe operators. *)
Theorem X25_size_of_the_net atoms actions init net :
  pddl2petri atoms actions init = Some net →
  length (transitions net)
  = sum_list_with (λ op, 2 ^ length (not_negated_effects op)) actions
  ∧ length (places net)
    = length atoms
      + length (remove_dups
                  (filter (λ l, negated l = true)
                     (get_safe_operators actions
                        ≫= λ op, omap literal_of (precondition op)
                                 ++ effects_of op))).
Proof.
  unfold pddl2petri.
  destruct (remove_negative_preconditions (get_safe_operators actions))
    as [[ops al]|] eqn:Hrun; [|done].
  intros [Hplaces Hall]%petri_mapping_Some.
  pose proof Hrun as (_ & _ & _ & Hops)%remove_negative_loop_spec;
    [|apply complement_dict_nil].
  split.
  - rewrite <-(Forall2_length _ _ _ Hall), <-(Forall2_length _ _ _ Hops).
    apply get_safe_operators_length.
  - rewrite Hplaces. unfold mapping_places.
    rewrite length_app, !length_fmap. f_equal.
    rewrite (remove_negative_preconditions_mapping _ _ _ Hrun) at 1.
    by rewrite length_fmap, length_reverse, remove_dups_reverse_length.
Qed.

Lemma X25_size_of_the_net_witness :
  length (transitions hickmott_net) = 2 ∧ length (places hickmott_net) = 3 + 3.
Proof.
  destruct (X25_size_of_the_net hickmott_atoms [hickmott_x] hickmott_init
              hickmott_net hickmott_net_built) as [Htr Hpl].
  split; [exact Htr|]. rewrite Hpl. by vm_compute.
Defined.

(** X26. An action all of whose effects are settled passes through
    unchanged; if one of its precondition entries is a condition with parts,
    as in the test file, [pddl2petri] raises. *)
Theorem X26_wrapped_settled_action atoms actions init op parts :
  op ∈ actions → not_negated_effects op = [] →
  CConj parts ∈ precondition op →
  pddl2petri atoms actions init = None.
Proof.
  intros Hop Hnil Hwrapped. unfold pddl2petri.
  destruct (remove_negative_preconditions (get_safe_operators actions))
    as [[ops al]|] eqn:Hrun; [|done].
  exfalso.
  assert (is_Some (remove_negative_preconditions (get_safe_operators actions)))
    as Hlits%remove_negative_preconditions_is_Some by by eexists.
  rewrite Forall_forall in Hlits. destruct (Hlits op) as [preconds Hpre].
  - apply list_elem_of_bind. exists op. split; [|done].
    rewrite safe_operators_of_settled by done. by left.
  - rewrite Hpre in Hwrapped.
    by apply list_elem_of_fmap in Hwrapped as (l & ? & _).
Qed.

Lemma X26_wrapped_settled_action_witness :
  pddl2petri [atom "a"] [wrapped_settled_op] [] = None.
Proof.
  apply (X26_wrapped_settled_action _ _ _ wrapped_settled_op [atom "a"]).
  - by left.
  - by vm_compute.
  - by left.
Defined.
